(** * rag_prep: the chunking engine (src/rag_prep/chunkers.py)

    A shallow embedding of the four chunking strategies, of the tokenizer
    loader they depend on (src/rag_prep/tokenizers.py) and of the strategy
    resolver [get_chunker], together with the properties the specification
    states about them.

    Python values are modelled as follows.
    - [str] is a list of Unicode code points ([list N]).
    - [int] is [Z]; slices follow Python's rules for negative and
      out-of-range bounds.
    - a [dict] is a finite map from [str] keys to values; dicts and lists
      are objects of an object store and are referred to by address, so
      that [metadata.copy()] allocates a new dict, a list held in the
      metadata is shared by the copies, and aliasing is visible.
    - a generator function is a state machine: a type of suspended states and
      a [next] function that runs the body up to the next [yield]. *)

From Stdlib Require Import ZArith List Ascii String Lia.
From stdpp Require Import base tactics option list numbers strings pretty gmap.

Open Scope Z_scope.

(** ** Strings *)

Abbreviation pystr := (list N).

(** A Python string literal. *)
Definition str (s : string) : pystr :=
  map N_of_ascii (list_ascii_of_string s).

Definition py_len {A} (l : list A) : Z := Z.of_nat (length l).

(** ** Slices

    [adjust_index] is what CPython does to one bound of [l[start:stop]] for a
    sequence of length [len]: a negative bound counts from the end, and the
    result is clamped to [0, len]. *)

Definition adjust_index (len i : Z) : Z :=
  if i <? 0 then Z.max 0 (i + len) else Z.min i len.

(** [l[start:stop]] *)
Definition py_slice {A} (l : list A) (start stop : Z) : list A :=
  let a := adjust_index (py_len l) start in
  let b := adjust_index (py_len l) stop in
  take (Z.to_nat (b - a)) (drop (Z.to_nat a) l).

(** [l[start:]] *)
Definition py_slice_from {A} (l : list A) (start : Z) : list A :=
  drop (Z.to_nat (adjust_index (py_len l) start)) l.

(** [l[:stop]] *)
Definition py_slice_to {A} (l : list A) (stop : Z) : list A :=
  take (Z.to_nat (adjust_index (py_len l) stop)) l.

(** ** Values, dicts and the object store *)

(** An address of the object store. *)
Abbreviation loc := nat.

(** A metadata value: [None], a [bool], an [int], a [str], or a reference to
    a list object (a string array, such as the [csv_columns] that
    [CSVLoader] stores).  The scalars are immutable; a list is a mutable
    object of the store, and a value only refers to it. *)
Inductive val :=
  | VNone
  | VBool (b : bool)
  | VInt (z : Z)
  | VStr (s : pystr)
  | VList (r : loc).

Abbreviation dict := (gmap (list N) val).

(** [d.get(k, default)] *)
Definition dict_get (d : dict) (k : pystr) (default : val) : val :=
  match d !! k with
  | Some v => v
  | None => default
  end.

(** A list object: its items, and what [str()] gives for a list with given
    items.  The interpreter computes [str(l)] from the [repr] of the items;
    that function is a component of the object here, so that every statement
    holds whatever it is. *)
Record pylist := mkList {
  items : list pystr;
  list_str : list pystr → pystr;
}.

(** The objects of the store: dicts and lists. *)
Inductive obj :=
  | ODict (d : dict)
  | OList (l : pylist).

(** The object store; an address is an index into it. *)
Abbreviation heap := (list obj).

(** Allocation of a new dict object. *)
Definition alloc (d : dict) (h : heap) : loc * heap :=
  (length h, h ++ [ODict d]).

(** The dict a reference points to; a reference held by a running program
    always points to an object, [∅] is returned for an address that holds
    no dict. *)
Definition deref (h : heap) (l : loc) : dict :=
  match h !! l with
  | Some (ODict d) => d
  | _ => ∅
  end.

(** The list object a reference points to. *)
Definition list_at (h : heap) (r : loc) : option pylist :=
  match h !! r with
  | Some (OList l) => Some l
  | _ => None
  end.

(** Any in-place mutation of the dict at address [l] ([d[k] = v],
    [del d[k]], [d.update(..)], [d.clear()], ...) replaces its contents. *)
Definition mutate (l : loc) (d' : dict) (h : heap) : heap :=
  <[l := ODict d']> h.

(** [l.append(x)] for the list at address [r]. *)
Definition list_append (r : loc) (x : pystr) (h : heap) : heap :=
  match list_at h r with
  | Some l => <[r := OList (mkList (items l ++ [x]) (list_str l))]> h
  | None => h
  end.

(** [str(v)], as an f-string placeholder formats it; a list is rendered
    from the items it holds at that moment ([[]] for an address that holds
    no list). *)
Definition py_str (h : heap) (v : val) : pystr :=
  match v with
  | VNone => str "None"
  | VBool true => str "True"
  | VBool false => str "False"
  | VInt z => str (pretty z)
  | VStr s => s
  | VList r =>
      match list_at h r with
      | Some l => list_str l (items l)
      | None => str "[]"
      end
  end.

(** ** Chunks (src/rag_prep/models.py) *)

Record Chunk := mkChunk {
  text : pystr;
  metadata : loc;
  chunk_id : val;
}.

(** The id [f"{metadata.get('source_id', 'doc')}_chunk_{chunk_idx}"]. *)
Definition indexed_chunk_id (h : heap) (md : dict) (chunk_idx : Z) : val :=
  VStr (py_str h (dict_get md (str "source_id") (VStr (str "doc")))
        ++ str "_chunk_" ++ py_str h (VInt chunk_idx)).

(** ** Generators

    [next s h] resumes a generator suspended in state [s] with store [h]; it
    returns the chunk yielded, the new suspended state and the new store, or
    [None] when the body returns.  [run fuel s h] is what [list(..)] or a
    [for] loop observes after at most [fuel] calls of [next]: the chunks so
    far, the store, and whether the generator is exhausted. *)

Section Generators.
Context {S : Type} (next : S → heap → option (Chunk * S * heap)).

Fixpoint run (fuel : nat) (s : S) (h : heap) : list Chunk * heap * bool :=
  match fuel with
  | O => ([], h, false)
  | Datatypes.S fuel' =>
      match next s h with
      | None => ([], h, true)
      | Some (c, s', h') =>
          let '(cs, h'', fin) := run fuel' s' h' in (c :: cs, h'', fin)
      end
  end.
End Generators.

(** ** CharacterChunker *)

Inductive char_gen :=
  | CharStart
  | CharYielded (start chunk_idx : Z).

Section CharacterChunker.
Variables (size overlap : Z) (txt : pystr) (md : loc).

(** One test of the [while] condition followed by the body up to [yield]. *)
Definition char_loop (start chunk_idx : Z) (h : heap)
  : option (Chunk * char_gen * heap) :=
  if start <? py_len txt then
    let end_ := start + size in
    let chunk_text := py_slice txt start end_ in
    let chunk_metadata :=
      <[str "end_char" := VInt (Z.min end_ (py_len txt))]>
        (<[str "start_char" := VInt start]>
           (<[str "chunk_index" := VInt chunk_idx]> (deref h md))) in
    let '(l, h') := alloc chunk_metadata h in
    Some (mkChunk chunk_text l (indexed_chunk_id h (deref h md) chunk_idx),
          CharYielded start chunk_idx, h')
  else None.

Definition char_next (s : char_gen) (h : heap)
  : option (Chunk * char_gen * heap) :=
  match s with
  | CharStart =>
      match txt with
      | [] => None
      | _ => char_loop 0 0 h
      end
  | CharYielded start chunk_idx =>
      let end_ := start + size in
      let chunk_idx := chunk_idx + 1 in
      let start := end_ - overlap in
      if start >=? py_len txt then None else char_loop start chunk_idx h
  end.
End CharacterChunker.

(** ** Exceptions

    The part of Python's exception hierarchy the chunking engine meets.
    [UserError] stands for any other class derived from [Exception],
    [UserBaseError] for one derived from [BaseException] only. *)

Inductive exc_class :=
  | BaseException
  | Exception
  | ImportError
  | ModuleNotFoundError
  | AttributeError
  | IndexError
  | TypeError
  | ValueError
  | KeyboardInterrupt
  | SystemExit
  | UserError (name : pystr)
  | UserBaseError (name : pystr).

Definition base_class (c : exc_class) : option exc_class :=
  match c with
  | BaseException => None
  | Exception | KeyboardInterrupt | SystemExit | UserBaseError _ =>
      Some BaseException
  | ModuleNotFoundError => Some ImportError
  | ImportError | AttributeError | IndexError | TypeError | ValueError
  | UserError _ => Some Exception
  end.

Global Instance exc_class_eq_dec : EqDecision exc_class.
Proof. solve_decision. Defined.

(** The method resolution order of [c]; the hierarchy above has depth
    three. *)
Fixpoint mro (depth : nat) (c : exc_class) : list exc_class :=
  c :: match depth, base_class c with
       | Datatypes.S depth', Some b => mro depth' b
       | _, _ => []
       end.

(** [issubclass(c, d)] *)
Definition issubclass (c d : exc_class) : bool :=
  bool_decide (d ∈ mro 3 c).

(** An exception object; [str(e)] is its message. *)
Record exn := mkExn { exn_class : exc_class; exn_msg : pystr }.

Definition isinstance (e : exn) (c : exc_class) : bool :=
  issubclass (exn_class e) c.

Inductive result (A : Type) :=
  | Ok (a : A)
  | Raise (e : exn).
Arguments Ok {A} a.
Arguments Raise {A} e.

Global Instance result_bind : MBind result := λ A B k r,
  match r with
  | Ok a => k a
  | Raise e => Raise e
  end.

(** ** Tokenizers (src/rag_prep/tokenizers.py) *)

Record Tokenizer := mkTokenizer {
  encode : pystr → list Z;
  decode : list Z → pystr;
}.

Definition TiktokenWrapper (encoding : Tokenizer) : Tokenizer :=
  {| encode := λ text, encode encoding text;
     decode := λ tokens, decode encoding tokens |}.

Section Backend.
(** The tokenization backend: the outcome of [import tiktoken] and of
    [tiktoken.get_encoding(name)]. *)
Variable import_tiktoken : result unit.
Variable tiktoken_get_encoding : pystr → result Tokenizer.

Definition get_tokenizer (name : option pystr) : result (option Tokenizer) :=
  match name with
  | None => Ok None
  | Some name =>
      match (import_tiktoken ;;
             encoding ← tiktoken_get_encoding name;
             Ok (Some (TiktokenWrapper encoding))) with
      | Ok r => Ok r
      | Raise e =>
          if isinstance e ImportError then
            Raise (mkExn ImportError
              (str "tiktoken is required for tokenization. Install with: pip install tiktoken"))
          else if isinstance e Exception then
            Raise (mkExn ValueError
              (str "Failed to load tokenizer '" ++ name ++ str "': "
               ++ exn_msg e))
          else Raise e
      end
  end.
End Backend.

(** ** TokenChunker *)

Inductive tok_gen :=
  | TokStart
  | TokFallback (g : char_gen)
  | TokYielded (tokens : list Z) (start chunk_idx : Z).

Section TokenChunker.
Variables (size overlap : Z) (tokenizer : option Tokenizer).
Variables (txt : pystr) (md : loc).

Definition tok_loop (tk : Tokenizer) (tokens : list Z)
    (start chunk_idx : Z) (h : heap) : option (Chunk * tok_gen * heap) :=
  if start <? py_len tokens then
    let end_ := start + size in
    let chunk_tokens := py_slice tokens start end_ in
    let chunk_text := decode tk chunk_tokens in
    let chunk_metadata :=
      <[str "end_token" := VInt (Z.min end_ (py_len tokens))]>
        (<[str "start_token" := VInt start]>
           (<[str "chunk_index" := VInt chunk_idx]> (deref h md))) in
    let '(l, h') := alloc chunk_metadata h in
    Some (mkChunk chunk_text l (indexed_chunk_id h (deref h md) chunk_idx),
          TokYielded tokens start chunk_idx, h')
  else None.

(** [yield from chunker.chunk(text, metadata)] followed by [return]. *)
Definition tok_delegate (g : char_gen) (h : heap)
  : option (Chunk * tok_gen * heap) :=
  match char_next size overlap txt md g h with
  | Some (c, g', h') => Some (c, TokFallback g', h')
  | None => None
  end.

Definition tok_next (s : tok_gen) (h : heap)
  : option (Chunk * tok_gen * heap) :=
  match s with
  | TokStart =>
      match txt, tokenizer with
      | _ :: _, Some tk =>
          let tokens := encode tk txt in
          match tokens with
          | [] => None
          | _ => tok_loop tk tokens 0 0 h
          end
      | _, _ => tok_delegate CharStart h
      end
  | TokFallback g => tok_delegate g h
  | TokYielded tokens start chunk_idx =>
      match tokenizer with
      | Some tk =>
          let end_ := start + size in
          let chunk_idx := chunk_idx + 1 in
          let start := end_ - overlap in
          if start >=? py_len tokens then None
          else tok_loop tk tokens start chunk_idx h
      | None => None
      end
  end.
End TokenChunker.

(** ** SentenceChunker *)

(** The characters [\s] matches in a [str] pattern (Unicode white space). *)
Definition is_space (c : N) : bool :=
  ((9 <=? c) && (c <=? 13) || (28 <=? c) && (c <=? 32)
   || (c =? 133) || (c =? 160) || (c =? 5760)
   || (8192 <=? c) && (c <=? 8202) || (c =? 8232) || (c =? 8233)
   || (c =? 8239) || (c =? 8287) || (c =? 12288))%N.

(** The class [[.!?]]. *)
Definition is_terminator (c : N) : bool :=
  ((c =? 46) || (c =? 33) || (c =? 63))%N.

(** [re.split(r"(?<=[.!?])\s+", text)]: a separator is a maximal run of
    white space that directly follows a terminator.  [cur] is the piece
    being read, reversed; [after_term] tells whether the previous character
    was a terminator, [in_sep] whether a separator is being skipped. *)
Fixpoint split_scan (in_sep after_term : bool) (cur : pystr) (t : pystr)
  : list pystr :=
  match t with
  | [] => [reverse cur]
  | c :: t' =>
      if in_sep then
        if is_space c then split_scan true false cur t'
        else split_scan false (is_terminator c) [c] t'
      else if after_term && is_space c then
        reverse cur :: split_scan true false [] t'
      else split_scan false (is_terminator c) (c :: cur) t'
  end.

Definition split_sentences (t : pystr) : list pystr :=
  split_scan false false [] t.

(** [sep.join(parts)] *)
Fixpoint py_join (sep : pystr) (parts : list pystr) : pystr :=
  match parts with
  | [] => []
  | [p] => p
  | p :: ps => p ++ sep ++ py_join sep ps
  end.

(** [sum(len(s) for s in l)] *)
Definition total_len (l : list pystr) : Z :=
  foldr (λ s acc, py_len s + acc) 0 l.

Inductive sent_gen :=
  | SentStart
  | SentFallback (g : char_gen)
  | SentFlushed (sentence : pystr) (rest current_chunk : list pystr)
      (chunk_idx : Z)
  | SentFinal.

Section SentenceChunker.
Variables (size overlap : Z) (txt : pystr) (md : loc).

(** The chunk built at both [yield]s. *)
Definition sent_emit (current_chunk : list pystr) (chunk_idx : Z)
    (s' : sent_gen) (h : heap) : Chunk * sent_gen * heap :=
  let chunk_text := py_join (str " ") current_chunk in
  let chunk_metadata := <[str "chunk_index" := VInt chunk_idx]> (deref h md) in
  let '(l, h') := alloc chunk_metadata h in
  (mkChunk chunk_text l (indexed_chunk_id h (deref h md) chunk_idx), s', h').

(** The loop [for s in reversed(current_chunk)] that prepares the
    overlap, with its [break]. *)
Fixpoint overlap_loop (reversed : list pystr) (overlap_sentences : list pystr)
    (overlap_size : Z) : list pystr :=
  match reversed with
  | [] => overlap_sentences
  | s :: reversed' =>
      if overlap_size + py_len s <=? overlap then
        overlap_loop reversed' (s :: overlap_sentences)
          (overlap_size + py_len s)
      else overlap_sentences
  end.

(** The loop [for sentence in sentences] up to the next [yield], then the
    final flush. *)
Fixpoint sent_loop (sentences current_chunk : list pystr)
    (current_size chunk_idx : Z) (overlap_sentences : list pystr) (h : heap)
  : option (Chunk * sent_gen * heap) :=
  match sentences with
  | [] =>
      match current_chunk with
      | [] => None
      | _ => Some (sent_emit current_chunk chunk_idx SentFinal h)
      end
  | sentence :: rest =>
      let sentence_size := py_len sentence in
      if current_size + sentence_size <=? size then
        sent_loop rest (current_chunk ++ [sentence])
          (current_size + sentence_size) chunk_idx overlap_sentences h
      else
        match current_chunk with
        | [] =>
            let current_chunk := overlap_sentences ++ [sentence] in
            sent_loop rest current_chunk (total_len current_chunk)
              chunk_idx overlap_sentences h
        | _ =>
            Some (sent_emit current_chunk chunk_idx
                    (SentFlushed sentence rest current_chunk chunk_idx) h)
        end
  end.

Definition sent_next (s : sent_gen) (h : heap)
  : option (Chunk * sent_gen * heap) :=
  match s with
  | SentStart =>
      match txt with
      | [] => None
      | _ =>
          let sentences := split_sentences txt in
          match sentences with
          | [] =>
              match char_next size overlap txt md CharStart h with
              | Some (c, g', h') => Some (c, SentFallback g', h')
              | None => None
              end
          | _ => sent_loop sentences [] 0 0 [] h
          end
      end
  | SentFallback g =>
      match char_next size overlap txt md g h with
      | Some (c, g', h') => Some (c, SentFallback g', h')
      | None => None
      end
  | SentFlushed sentence rest current_chunk chunk_idx =>
      let chunk_idx := chunk_idx + 1 in
      let overlap_sentences := overlap_loop (reverse current_chunk) [] 0 in
      let current_chunk := overlap_sentences ++ [sentence] in
      sent_loop rest current_chunk (total_len current_chunk) chunk_idx
        overlap_sentences h
  | SentFinal => None
  end.
End SentenceChunker.

(** ** NoChunker *)

Inductive no_gen :=
  | NoStart
  | NoYielded.

Definition no_next (txt : pystr) (md : loc) (s : no_gen) (h : heap)
  : option (Chunk * no_gen * heap) :=
  match s with
  | NoStart =>
      let '(l, h') := alloc (deref h md) h in
      Some (mkChunk txt l (dict_get (deref h md) (str "source_id")
                             (VStr (str "doc"))),
            NoYielded, h')
  | NoYielded => None
  end.

(** ** The four built-in strategies behind one interface *)

Inductive strategy :=
  | CharacterChunker (size overlap : Z)
  | TokenChunker (size overlap : Z) (tokenizer : option Tokenizer)
  | SentenceChunker (size overlap : Z)
  | NoChunker.

Inductive gen_state :=
  | GChar (g : char_gen)
  | GTok (g : tok_gen)
  | GSent (g : sent_gen)
  | GNo (g : no_gen).

(** [c.chunk(text, metadata)] creates a generator that has not started. *)
Definition chunk (c : strategy) : gen_state :=
  match c with
  | CharacterChunker _ _ => GChar CharStart
  | TokenChunker _ _ _ => GTok TokStart
  | SentenceChunker _ _ => GSent SentStart
  | NoChunker => GNo NoStart
  end.

Definition lift_next {G} (inj : G → gen_state)
    (r : option (Chunk * G * heap)) : option (Chunk * gen_state * heap) :=
  match r with
  | Some (c, g, h) => Some (c, inj g, h)
  | None => None
  end.

Definition chunk_next (c : strategy) (txt : pystr) (md : loc)
    (s : gen_state) (h : heap) : option (Chunk * gen_state * heap) :=
  match c, s with
  | CharacterChunker size overlap, GChar g =>
      lift_next GChar (char_next size overlap txt md g h)
  | TokenChunker size overlap tokenizer, GTok g =>
      lift_next GTok (tok_next size overlap tokenizer txt md g h)
  | SentenceChunker size overlap, GSent g =>
      lift_next GSent (sent_next size overlap txt md g h)
  | NoChunker, GNo g => lift_next GNo (no_next txt md g h)
  | _, _ => None
  end.

(** [list(c.chunk(text, metadata))], cut after [fuel] chunks. *)
Definition chunk_list (c : strategy) (txt : pystr) (md : loc) (fuel : nat)
    (h : heap) : list Chunk * heap * bool :=
  run (chunk_next c txt md) fuel (chunk c) h.

(** ** The strategy resolver *)

(** [s.split(sep)] for a one-character separator; [cur] is the piece being
    read, reversed. *)
Fixpoint split_on (sep : N) (cur : pystr) (s : pystr) : list pystr :=
  match s with
  | [] => [reverse cur]
  | c :: s' =>
      if (c =? sep)%N then reverse cur :: split_on sep [] s'
      else split_on sep (c :: cur) s'
  end.

Definition py_split (s : pystr) (sep : N) : list pystr := split_on sep [] s.

(** [l[i]] *)
Definition py_getitem {A} (l : list A) (i : Z) : result A :=
  let j := if i <? 0 then i + py_len l else i in
  match (if (0 <=? j) && (j <? py_len l) then l !! Z.to_nat j else None) with
  | Some x => Ok x
  | None => Raise (mkExn IndexError (str "list index out of range"))
  end.

(** [s1 in s2] for strings. *)
Definition contains (s2 s1 : pystr) : Prop :=
  ∃ before after, s2 = before ++ s1 ++ after.

(** The module part of a dotted path: [".".join(parts[:-1])]. *)
Definition custom_module_name (strategy : pystr) : pystr :=
  py_join (str ".") (py_slice_to (py_split strategy 46) (-1)).

(** The message of the error [get_chunker] raises. *)
Definition unknown_strategy_message (strategy : pystr) (e : exn) : pystr :=
  str "Unknown chunking strategy '" ++ strategy ++ str "'. "
  ++ str "Supported: 'character', 'token', 'sentence', 'none', "
  ++ str "or a module path like 'mypackage.CustomChunker'. Error: "
  ++ exn_msg e.

Section Resolver.
(** Python's [str.lower]. *)
Variable py_lower : pystr → pystr.
(** The tokenization backend. *)
Variable import_tiktoken : result unit.
Variable tiktoken_get_encoding : pystr → result Tokenizer.
(** Modules, the classes found in them and the chunkers these build:
    [importlib.import_module(name)], [getattr(module, name)],
    [cls(size=size, overlap=overlap)] and [cls()]. *)
Variables py_module py_class custom : Type.
Variable import_module : pystr → result py_module.
Variable getattr : py_module → pystr → result py_class.
Variable construct_kw : py_class → Z → Z → result custom.
Variable construct : py_class → result custom.

(** [TokenChunker(size, overlap, tokenizer, tokenizer_name)] *)
Definition TokenChunker_init (size overlap : Z)
    (tokenizer : option Tokenizer) (tokenizer_name : option pystr)
  : result strategy :=
  match tokenizer with
  | Some tk => Ok (TokenChunker size overlap (Some tk))
  | None =>
      match get_tokenizer import_tiktoken tiktoken_get_encoding
              tokenizer_name with
      | Ok tk => Ok (TokenChunker size overlap tk)
      | Raise e =>
          if isinstance e ImportError || isinstance e ValueError
          then Ok (TokenChunker size overlap None)
          else Raise e
      end
  end.

(** The ways in which resolving [strategy] as a dotted path fails with an
    ordinary exception [e]: the module is not found, the attribute is
    not found, the first construction fails for another reason than its
    signature, or both constructions fail. *)
Inductive resolution_fails (strategy : pystr) (size overlap : Z) (e : exn)
  : Prop :=
  | module_not_found :
      import_module (custom_module_name strategy) = Raise e →
      isinstance e Exception = true →
      resolution_fails strategy size overlap e
  | attribute_not_found module class_name :
      import_module (custom_module_name strategy) = Ok module →
      last (py_split strategy 46) = Some class_name →
      getattr module class_name = Raise e →
      isinstance e Exception = true →
      resolution_fails strategy size overlap e
  | construction_fails module class_name chunker_class :
      import_module (custom_module_name strategy) = Ok module →
      last (py_split strategy 46) = Some class_name →
      getattr module class_name = Ok chunker_class →
      construct_kw chunker_class size overlap = Raise e →
      isinstance e TypeError = false →
      isinstance e Exception = true →
      resolution_fails strategy size overlap e
  | both_constructions_fail module class_name chunker_class e1 :
      import_module (custom_module_name strategy) = Ok module →
      last (py_split strategy 46) = Some class_name →
      getattr module class_name = Ok chunker_class →
      construct_kw chunker_class size overlap = Raise e1 →
      isinstance e1 TypeError = true →
      construct chunker_class = Raise e →
      isinstance e Exception = true →
      resolution_fails strategy size overlap e.

Inductive chunker :=
  | Builtin (c : strategy)
  | Custom (c : custom).

(** The body of the outer [try] of [get_chunker]. *)
Definition load_custom (strategy : pystr) (size overlap : Z)
  : result custom :=
  let parts := py_split strategy 46 in
  let module_name := py_join (str ".") (py_slice_to parts (-1)) in
  class_name ← py_getitem parts (-1);
  module ← import_module module_name;
  chunker_class ← getattr module class_name;
  match construct_kw chunker_class size overlap with
  | Ok c => Ok c
  | Raise e =>
      if isinstance e TypeError then construct chunker_class else Raise e
  end.

Definition get_chunker (strategy : pystr) (size overlap : Z)
    (tokenizer : option Tokenizer) (tokenizer_name : option pystr)
  : result chunker :=
  let strategy_lower := py_lower strategy in
  if decide (strategy_lower = str "character") then
    Ok (Builtin (CharacterChunker size overlap))
  else if decide (strategy_lower = str "token") then
    c ← TokenChunker_init size overlap tokenizer tokenizer_name;
    Ok (Builtin c)
  else if decide (strategy_lower = str "sentence") then
    Ok (Builtin (SentenceChunker size overlap))
  else if decide (strategy_lower = str "none") then
    Ok (Builtin NoChunker)
  else
    match load_custom strategy size overlap with
    | Ok c => Ok (Custom c)
    | Raise e =>
        if isinstance e Exception then
          Raise (mkExn ValueError (unknown_strategy_message strategy e))
        else Raise e
    end.
End Resolver.

Arguments Builtin {custom} c.
Arguments Custom {custom} c.
Arguments load_custom {py_module py_class custom}.
Arguments resolution_fails {py_module py_class custom}.
Arguments get_chunker py_lower import_tiktoken tiktoken_get_encoding
  {py_module py_class custom}.

(** The ASCII part of [str.lower], for the examples. *)
Definition ascii_lower (s : pystr) : pystr :=
  map (λ c, if (65 <=? c)%N && (c <=? 90)%N then (c + 32)%N else c) s.

(** ** Invariants of the character chunker

    The dict of the chunk that starts at [start]. *)
Definition char_dict (size : Z) (txt : pystr) (d0 : dict)
    (start chunk_idx : Z) : dict :=
  <[str "end_char" := VInt (Z.min (start + size) (py_len txt))]>
    (<[str "start_char" := VInt start]>
       (<[str "chunk_index" := VInt chunk_idx]> d0)).

(** The state in which the generator is resumed for its [k]-th chunk: the
    base metadata [md] is a live object holding [d0], and the cursor has
    advanced [k - 1] steps. *)
Definition char_inv (size overlap : Z) (md : loc) (d0 : dict) (k : nat)
    (s : char_gen) (h : heap) : Prop :=
  (md < length h)%nat ∧ deref h md = d0 ∧
  match s with
  | CharStart => k = 0%nat
  | CharYielded start chunk_idx =>
      (1 ≤ k)%nat ∧ start = (Z.of_nat k - 1) * (size - overlap)
      ∧ chunk_idx = Z.of_nat k - 1
  end.

(** The [k]-th chunk and the dict allocated for it. *)
Definition char_post (size overlap : Z) (txt : pystr) (d0 : dict) (k : nat)
    (c : Chunk) (d : dict) : Prop :=
  Z.of_nat k * (size - overlap) < py_len txt
  ∧ text c = py_slice txt (Z.of_nat k * (size - overlap))
               (Z.of_nat k * (size - overlap) + size)
  ∧ d = char_dict size txt d0 (Z.of_nat k * (size - overlap)) (Z.of_nat k).

(** What is left of the text when the chunks are laid end to end, each one
    after the first without its leading [overlap] characters. *)
Definition reconstruct (overlap : Z) (cs : list Chunk) : pystr :=
  match cs with
  | [] => []
  | c :: cs' =>
      text c ++ concat (map (λ c', py_slice_from (text c') overlap) cs')
  end.

(** The integer stored under [key] in the metadata of [c]. *)
Definition meta_int (h : heap) (c : Chunk) (key : pystr) : option Z :=
  match deref h (metadata c) !! key with
  | Some (VInt z) => Some z
  | _ => None
  end.

(** Position [p] of the text lies in the interval some chunk records. *)
Definition covered (h : heap) (cs : list Chunk) (p : Z) : Prop :=
  ∃ c s e, c ∈ cs ∧ meta_int h c (str "start_char") = Some s
           ∧ meta_int h c (str "end_char") = Some e ∧ s ≤ p < e.

(** The metadata of the tests: [{"source_id": "test"}]. *)
Definition test_metadata : dict :=
  {[ str "source_id" := VStr (str "test") ]}.

(** A base metadata that already holds an index:
    [{"source_id": "test", "chunk_index": 5}]. *)
Definition indexed_metadata : dict :=
  <[str "chunk_index" := VInt 5]> test_metadata.

(** The run of the metadata test: [CharacterChunker(size=10, overlap=2)] on
    "Test text for chunking". *)
Definition test_chunks : list Chunk * heap * bool :=
  chunk_list (CharacterChunker 10 2) (str "Test text for chunking") 0%nat 5
    [ODict test_metadata].

(** The backend cannot provide the encoding [name]: importing it or looking
    the encoding up raises an ordinary exception. *)
Definition backend_unavailable (import_tiktoken : result unit)
    (tiktoken_get_encoding : pystr → result Tokenizer) (name : pystr)
  : Prop :=
  ∃ e, isinstance e Exception = true
       ∧ (import_tiktoken = Raise e
          ∨ (import_tiktoken = Ok () ∧ tiktoken_get_encoding name = Raise e)).

(** The tokenizer of the fallback test: loading the backend works, the
    encoding name is not known to it. *)
Definition unknown_encoding (name : pystr) : result Tokenizer :=
  Raise (mkExn ValueError (str "Unknown encoding " ++ name)).

(** The chunks of [cs] carry the indices 0, 1, 2, ... in this order. *)
Definition indices_contiguous (h : heap) (cs : list Chunk) : Prop :=
  ∀ i c, cs !! i = Some c →
    meta_int h c (str "chunk_index") = Some (Z.of_nat i).

(** The counter [chunk_idx] of a suspended generator that has yielded [k]
    chunks. *)
Definition char_counts (k : nat) (g : char_gen) : Prop :=
  match g with
  | CharStart => k = 0%nat
  | CharYielded _ chunk_idx => chunk_idx = Z.of_nat k - 1
  end.

Definition counts (k : nat) (s : gen_state) : Prop :=
  match s with
  | GChar g | GTok (TokFallback g) | GSent (SentFallback g) => char_counts k g
  | GTok TokStart | GSent SentStart => k = 0%nat
  | GTok (TokYielded _ _ chunk_idx) | GSent (SentFlushed _ _ _ chunk_idx) =>
      chunk_idx = Z.of_nat k - 1
  | GSent SentFinal | GNo _ => True
  end.

(** What one call of [next] does to the store: one dict is allocated, the
    chunk refers to it, and it holds the index [k]. *)
Definition yields_index (k : Z) (h h' : heap) (c : Chunk) : Prop :=
  ∃ d, h' = h ++ [ODict d] ∧ metadata c = length h
       ∧ d !! str "chunk_index" = Some (VInt k).

(** What [list(..)] observes once a call of [next] has returned [r]. *)
Definition resume {S} (next : S → heap → option (Chunk * S * heap))
    (r : option (Chunk * S * heap)) (fuel : nat) (h : heap)
  : list Chunk * heap * bool :=
  match r with
  | None => ([], h, true)
  | Some (c, s', h') =>
      let '(cs, h'', fin) := run next fuel s' h' in (c :: cs, h'', fin)
  end.

(** The buffers the sentence chunker flushes, in order: the loop of
    [SentenceChunker.chunk] without the chunks and the store. *)
Fixpoint flushed (size overlap : Z) (sentences current_chunk : list pystr)
    (current_size : Z) (overlap_sentences : list pystr)
  : list (list pystr) :=
  match sentences with
  | [] =>
      match current_chunk with
      | [] => []
      | _ => [current_chunk]
      end
  | sentence :: rest =>
      if current_size + py_len sentence <=? size then
        flushed size overlap rest (current_chunk ++ [sentence])
          (current_size + py_len sentence) overlap_sentences
      else
        match current_chunk with
        | [] =>
            flushed size overlap rest (overlap_sentences ++ [sentence])
              (total_len (overlap_sentences ++ [sentence])) overlap_sentences
        | _ =>
            let overlap_sentences' :=
              overlap_loop overlap (reverse current_chunk) [] 0 in
            current_chunk
            :: flushed size overlap rest (overlap_sentences' ++ [sentence])
                 (total_len (overlap_sentences' ++ [sentence]))
                 overlap_sentences'
        end
  end.

(** An environment without custom modules, as in the test of the
    resolver. *)
Definition no_modules (name : pystr) : result unit :=
  match name with
  | [] => Raise (mkExn ValueError (str "Empty module name"))
  | _ =>
      Raise (mkExn ModuleNotFoundError
               (str "No module named '" ++ name ++ str "'"))
  end.

(** The keys the chunkers set in the metadata of a chunk. *)
Definition chunker_keys : list pystr :=
  [str "chunk_index"; str "start_char"; str "end_char"; str "start_token";
   str "end_token"].

(** [d] is [d0] up to the keys the chunkers set. *)
Definition preserves (d0 d : dict) : Prop :=
  ∀ key, key ∉ chunker_keys → d !! key = d0 !! key.

(** What one call of [next] of a windowing strategy yields: a chunk with a
    new dict that extends the base metadata and holds an index, and with
    the id built from that index. *)
Definition yields_copy (md : loc) (h h' : heap) (c : Chunk) : Prop :=
  ∃ d idx, h' = h ++ [ODict d] ∧ metadata c = length h
    ∧ preserves (deref h md) d
    ∧ d !! str "chunk_index" = Some (VInt idx)
    ∧ chunk_id c = indexed_chunk_id h (deref h md) idx.

(** ** Invariants of the token chunker

    The dict of the chunk whose window starts at token [start]. *)
Definition tok_dict (size : Z) (tokens : list Z) (d0 : dict)
    (start chunk_idx : Z) : dict :=
  <[str "end_token" := VInt (Z.min (start + size) (py_len tokens))]>
    (<[str "start_token" := VInt start]>
       (<[str "chunk_index" := VInt chunk_idx]> d0)).

(** The state in which the tokenizing generator is resumed for its [k]-th
    chunk. *)
Definition tok_inv (size overlap : Z) (tokens : list Z) (md : loc)
    (d0 : dict) (k : nat) (s : tok_gen) (h : heap) : Prop :=
  (md < length h)%nat ∧ deref h md = d0 ∧
  match s with
  | TokStart => k = 0%nat
  | TokFallback _ => False
  | TokYielded tokens' start chunk_idx =>
      tokens' = tokens ∧ (1 ≤ k)%nat
      ∧ start = (Z.of_nat k - 1) * (size - overlap)
      ∧ chunk_idx = Z.of_nat k - 1
  end.

(** The [k]-th chunk of the tokenizing generator and its dict. *)
Definition tok_post (size overlap : Z) (tk : Tokenizer) (tokens : list Z)
    (d0 : dict) (k : nat) (c : Chunk) (d : dict) : Prop :=
  Z.of_nat k * (size - overlap) < py_len tokens
  ∧ text c = decode tk (py_slice tokens (Z.of_nat k * (size - overlap))
                          (Z.of_nat k * (size - overlap) + size))
  ∧ d = tok_dict size tokens d0 (Z.of_nat k * (size - overlap)) (Z.of_nat k).

(** Token position [p] lies in the window some chunk records. *)
Definition token_covered (h : heap) (cs : list Chunk) (p : Z) : Prop :=
  ∃ c s e, c ∈ cs ∧ meta_int h c (str "start_token") = Some s
           ∧ meta_int h c (str "end_token") = Some e ∧ s ≤ p < e.

(** A tokenizer for the examples: one token per character. *)
Definition char_tokenizer : Tokenizer :=
  {| encode := λ text, map Z.of_N text; decode := λ tokens, map Z.to_N tokens |}.

(** The buffer [b'] flushed after [b] starts with the overlap taken from
    [b]: a suffix [ov] of [b] of whole sentences, of at most [overlap]
    characters, that the sentence before it in [b] would make too long;
    at least one more sentence follows. *)
Definition carries_overlap (overlap : Z) (b b' : list pystr) : Prop :=
  ∃ ov rest, b' = ov ++ rest ∧ rest ≠ []
    ∧ total_len ov ≤ Z.max 0 overlap
    ∧ (ov = b
       ∨ ∃ before x, b = before ++ x :: ov
           ∧ overlap < total_len ov + py_len x).

(** A buffer either fits the size, or is an overlap followed by one
    sentence. *)
Definition within_bound (size overlap : Z) (b : list pystr) : Prop :=
  total_len b ≤ size
  ∨ ∃ ov s, b = ov ++ [s] ∧ total_len ov ≤ Z.max 0 overlap.

(** The message of the [ImportError] of [get_tokenizer]. *)
Definition tiktoken_required : pystr :=
  str "tiktoken is required for tokenization. Install with: pip install tiktoken".

(** ** Chunks as dicts (src/rag_prep/models.py)

    A value of the dict [to_dict] builds: a plain value or a reference to a
    dict object. *)
Inductive field :=
  | FVal (v : val)
  | FDict (l : loc).

(** [Chunk.to_dict]: the metadata is passed by reference. *)
Definition to_dict (c : Chunk) : gmap pystr field :=
  <[str "text" := FVal (VStr (text c))]>
    (<[str "metadata" := FDict (metadata c)]>
       (<[str "chunk_id" := FVal (chunk_id c)]> ∅)).

(** What the constructor of [Chunk] stores, whatever its arguments are. *)
Record raw_chunk := mkRawChunk {
  raw_text : field;
  raw_metadata : field;
  raw_chunk_id : field;
}.

(** A chunk of the chunkers, as the constructor stored it. *)
Definition of_chunk (c : Chunk) : raw_chunk :=
  {| raw_text := FVal (VStr (text c));
     raw_metadata := FDict (metadata c);
     raw_chunk_id := FVal (chunk_id c) |}.

(** [Chunk.from_dict]: [data["text"]] raises [KeyError] when the key is
    missing; the default [{}] of [data.get("metadata", {})] is a new dict
    object, built before [get] is called. *)
Definition from_dict (data : gmap pystr field) (h : heap)
  : result (raw_chunk * heap) :=
  match data !! str "text" with
  | None => Raise (mkExn (UserError (str "KeyError")) (str "'text'"))
  | Some t =>
      let '(l, h') := alloc ∅ h in
      let m := match data !! str "metadata" with
               | Some m => m
               | None => FDict l
               end in
      let cid := match data !! str "chunk_id" with
                 | Some v => v
                 | None => FVal VNone
                 end in
      Ok ({| raw_text := t; raw_metadata := m; raw_chunk_id := cid |}, h')
  end.

(** ** The configuration (src/rag_prep/models.py) and the command line
    (src/rag_prep/cli.py) *)

(** A metadata hook: [hook(metadata, text)] returns a dict. *)
Abbreviation hook := (loc → pystr → heap → loc * heap).

Record Config := mkConfig {
  chunk_strategy : pystr;
  chunk_size : Z;
  chunk_overlap : Z;
  tokenizer_name : option pystr;
  include_patterns : list pystr;
  exclude_patterns : list pystr;
  metadata_hooks : list hook;
  verbose : bool;
}.

(** [Config(..)] followed by [__post_init__]: a pattern list or hook list
    that is [None] becomes the empty list. *)
Definition Config_init (chunk_strategy : pystr) (chunk_size chunk_overlap : Z)
    (tokenizer_name : option pystr)
    (include_patterns exclude_patterns : option (list pystr))
    (metadata_hooks : option (list hook)) (verbose : bool) : Config :=
  {| chunk_strategy := chunk_strategy;
     chunk_size := chunk_size;
     chunk_overlap := chunk_overlap;
     tokenizer_name := tokenizer_name;
     include_patterns := default [] include_patterns;
     exclude_patterns := default [] exclude_patterns;
     metadata_hooks := default [] metadata_hooks;
     verbose := verbose |}.

(** The arguments [create_parser] defines, after parsing. *)
Record Args := mkArgs {
  arg_input : pystr;
  arg_output : pystr;
  arg_chunk_strategy : pystr;
  arg_chunk_size : Z;
  arg_chunk_overlap : Z;
  arg_tokenizer : pystr;
  arg_include : option (list pystr);
  arg_exclude : option (list pystr);
  arg_verbose : bool;
}.

(** The configuration [main] builds from the arguments. *)
Definition cli_config (py_lower : pystr → pystr) (args : Args) : Config :=
  Config_init (arg_chunk_strategy args) (arg_chunk_size args)
    (arg_chunk_overlap args)
    (if decide (py_lower (arg_tokenizer args) = str "none") then None
     else Some (arg_tokenizer args))
    (arg_include args) (arg_exclude args) None (arg_verbose args).

(** ** The pipeline (src/rag_prep/pipeline.py) *)

Section Pipeline.
Variable py_lower : pystr → pystr.
Variable import_tiktoken : result unit.
Variable tiktoken_get_encoding : pystr → result Tokenizer.
Variables py_module py_class custom : Type.
Variable import_module : pystr → result py_module.
Variable getattr : py_module → pystr → result py_class.
Variable construct_kw : py_class → Z → Z → result custom.
Variable construct : py_class → result custom.

(** The tokenizer [prepare_docs] works with, and the lines it prints: the
    one given, or the one of [config.tokenizer_name] when that name is
    neither [None] nor empty. *)
Definition prepare_docs_tokenizer (config : Config)
    (tokenizer : option Tokenizer) : result (option Tokenizer * list pystr) :=
  match tokenizer, tokenizer_name config with
  | None, Some (c :: name') =>
      match get_tokenizer import_tiktoken tiktoken_get_encoding
              (Some (c :: name')) with
      | Ok tk => Ok (tk, [])
      | Raise e =>
          if isinstance e ImportError || isinstance e ValueError then
            Ok (None,
                if verbose config then
                  [str "Warning: Could not load tokenizer '" ++ (c :: name')
                   ++ str "', proceeding without tokenization"]
                else [])
          else Raise e
      end
  | _, _ => Ok (tokenizer, [])
  end.

(** The chunker [prepare_docs] works with: the one given, or the one
    [get_chunker] resolves from the configuration. *)
Definition prepare_docs_chunker (config : Config)
    (chunker_arg : option (chunker custom)) (tokenizer : option Tokenizer)
  : result (chunker custom * list pystr) :=
  '(tokenizer, printed) ← prepare_docs_tokenizer config tokenizer;
  match chunker_arg with
  | Some c => Ok (c, printed)
  | None =>
      c ← get_chunker py_lower import_tiktoken tiktoken_get_encoding
             import_module getattr construct_kw construct
             (chunk_strategy config) (chunk_size config)
             (chunk_overlap config) tokenizer (tokenizer_name config);
      Ok (c, printed)
  end.
End Pipeline.

Arguments prepare_docs_chunker py_lower import_tiktoken tiktoken_get_encoding
  {py_module py_class custom}.

(** ** Directory loading (src/rag_prep/loaders.py) *)

Section ShouldLoad.
(** [fnmatch.fnmatch(name, pattern)] *)
Variable fnmatch : pystr → pystr → bool.

(** The loop over the exclude patterns; [true] when it returned. *)
Fixpoint exclude_loop (patterns : list pystr) (path_str name : pystr) : bool :=
  match patterns with
  | [] => false
  | pattern :: patterns' =>
      if fnmatch path_str pattern || fnmatch name pattern then true
      else exclude_loop patterns' path_str name
  end.

(** The loop over the include patterns; [true] when it returned [True]. *)
Fixpoint include_loop (patterns : list pystr) (path_str name : pystr) : bool :=
  match patterns with
  | [] => false
  | pattern :: patterns' =>
      if fnmatch path_str pattern || fnmatch name pattern then true
      else include_loop patterns' path_str name
  end.

(** [DirectoryLoader(include_patterns, exclude_patterns)._should_load(path)]
    for a path with [str(path) = path_str] and [path.name = name]. *)
Definition should_load (include_patterns exclude_patterns : option (list pystr))
    (path_str name : pystr) : bool :=
  if exclude_loop (default [] exclude_patterns) path_str name then false
  else
    match include_patterns with
    | Some (p :: ps) => include_loop (p :: ps) path_str name
    | _ => true
    end.
End ShouldLoad.

(** The arguments [--chunk-strategy token --tokenizer none] with the other
    defaults of the parser. *)
Definition token_none_args : Args :=
  {| arg_input := str "docs"; arg_output := str "out.jsonl";
     arg_chunk_strategy := str "token"; arg_chunk_size := 1000;
     arg_chunk_overlap := 200; arg_tokenizer := str "None";
     arg_include := None; arg_exclude := None; arg_verbose := false |}.

(** A backend whose import is interrupted. *)
Definition interrupted_import : result unit :=
  Raise (mkExn KeyboardInterrupt []).

(** ** A consumer that mutates metadata while it iterates

    Metadata isolation is about callers of this shape, where [edits[k]]
    lists what the caller does after it has received chunk [k]: for a pair
    [(i, d)] it mutates the metadata dict of chunk [i] in place, so that it
    holds [d].
    <<
      seen = []
      for chunk in chunker.chunk(text, metadata):
          seen.append(chunk)
          for i, d in edits[len(seen) - 1]:
              seen[i].metadata.clear(); seen[i].metadata.update(d)
    >> *)
Definition apply_edit (seen : list Chunk) (h : heap) (e : nat * dict)
  : heap :=
  match seen !! e.1 with
  | Some c => mutate (metadata c) e.2 h
  | None => h
  end.

Section Consumer.
Context {S : Type} (next : S → heap → option (Chunk * S * heap)).
Variable edits : nat → list (nat * dict).

Fixpoint consume (fuel : nat) (seen : list Chunk) (s : S) (h : heap)
  : list Chunk * heap * bool :=
  match fuel with
  | O => ([], h, false)
  | Datatypes.S fuel' =>
      match next s h with
      | None => ([], h, true)
      | Some (c, s', h') =>
          let seen' := seen ++ [c] in
          let h1 := foldl (apply_edit seen') h' (edits (length seen)) in
          let '(cs, h'', fin) := consume fuel' seen' s' h1 in
          (c :: cs, h'', fin)
      end
  end.
End Consumer.

(** The loop above over [c.chunk(text, metadata)], cut after [fuel]
    chunks. *)
Definition chunk_list_edited (c : strategy) (txt : pystr) (md : loc)
    (edits : nat → list (nat * dict)) (fuel : nat) (h : heap)
  : list Chunk * heap * bool :=
  consume (chunk_next c txt md) edits fuel [] (chunk c) h.

(** [c.metadata[key].append(x)], for a value that is a list. *)
Definition append_under (c : Chunk) (key x : pystr) (h : heap) : heap :=
  match deref h (metadata c) !! key with
  | Some (VList r) => list_append r x h
  | _ => h
  end.

(** The items of the list [d[key]]. *)
Definition dict_list (h : heap) (d : dict) (key : pystr)
  : option (list pystr) :=
  match d !! key with
  | Some (VList r) => items <$> list_at h r
  | _ => None
  end.

(** [str()] of a list of strings that hold no quote, no backslash and only
    printable characters: ['name', 'city']. *)
Definition plain_list_str (l : list pystr) : pystr :=
  str "[" ++ py_join (str ", ") (map (λ s, str "'" ++ s ++ str "'") l)
  ++ str "]".

(** The first row of a file [data.csv] with the columns [name] and [city],
    as [CSVLoader.load] yields it: the metadata dict at address 0 refers to
    the list of column names at address 1. *)
Definition csv_text : pystr := str "name: Ada" ++ [10%N] ++ str "city: London".

Definition csv_metadata : dict :=
  <[str "source_id" := VStr (str "data.csv_row_0")]>
    (<[str "source_path" := VStr (str "data.csv")]>
       (<[str "file_type" := VStr (str "csv")]>
          (<[str "file_name" := VStr (str "data.csv")]>
             (<[str "row_index" := VInt 0]>
                (<[str "csv_columns" := VList 1%nat]> ∅))))).

Definition csv_store : heap :=
  [ODict csv_metadata; OList (mkList [str "name"; str "city"] plain_list_str)].

(** Two stores a chunker cannot tell apart: as many objects, the same base
    metadata and the same lists. *)
Definition same_view (md : loc) (h1 h2 : heap) : Prop :=
  length h1 = length h2 ∧ deref h1 md = deref h2 md
  ∧ ∀ r, list_at h1 r = list_at h2 r.

(** Two calls of [next] that do the same: the same chunk, the same
    suspended state, the same dict allocated at the next free address. *)
Definition same_step {G} (h1 h2 : heap)
    (r1 r2 : option (Chunk * G * heap)) : Prop :=
  match r1, r2 with
  | None, None => True
  | Some (c1, g1, h1'), Some (c2, g2, h2') =>
      c1 = c2 ∧ g1 = g2 ∧ metadata c1 = length h1
      ∧ ∃ d, h1' = h1 ++ [ODict d] ∧ h2' = h2 ++ [ODict d]
  | _, _ => False
  end.

(** The store of the plain run and the store of the run of a consumer that
    edits, after the chunks [seen]; [n0] objects existed before the call. *)
Definition edited_view (edits : nat → list (nat * dict)) (n0 : nat)
    (seen : list Chunk) (hp he : heap) : Prop :=
  length hp = (n0 + length seen)%nat
  ∧ length he = length hp
  ∧ (∀ i c, seen !! i = Some c → metadata c = (n0 + i)%nat)
  ∧ (∀ l, (l < n0)%nat → he !! l = hp !! l)
  ∧ (∀ l, (n0 ≤ l)%nat → list_at hp l = None ∧ list_at he l = None)
  ∧ (∀ i, (∀ k d, (i, d) ∉ edits k) →
       he !! (n0 + i)%nat = hp !! (n0 + i)%nat).

(** * Properties *)

(** ** Slices *)

Lemma py_len_nonneg {A} (l : list A) : 0 ≤ py_len l.
Proof. unfold py_len. lia. Qed.

Lemma py_slice_nonneg {A} (l : list A) (a b : Z) :
  0 ≤ a → 0 ≤ b →
  py_slice l a b
  = take (Z.to_nat (Z.min b (py_len l)) - Z.to_nat (Z.min a (py_len l)))
      (drop (Z.to_nat (Z.min a (py_len l))) l).
Proof.
  intros Ha Hb. unfold py_slice, adjust_index.
  destruct (Z.ltb_spec a 0), (Z.ltb_spec b 0); try lia.
  f_equal. pose proof (py_len_nonneg l). lia.
Qed.

Lemma py_slice_all {A} (l : list A) (b : Z) :
  py_len l ≤ b → py_slice l 0 b = l.
Proof.
  intros Hb. pose proof (py_len_nonneg l).
  rewrite py_slice_nonneg by lia.
  rewrite Z.min_r, Z.min_l by lia. simpl. rewrite Nat.sub_0_r.
  apply take_ge. unfold py_len. lia.
Qed.

Lemma py_slice_length {A} (l : list A) (a b : Z) :
  0 ≤ a → 0 ≤ b →
  py_len (py_slice l a b) = Z.max 0 (Z.min b (py_len l) - Z.min a (py_len l)).
Proof.
  intros Ha Hb. rewrite py_slice_nonneg by done.
  unfold py_len. rewrite length_take, length_drop.
  pose proof (py_len_nonneg l). unfold py_len in *. lia.
Qed.

(** Two adjacent slices make one. *)
Lemma py_slice_app {A} (l : list A) (a b c : Z) :
  0 ≤ a → a ≤ b → b ≤ c →
  py_slice l a b ++ py_slice l b c = py_slice l a c.
Proof.
  intros Ha Hab Hbc. rewrite !py_slice_nonneg by lia.
  pose proof (py_len_nonneg l) as Hl.
  set (a' := Z.to_nat (Z.min a (py_len l))).
  set (b' := Z.to_nat (Z.min b (py_len l))).
  set (c' := Z.to_nat (Z.min c (py_len l))).
  assert (a' ≤ b' ≤ c')%nat as [? ?] by (unfold a', b', c'; lia).
  replace (drop b' l) with (drop (b' - a') (drop a' l))
    by (rewrite drop_drop; f_equal; lia).
  replace (c' - a')%nat with ((b' - a') + (c' - b'))%nat by lia.
  by rewrite take_take_drop.
Qed.

(** ** The object store *)

Lemma deref_app_l (h ds : heap) (l : nat) :
  (l < length h)%nat → deref (h ++ ds) l = deref h l.
Proof. intros Hl. unfold deref. by rewrite lookup_app_l. Qed.

Lemma deref_app_r (h : heap) (ds : list dict) (j : nat) d :
  ds !! j = Some d → deref (h ++ (ODict <$> ds)) (length h + j) = d.
Proof.
  intros Hj. unfold deref. rewrite lookup_app_r by lia.
  replace (length h + j - length h)%nat with j by lia.
  by rewrite list_lookup_fmap, Hj.
Qed.

(** Allocating dicts changes no list object. *)
Lemma list_at_app (h : heap) (ds : list dict) (r : nat) :
  list_at (h ++ (ODict <$> ds)) r = list_at h r.
Proof.
  unfold list_at. destruct (decide (r < length h)%nat) as [Hr|Hr].
  - by rewrite lookup_app_l.
  - rewrite lookup_app_r by lia. rewrite (lookup_ge_None_2 h r) by lia.
    rewrite list_lookup_fmap. by destruct (ds !! _).
Qed.

Lemma ODict_fmap_inj (ds ds' : list dict) :
  ODict <$> ds = ODict <$> ds' → ds = ds'.
Proof.
  revert ds'. induction ds as [|d ds IH]; intros [|d' ds']; simpl; try done.
  intros [= -> Heq]. f_equal. by apply IH.
Qed.

Lemma py_str_ext (h1 h2 : heap) v :
  (∀ r, list_at h1 r = list_at h2 r) → py_str h1 v = py_str h2 v.
Proof. intros Hl. destruct v; simpl; try done. by rewrite Hl. Qed.

Lemma indexed_chunk_id_ext (h1 h2 : heap) d idx :
  (∀ r, list_at h1 r = list_at h2 r) →
  indexed_chunk_id h1 d idx = indexed_chunk_id h2 d idx.
Proof.
  intros Hl. unfold indexed_chunk_id.
  by rewrite (py_str_ext h1 h2 _ Hl).
Qed.

Lemma indexed_chunk_id_app (h : heap) (ds : list dict) d idx :
  indexed_chunk_id (h ++ (ODict <$> ds)) d idx = indexed_chunk_id h d idx.
Proof. apply indexed_chunk_id_ext. intros r. apply list_at_app. Qed.

Lemma deref_mutate_ne (h : heap) (l l' : nat) d' :
  l ≠ l' → deref (mutate l d' h) l' = deref h l'.
Proof. intros Hne. unfold deref, mutate. by rewrite list_lookup_insert_ne. Qed.

(** ** Generators *)

Section RunFacts.
Context {S : Type} (next : S → heap
                           → option (Chunk * S * heap)).

(** Once the generator is exhausted, more fuel changes nothing. *)
Lemma run_fuel_mono fuel fuel' s h cs h' :
  run next fuel s h = (cs, h', true) → (fuel ≤ fuel')%nat →
  run next fuel' s h = (cs, h', true).
Proof.
  revert fuel' s h cs h'.
  induction fuel as [|fuel IH]; intros fuel' s h cs h'; simpl; [done|].
  intros Hrun Hle. destruct fuel' as [|fuel']; [lia|]. simpl.
  destruct (next s h) as [[[c s'] h1]|]; [|done].
  destruct (run next fuel s' h1) as [[cs1 h2] fin1] eqn:Hrun1.
  injection Hrun as <- <- ->.
  by rewrite (IH fuel' _ _ _ _ Hrun1) by lia.
Qed.

(** Invariants.  [I k s h] holds of the state [s] and store [h] in which
    the generator is resumed for its [k]-th chunk (counting from 0);
    [Q k c d] relates that chunk to the dict allocated for it. *)
Variable I : nat → S → heap → Prop.
Variable Q : nat → Chunk → dict → Prop.
Hypothesis step_ok : ∀ k s h c s' h',
  I k s h → next s h = Some (c, s', h') →
  ∃ d, h' = h ++ [ODict d] ∧ metadata c = length h ∧ Q k c d ∧ I (Datatypes.S k) s' h'.

Lemma run_invariant fuel k s h cs h' fin :
  I k s h → run next fuel s h = (cs, h', fin) →
  ∃ ds : list dict, h' = h ++ (ODict <$> ds) ∧ length ds = length cs
    ∧ (∀ j c, cs !! j = Some c →
         metadata c = (length h + j)%nat
         ∧ ∃ d, ds !! j = Some d ∧ Q (k + j) c d)
    ∧ (fin = true →
         ∃ s_end, I (k + length cs) s_end h' ∧ next s_end h' = None).
Proof.
  revert k s h cs h' fin.
  induction fuel as [|fuel IH]; intros k s h cs h' fin HI; simpl.
  - intros [= <- <- <-]. exists []. simpl. rewrite app_nil_r.
    split; [done|]. split; [done|]. split; [|done].
    intros j c. by rewrite lookup_nil.
  - destruct (next s h) as [[[c s'] h1]|] eqn:Hnext.
    + destruct (step_ok _ _ _ _ _ _ HI Hnext) as (d & -> & Hloc & HQ & HI').
      destruct (run next fuel s' (h ++ [ODict d])) as [[cs1 h2] fin1] eqn:Hrun.
      intros [= <- <- <-].
      destruct (IH _ _ _ _ _ _ HI' Hrun) as (ds & -> & Hlen & Hcs & Hfin).
      exists (d :: ds). rewrite <- app_assoc. simpl.
      split; [done|]. split; [by rewrite Hlen|]. split.
      * intros [|j] c'; simpl.
        -- intros [= <-]. split; [lia|]. exists d.
           by rewrite Nat.add_0_r.
        -- intros Hj. destruct (Hcs _ _ Hj) as (Hm & d' & Hd' & HQ').
           rewrite length_app in Hm. simpl in Hm. split; [lia|].
           exists d'. split; [done|].
           by replace (k + Datatypes.S j)%nat with (Datatypes.S k + j)%nat by lia.
      * intros Hf. destruct (Hfin Hf) as (s_end & HIe & Hend).
        exists s_end. rewrite <- app_assoc in HIe. simpl in HIe.
        replace (k + Datatypes.S (length cs1))%nat
          with (Datatypes.S k + length cs1)%nat by lia.
        rewrite <- app_assoc in Hend. done.
    + intros [= <- <- <-]. exists []. simpl. rewrite app_nil_r.
      split; [done|]. split; [done|]. split.
      * intros j c. by rewrite lookup_nil.
      * intros _. exists s. simpl. by rewrite Nat.add_0_r.
Qed.
End RunFacts.

Lemma run_lift {G} (inj : G → gen_state) next1 next2 :
  (∀ g h, next2 (inj g) h = lift_next inj (next1 g h)) →
  ∀ fuel g h, run next2 fuel (inj g) h = run next1 fuel g h.
Proof.
  intros Hnext. induction fuel as [|fuel IH]; intros g h; simpl; [done|].
  rewrite Hnext. destruct (next1 g h) as [[[c g'] h']|]; simpl; [|done].
  by rewrite IH.
Qed.

Lemma chunk_list_character size overlap txt md fuel h :
  chunk_list (CharacterChunker size overlap) txt md fuel h
  = run (char_next size overlap txt md) fuel CharStart h.
Proof. unfold chunk_list. simpl. by apply (run_lift GChar). Qed.

Section CharacterFacts.
Variables (size overlap : Z) (txt : pystr) (md : nat).
Variable d0 : dict.

Lemma char_loop_step k start chunk_idx h c s' h' :
  (md < length h)%nat → deref h md = d0 →
  start = Z.of_nat k * (size - overlap) → chunk_idx = Z.of_nat k →
  char_loop size txt md start chunk_idx h = Some (c, s', h') →
  ∃ d, h' = h ++ [ODict d] ∧ metadata c = length h ∧ char_post size overlap txt d0 k c d
       ∧ char_inv size overlap md d0 (Datatypes.S k) s' h'.
Proof.
  intros Hmd Hd0 -> ->. unfold char_loop.
  destruct (Z.ltb_spec (Z.of_nat k * (size - overlap)) (py_len txt)); [|done].
  unfold alloc. intros [= <- <- <-]. eexists. split; [done|].
  split; [done|]. split.
  - rewrite Hd0. by repeat split.
  - split; [rewrite length_app; simpl; lia|].
    split; [by rewrite deref_app_l|].
    split; [lia|]. split; f_equal; lia.
Qed.

Lemma char_step_ok k s h c s' h' :
  char_inv size overlap md d0 k s h → char_next size overlap txt md s h = Some (c, s', h') →
  ∃ d, h' = h ++ [ODict d] ∧ metadata c = length h ∧ char_post size overlap txt d0 k c d
       ∧ char_inv size overlap md d0 (Datatypes.S k) s' h'.
Proof.
  intros (Hmd & Hd0 & Hs). destruct s as [|start chunk_idx]; simpl.
  - subst k. destruct txt eqn:Htxt; [done|]. rewrite <- Htxt.
    by apply char_loop_step.
  - destruct Hs as (Hk & -> & ->).
    destruct (Z.geb_spec ((Z.of_nat k - 1) * (size - overlap) + size - overlap) (py_len txt));
      [done|].
    apply char_loop_step; try done; lia.
Qed.

(** When the generator returns, the windows have reached the end. *)
Lemma char_end k s h :
  char_inv size overlap md d0 k s h → char_next size overlap txt md s h = None →
  py_len txt ≤ Z.of_nat k * (size - overlap).
Proof.
  intros (Hmd & Hd0 & Hs). destruct s as [|start chunk_idx]; simpl.
  - subst k. destruct txt; [done|]. unfold char_loop.
    by destruct (Z.ltb_spec 0 (py_len (n :: l))).
  - destruct Hs as (Hk & -> & ->).
    destruct (Z.geb_spec ((Z.of_nat k - 1) * (size - overlap) + size - overlap) (py_len txt));
      [lia|].
    unfold char_loop.
    destruct (Z.ltb_spec ((Z.of_nat k - 1) * (size - overlap) + size - overlap) (py_len txt));
      [done|lia].
Qed.

(** With [overlap < size] the cursor advances and the loop ends. *)
Lemma char_run_exhausts fuel start chunk_idx h :
  0 < (size - overlap) → py_len txt - start ≤ Z.of_nat fuel → (1 ≤ fuel)%nat →
  (run (char_next size overlap txt md) fuel (CharYielded start chunk_idx) h).2
  = true.
Proof.
  intros Hstep. revert start chunk_idx h.
  induction fuel as [|fuel IH]; intros start chunk_idx h Hfuel Hpos; [lia|].
  simpl.
  destruct (Z.geb_spec (start + size - overlap) (py_len txt)); [done|].
  unfold char_loop.
  destruct (Z.ltb_spec (start + size - overlap) (py_len txt)); [|done].
  unfold alloc.
  specialize (IH (start + size - overlap) (chunk_idx + 1)
                (h ++ [ODict (<[str "end_char":=VInt (Z.min (start + size - overlap + size) (py_len txt))]>
                   (<[str "start_char":=VInt (start + size - overlap)]>
                      (<[str "chunk_index":=VInt (chunk_idx + 1)]> (deref h md))))])).
  destruct (run _ fuel _ _) as [[cs h2] fin]. simpl in *.
  apply IH; lia.
Qed.

Lemma char_start_exhausts fuel h :
  0 < (size - overlap) → (length txt < fuel)%nat →
  (run (char_next size overlap txt md) fuel CharStart h).2 = true.
Proof.
  intros Hstep Hfuel. destruct fuel as [|fuel]; [lia|]. simpl.
  destruct txt as [|c0 t] eqn:Htxt; [done|].
  assert (1 ≤ fuel)%nat as Hpos by (simpl in Hfuel; lia).
  rewrite <- Htxt in *.
  unfold char_loop. destruct (Z.ltb_spec 0 (py_len txt)); [|done].
  unfold alloc.
  pose proof (char_run_exhausts fuel 0 0
    (h ++ [ODict (<[str "end_char":=VInt (Z.min (0 + size) (py_len txt))]>
             (<[str "start_char":=VInt 0]>
                (<[str "chunk_index":=VInt 0]> (deref h md))))]) Hstep) as Hex.
  destruct (run _ fuel _ _) as [[cs h2] fin]. simpl in *.
  apply Hex; unfold py_len in *; lia.
Qed.
End CharacterFacts.

Lemma py_slice_from_slice {A} (l : list A) (a o b : Z) :
  0 ≤ a → 0 ≤ o → a + o ≤ b →
  py_slice_from (py_slice l a b) o = py_slice l (a + o) b.
Proof.
  intros Ha Ho Hb. unfold py_slice_from.
  rewrite py_slice_length by lia. rewrite !py_slice_nonneg by lia.
  pose proof (py_len_nonneg l) as Hl. unfold adjust_index.
  destruct (Z.ltb_spec o 0); [lia|].
  rewrite skipn_firstn_comm, drop_drop. f_equal; [lia|]. f_equal. lia.
Qed.

Lemma py_slice_empty {A} (l : list A) (a : Z) : 0 ≤ a → py_slice l a a = [].
Proof. intros Ha. rewrite py_slice_nonneg by lia. by rewrite Nat.sub_diag. Qed.

Lemma char_dict_start size txt d0 start chunk_idx :
  char_dict size txt d0 start chunk_idx !! str "start_char" = Some (VInt start).
Proof.
  unfold char_dict. rewrite lookup_insert_ne by (by vm_compute).
  by rewrite lookup_insert_eq.
Qed.

Lemma char_dict_end size txt d0 start chunk_idx :
  char_dict size txt d0 start chunk_idx !! str "end_char"
  = Some (VInt (Z.min (start + size) (py_len txt))).
Proof. unfold char_dict. by rewrite lookup_insert_eq. Qed.

Lemma char_dict_index size txt d0 start chunk_idx :
  char_dict size txt d0 start chunk_idx !! str "chunk_index"
  = Some (VInt chunk_idx).
Proof.
  unfold char_dict. rewrite !lookup_insert_ne by (by vm_compute).
  by rewrite lookup_insert_eq.
Qed.

(** The complete output of the character chunker. *)
Lemma character_chunks size overlap txt md h :
  0 ≤ overlap < size → (md < length h)%nat →
  ∃ cs ds,
    (∀ fuel, (length txt < fuel)%nat →
       chunk_list (CharacterChunker size overlap) txt md fuel h
       = (cs, h ++ ds, true))
    ∧ py_len txt ≤ Z.of_nat (length cs) * (size - overlap)
    ∧ ∀ j c, cs !! j = Some c →
        Z.of_nat j * (size - overlap) < py_len txt
        ∧ text c = py_slice txt (Z.of_nat j * (size - overlap))
                     (Z.of_nat j * (size - overlap) + size)
        ∧ metadata c = (length h + j)%nat
        ∧ deref (h ++ ds) (metadata c)
          = char_dict size txt (deref h md)
              (Z.of_nat j * (size - overlap)) (Z.of_nat j).
Proof.
  intros Hov Hmd.
  destruct (run (char_next size overlap txt md) (Datatypes.S (length txt))
              CharStart h) as [[cs h'] fin] eqn:Hrun.
  pose proof (char_start_exhausts size overlap txt md
                (Datatypes.S (length txt)) h ltac:(lia) ltac:(lia)) as Hfin.
  rewrite Hrun in Hfin. simpl in Hfin. subst fin.
  assert (char_inv size overlap md (deref h md) 0 CharStart h) as Hinv
    by done.
  destruct (run_invariant _ _ _
              (char_step_ok size overlap txt md (deref h md))
              _ _ _ _ _ _ _ Hinv Hrun)
    as (ds & -> & Hlen & Hcs & Hend).
  exists cs, (ODict <$> ds). split; [|split].
  - intros fuel Hfuel. rewrite chunk_list_character.
    eapply run_fuel_mono; [exact Hrun|lia].
  - destruct (Hend eq_refl) as (s_end & HI & Hnone).
    by apply (char_end _ _ _ _ _ _ _ _ HI) in Hnone.
  - intros j c Hj. destruct (Hcs _ _ Hj) as (Hloc & d & Hd & H1 & H2 & H4).
    simpl in *. repeat split; try done.
    rewrite Hloc. subst d. by apply deref_app_r.
Qed.

Section Reconstruct.
Variables (size overlap : Z) (txt : pystr).
Hypothesis Hov : 0 ≤ overlap < size.

Lemma reconstruct_tail (cs : list Chunk) (k0 : nat) :
  (1 ≤ k0)%nat →
  (∀ j c, cs !! j = Some c →
     text c = py_slice txt (Z.of_nat (k0 + j) * (size - overlap))
                (Z.of_nat (k0 + j) * (size - overlap) + size)) →
  concat (map (λ c', py_slice_from (text c') overlap) cs)
  = py_slice txt (Z.of_nat k0 * (size - overlap) + overlap)
      (Z.of_nat (k0 + length cs) * (size - overlap) + overlap).
Proof.
  revert k0. induction cs as [|c cs IH]; intros k0 Hk0 Htext; simpl.
  - rewrite Nat.add_0_r. symmetry. apply py_slice_empty. nia.
  - rewrite (Htext 0%nat c eq_refl), Nat.add_0_r.
    rewrite py_slice_from_slice by nia.
    rewrite (IH (Datatypes.S k0)) by
      (try lia; intros j c' Hj;
       rewrite (Htext (Datatypes.S j) c' Hj); do 3 f_equal; lia).
    replace (Z.of_nat k0 * (size - overlap) + size)
      with (Z.of_nat (Datatypes.S k0) * (size - overlap) + overlap) by lia.
    replace (Datatypes.S k0 + length cs)%nat
      with (k0 + Datatypes.S (length cs))%nat by lia.
    apply py_slice_app; nia.
Qed.

Lemma reconstruct_all (cs : list Chunk) :
  py_len txt ≤ Z.of_nat (length cs) * (size - overlap) →
  (∀ j c, cs !! j = Some c →
     text c = py_slice txt (Z.of_nat j * (size - overlap))
                (Z.of_nat j * (size - overlap) + size)) →
  reconstruct overlap cs = txt.
Proof.
  intros Hend Htext. destruct cs as [|c cs]; simpl in *.
  - pose proof (py_len_nonneg txt). destruct txt; [done|].
    unfold py_len in *. simpl in *. lia.
  - rewrite (Htext 0%nat c eq_refl). simpl.
    rewrite (reconstruct_tail cs 1) by
      (try lia; intros j c' Hj; by rewrite (Htext (Datatypes.S j) c' Hj)).
    replace (Z.of_nat 1 * (size - overlap) + overlap) with size by lia.
    rewrite py_slice_app by nia. apply py_slice_all. lia.
Qed.
End Reconstruct.

(** Any prefix of the output of the character chunker. *)
Lemma character_prefix size overlap txt md fuel h cs h' fin :
  (md < length h)%nat →
  chunk_list (CharacterChunker size overlap) txt md fuel h = (cs, h', fin) →
  ∀ j c, cs !! j = Some c →
    Z.of_nat j * (size - overlap) < py_len txt
    ∧ text c = py_slice txt (Z.of_nat j * (size - overlap))
                 (Z.of_nat j * (size - overlap) + size)
    ∧ metadata c = (length h + j)%nat
    ∧ deref h' (metadata c)
      = char_dict size txt (deref h md)
          (Z.of_nat j * (size - overlap)) (Z.of_nat j).
Proof.
  intros Hmd Hrun. rewrite chunk_list_character in Hrun.
  assert (char_inv size overlap md (deref h md) 0 CharStart h) as Hinv
    by done.
  destruct (run_invariant _ _ _
              (char_step_ok size overlap txt md (deref h md))
              _ _ _ _ _ _ _ Hinv Hrun)
    as (ds & -> & Hlen & Hcs & Hend).
  intros j c Hj. destruct (Hcs _ _ Hj) as (Hloc & d & Hd & H1 & H2 & H4).
  simpl in *. repeat split; try done.
  rewrite Hloc. subst d. by apply deref_app_r.
Qed.

Lemma meta_int_char h c size txt d0 start chunk_idx :
  deref h (metadata c) = char_dict size txt d0 start chunk_idx →
  meta_int h c (str "start_char") = Some start
  ∧ meta_int h c (str "end_char") = Some (Z.min (start + size) (py_len txt))
  ∧ meta_int h c (str "chunk_index") = Some chunk_idx.
Proof.
  intros Hd. unfold meta_int. rewrite Hd.
  by rewrite char_dict_start, char_dict_end, char_dict_index.
Qed.

(** C1.  For a non-empty text and [0 <= overlap < size], the character
    chunker terminates and its chunks cover the text from left to right:
    chunk [i] is [text[i*(size-overlap) : i*(size-overlap)+size]], every
    position of the text lies in the interval [[start_char, end_char)] of
    some chunk, and chunk 0 followed by the other chunks without their first
    [overlap] characters is the text. *)
Theorem character_chunker_covers_text size overlap txt md h :
  txt ≠ [] → 0 ≤ overlap < size → (md < length h)%nat →
  ∃ cs h',
    (∀ fuel, (length txt < fuel)%nat →
       chunk_list (CharacterChunker size overlap) txt md fuel h
       = (cs, h', true))
    ∧ (∀ i c, cs !! i = Some c →
         text c = py_slice txt (Z.of_nat i * (size - overlap))
                    (Z.of_nat i * (size - overlap) + size))
    ∧ (∀ p, 0 ≤ p < py_len txt → covered h' cs p)
    ∧ reconstruct overlap cs = txt.
Proof.
  intros Hne Hov Hmd.
  destruct (character_chunks size overlap txt md h Hov Hmd)
    as (cs & ds & Hrun & Hend & Hcs).
  exists cs, (h ++ ds). split; [done|]. split; [|split].
  - intros i c Hi. by destruct (Hcs _ _ Hi) as (_ & ? & _).
  - intros p Hp. set (k := p / (size - overlap)).
    assert (0 < size - overlap) as Hstep by lia.
    pose proof (Z.mul_div_le p _ Hstep) as Hlo.
    pose proof (Z.mul_succ_div_gt p _ Hstep) as Hhi.
    assert (0 ≤ k) as Hk by (apply Z.div_pos; lia).
    assert (Z.to_nat k < length cs)%nat as Hlt by (fold k in Hlo; nia).
    destruct (lookup_lt_is_Some_2 _ _ Hlt) as [c Hc].
    destruct (Hcs _ _ Hc) as (_ & _ & _ & Hd).
    destruct (meta_int_char _ _ _ _ _ _ _ Hd) as (Hs & He & _).
    exists c, (Z.of_nat (Z.to_nat k) * (size - overlap)),
      (Z.min (Z.of_nat (Z.to_nat k) * (size - overlap) + size) (py_len txt)).
    split; [by eapply list_elem_of_lookup_2|]. split; [done|]. split; [done|].
    rewrite Z2Nat.id by done. fold k in Hlo, Hhi. lia.
  - apply (reconstruct_all size); [done..|].
    intros j c Hj. by destruct (Hcs _ _ Hj) as (_ & ? & _).
Qed.

Lemma character_chunker_covers_text_witness :
  ∃ cs h',
    (∀ fuel, (length (str "012345678") < fuel)%nat →
       chunk_list (CharacterChunker 5 3) (str "012345678") 0%nat fuel
         [ODict test_metadata]
       = (cs, h', true))
    ∧ (∀ i c, cs !! i = Some c →
         text c = py_slice (str "012345678") (Z.of_nat i * (5 - 3))
                    (Z.of_nat i * (5 - 3) + 5))
    ∧ (∀ p, 0 ≤ p < py_len (str "012345678") → covered h' cs p)
    ∧ reconstruct 3 cs = str "012345678".
Proof.
  apply (character_chunker_covers_text 5 3 (str "012345678") 0%nat
           [ODict test_metadata]); [done | lia | simpl; lia].
Defined.

(** C5.  For every text and [0 <= overlap < size] with [size > 0], the loop
    of the character chunker ends: a fuel above the length of the text
    always exhausts the generator, and the empty text gives no chunk. *)
Theorem character_chunker_terminates size overlap txt md h :
  0 < size → 0 ≤ overlap < size →
  ∃ cs h',
    (∀ fuel, (length txt < fuel)%nat →
       chunk_list (CharacterChunker size overlap) txt md fuel h
       = (cs, h', true))
    ∧ (txt = [] → cs = []).
Proof.
  intros Hsize Hov.
  destruct (run (char_next size overlap txt md) (Datatypes.S (length txt))
              CharStart h) as [[cs h'] fin] eqn:Hrun.
  pose proof (char_start_exhausts size overlap txt md
                (Datatypes.S (length txt)) h ltac:(lia) ltac:(lia)) as Hfin.
  rewrite Hrun in Hfin. simpl in Hfin. subst fin.
  exists cs, h'. split.
  - intros fuel Hfuel. rewrite chunk_list_character.
    eapply run_fuel_mono; [exact Hrun|lia].
  - intros ->. simpl in Hrun. by injection Hrun as <- _.
Qed.

Lemma character_chunker_terminates_witness :
  ∃ cs h',
    (∀ fuel, (length (str "Test text") < fuel)%nat →
       chunk_list (CharacterChunker 5 1) (str "Test text") 0%nat fuel
         [ODict test_metadata]
       = (cs, h', true))
    ∧ (str "Test text" = [] → cs = []).
Proof.
  apply (character_chunker_terminates 5 1 (str "Test text") 0%nat
           [ODict test_metadata]); lia.
Defined.

(** C10.  With [size > 0] and [0 <= overlap < size], every chunk the
    character chunker emits records offsets that locate its text:
    [text[start_char:end_char]] is the text of the chunk,
    [0 <= start_char < end_char <= len(text)] and
    [end_char - start_char <= size], so the chunk is not empty and has at
    most [size] characters. *)
Theorem character_chunk_offsets size overlap txt md fuel h cs h' fin :
  0 < size → 0 ≤ overlap < size → (md < length h)%nat →
  chunk_list (CharacterChunker size overlap) txt md fuel h = (cs, h', fin) →
  ∀ c, c ∈ cs →
    ∃ s e, meta_int h' c (str "start_char") = Some s
      ∧ meta_int h' c (str "end_char") = Some e
      ∧ py_slice txt s e = text c
      ∧ 0 ≤ s < e ∧ e ≤ py_len txt ∧ e - s ≤ size
      ∧ text c ≠ [] ∧ py_len (text c) ≤ size.
Proof.
  intros Hsize Hov Hmd Hrun c Hc.
  apply list_elem_of_lookup_1 in Hc as [j Hj].
  destruct (character_prefix _ _ _ _ _ _ _ _ _ Hmd Hrun _ _ Hj)
    as (Hlt & Htext & _ & Hd).
  destruct (meta_int_char _ _ _ _ _ _ _ Hd) as (Hs & He & _).
  set (s := Z.of_nat j * (size - overlap)) in *.
  assert (0 ≤ s) as Hs0 by (unfold s; nia).
  pose proof (py_len_nonneg txt) as Hl.
  assert (py_len (text c) = Z.min (s + size) (py_len txt) - s) as Hlen
    by (rewrite Htext, py_slice_length by lia; lia).
  exists s, (Z.min (s + size) (py_len txt)).
  split; [done|]. split; [done|]. split.
  - rewrite Htext, !py_slice_nonneg by lia. do 3 f_equal; lia.
  - split; [lia|]. split; [lia|]. split; [lia|]. split; [|lia].
    intros Hnil. rewrite Hnil in Hlen. unfold py_len in Hlen at 1.
    simpl in Hlen. lia.
Qed.

Lemma character_chunk_offsets_witness :
  Forall (λ c, ∃ s e,
            meta_int test_chunks.1.2 c (str "start_char") = Some s
            ∧ meta_int test_chunks.1.2 c (str "end_char") = Some e
            ∧ py_slice (str "Test text for chunking") s e = text c
            ∧ 0 ≤ s < e ∧ e ≤ py_len (str "Test text for chunking")
            ∧ e - s ≤ 10
            ∧ text c ≠ [] ∧ py_len (text c) ≤ 10)
    test_chunks.1.1.
Proof.
  apply Forall_forall.
  apply (character_chunk_offsets 10 2 (str "Test text for chunking") 0%nat 5
           [ODict test_metadata] _ _ test_chunks.2); [lia | lia | simpl; lia |].
  unfold test_chunks. by destruct (chunk_list _ _ _ _ _) as [[cs h'] fin].
Defined.

(** C2.  The text "Short text" is shorter than [size = 100], and with
    [overlap = 95] the character chunker yields two chunks, the full text
    and then its last five characters: the loop goes on after the chunk
    that reached the end of the text. *)
Example small_text_second_chunk :
  (chunk_list (CharacterChunker 100 95) (str "Short text") 0%nat 5
     [ODict test_metadata]).2 = true
  ∧ map text (chunk_list (CharacterChunker 100 95) (str "Short text") 0%nat 5
                [ODict test_metadata]).1.1
    = [str "Short text"; str " text"].
Proof. by vm_compute. Qed.

(** What does hold: a text no longer than the step [size - overlap] gives
    one chunk. *)
Lemma character_single_chunk size overlap txt md h :
  txt ≠ [] → 0 ≤ overlap → py_len txt ≤ size - overlap →
  ∃ c h', text c = txt
    ∧ ∀ fuel, (2 ≤ fuel)%nat →
        chunk_list (CharacterChunker size overlap) txt md fuel h
        = ([c], h', true).
Proof.
  intros Hne Hov Hlen. eexists _, _. split; last first.
  - intros fuel Hfuel. rewrite chunk_list_character.
    apply (run_fuel_mono _ 2); [|done]. simpl.
    destruct txt as [|c0 t] eqn:Htxt; [done|]. rewrite <- Htxt in *.
    unfold char_loop.
    destruct (Z.ltb_spec 0 (py_len txt));
      [|subst txt; unfold py_len in *; simpl in *; lia].
    unfold alloc. cbn [run char_next].
    destruct (Z.geb_spec (0 + size - overlap) (py_len txt)); [|lia].
    reflexivity.
  - simpl. apply py_slice_all. lia.
Qed.

(** ** The token chunker without a tokenizer *)

Lemma tok_fallback_run size overlap txt md fuel g h :
  run (tok_next size overlap None txt md) fuel (TokFallback g) h
  = run (char_next size overlap txt md) fuel g h.
Proof.
  revert g h. induction fuel as [|fuel IH]; intros g h; simpl; [done|].
  unfold tok_delegate.
  destruct (char_next size overlap txt md g h) as [[[c g'] h']|]; [|done].
  by rewrite IH.
Qed.

Lemma tok_start_run size overlap txt md fuel h :
  run (tok_next size overlap None txt md) fuel TokStart h
  = run (char_next size overlap txt md) fuel CharStart h.
Proof.
  destruct fuel as [|fuel]; [done|].
  change (run (tok_next size overlap None txt md) (Datatypes.S fuel) TokStart h)
    with (match tok_next size overlap None txt md TokStart h with
          | None => ([], h, true)
          | Some (c, s', h') =>
              let '(cs, h'', fin) :=
                run (tok_next size overlap None txt md) fuel s' h' in
              (c :: cs, h'', fin)
          end).
  assert (tok_next size overlap None txt md TokStart h
          = tok_delegate size overlap txt md CharStart h) as ->
    by (by destruct txt).
  unfold tok_delegate. cbn [run].
  destruct (char_next size overlap txt md CharStart h) as [[[c g'] h']|];
    [|done].
  by rewrite tok_fallback_run.
Qed.

Lemma chunk_list_token size overlap tokenizer txt md fuel h :
  chunk_list (TokenChunker size overlap tokenizer) txt md fuel h
  = run (tok_next size overlap tokenizer txt md) fuel TokStart h.
Proof. unfold chunk_list. simpl. by apply (run_lift GTok). Qed.

(** A backend that fails makes [get_tokenizer] raise one of the two errors
    the token chunker catches. *)
Lemma get_tokenizer_unavailable import_tiktoken tiktoken_get_encoding name :
  backend_unavailable import_tiktoken tiktoken_get_encoding name →
  ∃ e, get_tokenizer import_tiktoken tiktoken_get_encoding (Some name) = Raise e
       ∧ (isinstance e ImportError || isinstance e ValueError) = true.
Proof.
  intros (e & He & Hfail). unfold get_tokenizer.
  assert ((import_tiktoken ;;
           encoding ← tiktoken_get_encoding name;
           Ok (Some (TiktokenWrapper encoding))) = Raise e) as ->.
  { destruct Hfail as [->|[-> ->]]; done. }
  rewrite He. destruct (isinstance e ImportError); eexists; split; done.
Qed.

(** C3.  When the tokenizer name is [None] or the backend cannot load the
    encoding, the token chunker is built without a tokenizer; without a
    tokenizer its chunks are, for every text and metadata, those of the
    character chunker with the same [size] and [overlap], and a non-empty
    text gives at least one chunk. *)
Theorem token_chunker_fallback import_tiktoken tiktoken_get_encoding
    size overlap tokenizer_name txt md :
  tokenizer_name = None
  ∨ (∃ name, tokenizer_name = Some name
       ∧ backend_unavailable import_tiktoken tiktoken_get_encoding name) →
  TokenChunker_init import_tiktoken tiktoken_get_encoding size overlap None
    tokenizer_name = Ok (TokenChunker size overlap None)
  ∧ (∀ fuel h,
       chunk_list (TokenChunker size overlap None) txt md fuel h
       = chunk_list (CharacterChunker size overlap) txt md fuel h)
  ∧ (txt ≠ [] → ∀ fuel h, ∃ c cs h' fin,
       chunk_list (TokenChunker size overlap None) txt md
         (Datatypes.S fuel) h = (c :: cs, h', fin)).
Proof.
  intros Hno. split; [|split].
  - unfold TokenChunker_init. destruct Hno as [->|(name & -> & Hfail)]; [done|].
    destruct (get_tokenizer_unavailable _ _ _ Hfail) as (e & -> & ->). done.
  - intros fuel h.
    by rewrite chunk_list_token, chunk_list_character, tok_start_run.
  - intros Hne fuel h.
    rewrite chunk_list_token, tok_start_run. simpl.
    destruct txt as [|c0 t] eqn:Htxt; [done|]. rewrite <- Htxt.
    unfold char_loop.
    destruct (Z.ltb_spec 0 (py_len txt));
      [|subst txt; unfold py_len in *; simpl in *; lia].
    unfold alloc. destruct (run _ fuel _ _) as [[cs h'] fin]. by eexists _, _, _, _.
Qed.

Lemma token_chunker_fallback_witness :
  TokenChunker_init (Ok ()) unknown_encoding 5 1 None
    (Some (str "invalid_tokenizer_name_xyz")) = Ok (TokenChunker 5 1 None)
  ∧ (∀ fuel h,
       chunk_list (TokenChunker 5 1 None) (str "Test text") 0%nat fuel h
       = chunk_list (CharacterChunker 5 1) (str "Test text") 0%nat fuel h)
  ∧ (str "Test text" ≠ [] → ∀ fuel h, ∃ c cs h' fin,
       chunk_list (TokenChunker 5 1 None) (str "Test text") 0%nat
         (Datatypes.S fuel) h = (c :: cs, h', fin)).
Proof.
  apply (token_chunker_fallback (Ok ()) unknown_encoding 5 1
           (Some (str "invalid_tokenizer_name_xyz")) (str "Test text") 0%nat).
  right. exists (str "invalid_tokenizer_name_xyz"). split; [reflexivity|].
  exists (mkExn ValueError
            (str "Unknown encoding " ++ str "invalid_tokenizer_name_xyz")).
  split; [reflexivity|]. right. split; reflexivity.
Defined.

(** C9.  The pass-through chunker yields one chunk: its text is the input,
    its metadata is a new dict with the contents of the base metadata, and
    its id is the [source_id] of the metadata, or ["doc"] when there is
    none. *)
Theorem no_chunker_passes_through txt md h :
  (md < length h)%nat →
  ∃ c h',
    (∀ fuel, (2 ≤ fuel)%nat →
       chunk_list NoChunker txt md fuel h = ([c], h', true))
    ∧ text c = txt
    ∧ metadata c ≠ md
    ∧ h !! metadata c = None
    ∧ deref h' (metadata c) = deref h md
    ∧ deref h' md = deref h md
    ∧ chunk_id c = match deref h md !! str "source_id" with
                   | Some v => v
                   | None => VStr (str "doc")
                   end.
Proof.
  intros Hmd. eexists _, _. split.
  - intros fuel Hfuel. unfold chunk_list.
    apply (run_fuel_mono _ 2); [|done]. reflexivity.
  - simpl. split; [done|]. split; [lia|].
    split; [by apply lookup_ge_None_2|].
    split; [|split; [by apply deref_app_l|done]].
    replace (length h) with (length h + 0)%nat at 1 by lia.
    by apply (deref_app_r h [deref h md] 0).
Qed.

Lemma no_chunker_passes_through_witness :
  ∃ c h',
    (∀ fuel, (2 ≤ fuel)%nat →
       chunk_list NoChunker
         (str "This is a complete document that should not be chunked.")
         0%nat fuel [ODict test_metadata] = ([c], h', true))
    ∧ text c = str "This is a complete document that should not be chunked."
    ∧ metadata c ≠ 0%nat
    ∧ [ODict test_metadata] !! metadata c = None
    ∧ deref h' (metadata c) = deref [ODict test_metadata] 0%nat
    ∧ deref h' 0%nat = deref [ODict test_metadata] 0%nat
    ∧ chunk_id c = match deref [ODict test_metadata] 0%nat !! str "source_id" with
                   | Some v => v
                   | None => VStr (str "doc")
                   end.
Proof.
  apply (no_chunker_passes_through
           (str "This is a complete document that should not be chunked.")
           0%nat [ODict test_metadata]).
  simpl. lia.
Defined.

(** ** Chunk indices and allocation, for every strategy *)

Lemma char_loop_index size txt md start chunk_idx h c g' h' :
  char_loop size txt md start chunk_idx h = Some (c, g', h') →
  yields_index chunk_idx h h' c ∧ g' = CharYielded start chunk_idx.
Proof.
  unfold char_loop. destruct (start <? py_len txt); [|done].
  unfold alloc. intros [= <- <- <-]. split; [|done].
  eexists. split; [done|]. split; [done|].
  rewrite !lookup_insert_ne by (by vm_compute). by rewrite lookup_insert_eq.
Qed.

Lemma char_next_index size overlap txt md k g h c g' h' :
  char_counts k g →
  char_next size overlap txt md g h = Some (c, g', h') →
  yields_index (Z.of_nat k) h h' c ∧ char_counts (Datatypes.S k) g'.
Proof.
  intros Hk. destruct g as [|start chunk_idx]; simpl in *.
  - subst k. destruct txt; [done|].
    intros [Hy ->]%char_loop_index. split; [done|]. simpl. lia.
  - subst chunk_idx. destruct (_ >=? _); [done|].
    intros [Hy ->]%char_loop_index.
    replace (Z.of_nat k - 1 + 1) with (Z.of_nat k) in * by lia.
    split; [done|]. simpl. lia.
Qed.

Lemma tok_loop_index size md tk tokens start chunk_idx h c g' h' :
  tok_loop size md tk tokens start chunk_idx h = Some (c, g', h') →
  yields_index chunk_idx h h' c ∧ g' = TokYielded tokens start chunk_idx.
Proof.
  unfold tok_loop. destruct (start <? py_len tokens); [|done].
  unfold alloc. intros [= <- <- <-]. split; [|done].
  eexists. split; [done|]. split; [done|].
  rewrite !lookup_insert_ne by (by vm_compute). by rewrite lookup_insert_eq.
Qed.

Lemma tok_next_index size overlap tokenizer txt md k g h c g' h' :
  counts k (GTok g) →
  tok_next size overlap tokenizer txt md g h = Some (c, g', h') →
  yields_index (Z.of_nat k) h h' c ∧ counts (Datatypes.S k) (GTok g').
Proof.
  assert (∀ g0, char_counts k g0 →
            tok_delegate size overlap txt md g0 h = Some (c, g', h') →
            yields_index (Z.of_nat k) h h' c
            ∧ counts (Datatypes.S k) (GTok g')) as Hdel.
  { intros g0 Hg0. unfold tok_delegate.
    destruct (char_next size overlap txt md g0 h) as [[[c1 g1] h1]|] eqn:Hn;
      [|done].
    intros [= -> <- ->]. by apply (char_next_index _ _ _ _ _ _ _ _ _ _ Hg0 Hn). }
  intros Hk. destruct g as [|g|tokens start chunk_idx]; simpl in Hk |- *.
  - subst k. destruct txt as [|c0 t], tokenizer as [tk|];
      try (by apply Hdel).
    destruct (encode tk (c0 :: t)) as [|t0 ts]; [done|].
    intros [Hy ->]%tok_loop_index. split; [done|]. simpl. lia.
  - by apply Hdel.
  - subst chunk_idx. destruct tokenizer as [tk|]; [|done].
    destruct (_ >=? _); [done|].
    intros [Hy ->]%tok_loop_index.
    replace (Z.of_nat k - 1 + 1) with (Z.of_nat k) in * by lia.
    split; [done|]. simpl. lia.
Qed.

Lemma sent_emit_index md current_chunk chunk_idx s' h c g' h' :
  sent_emit md current_chunk chunk_idx s' h = (c, g', h') →
  yields_index chunk_idx h h' c ∧ g' = s'
  ∧ text c = py_join (str " ") current_chunk.
Proof.
  unfold sent_emit, alloc. intros [= <- <- <-]. split; [|done].
  eexists. split; [done|]. split; [done|]. by rewrite lookup_insert_eq.
Qed.

Lemma sent_loop_index size md sentences current_chunk current_size chunk_idx
    overlap_sentences h c g' h' :
  sent_loop size md sentences current_chunk current_size chunk_idx
    overlap_sentences h = Some (c, g', h') →
  yields_index chunk_idx h h' c
  ∧ (g' = SentFinal
     ∨ ∃ sentence rest current_chunk',
         g' = SentFlushed sentence rest current_chunk' chunk_idx).
Proof.
  revert current_chunk current_size.
  induction sentences as [|sentence rest IH];
    intros current_chunk current_size; cbn [sent_loop].
  - destruct current_chunk; [done|].
    intros (Hy & -> & _)%(inj Some)%sent_emit_index. split; [done|]. by left.
  - destruct (_ <=? _); [apply IH|].
    destruct current_chunk; [apply IH|].
    intros (Hy & -> & _)%(inj Some)%sent_emit_index. split; [done|].
    right. by eexists _, _, _.
Qed.

Lemma sent_next_index size overlap txt md k g h c g' h' :
  counts k (GSent g) →
  sent_next size overlap txt md g h = Some (c, g', h') →
  yields_index (Z.of_nat k) h h' c ∧ counts (Datatypes.S k) (GSent g').
Proof.
  assert (∀ g0, char_counts k g0 →
            match char_next size overlap txt md g0 h with
            | Some (c, g', h') => Some (c, SentFallback g', h')
            | None => None
            end = Some (c, g', h') →
            yields_index (Z.of_nat k) h h' c
            ∧ counts (Datatypes.S k) (GSent g')) as Hdel.
  { intros g0 Hg0.
    destruct (char_next size overlap txt md g0 h) as [[[c1 g1] h1]|] eqn:Hn;
      [|done].
    intros [= -> <- ->]. by apply (char_next_index _ _ _ _ _ _ _ _ _ _ Hg0 Hn). }
  assert (∀ sentences cur csz ov,
            sent_loop size md sentences cur csz (Z.of_nat k) ov h
            = Some (c, g', h') →
            yields_index (Z.of_nat k) h h' c
            ∧ counts (Datatypes.S k) (GSent g')) as Hloop.
  { intros sentences cur csz ov [Hy Hg]%sent_loop_index. split; [done|].
    destruct Hg as [->|(? & ? & ? & ->)]; simpl; [done|lia]. }
  intros Hk. destruct g as [|g|sentence rest current_chunk chunk_idx|];
    simpl in Hk |- *; [| |subst chunk_idx|done].
  - subst k. destruct txt as [|c0 t]; [done|].
    destruct (split_sentences (c0 :: t)); [by apply (Hdel CharStart)|apply Hloop].
  - by apply Hdel.
  - replace (Z.of_nat k - 1 + 1) with (Z.of_nat k) by lia. apply Hloop.
Qed.

(** One step of any strategy. *)
Lemma chunk_next_step c txt md k s h ch s' h' :
  counts k s → chunk_next c txt md s h = Some (ch, s', h') →
  (∃ d, h' = h ++ [ODict d] ∧ metadata ch = length h
        ∧ (c ≠ NoChunker → d !! str "chunk_index" = Some (VInt (Z.of_nat k))))
  ∧ counts (Datatypes.S k) s'.
Proof.
  intros Hk. unfold chunk_next.
  destruct c as [size overlap|size overlap tokenizer|size overlap|],
    s as [g|g|g|g]; try done.
  - destruct (char_next size overlap txt md g h) as [[[c1 g1] h1]|] eqn:Hn;
      [|done].
    intros [= <- <- <-].
    destruct (char_next_index _ _ _ _ _ _ _ _ _ _ Hk Hn) as [(d & ? & ? & ?) ?].
    split; [|done]. by exists d.
  - destruct (tok_next size overlap tokenizer txt md g h)
      as [[[c1 g1] h1]|] eqn:Hn; [|done].
    intros [= <- <- <-].
    destruct (tok_next_index _ _ _ _ _ _ _ _ _ _ _ Hk Hn) as [(d & ? & ? & ?) ?].
    split; [|done]. by exists d.
  - destruct (sent_next size overlap txt md g h) as [[[c1 g1] h1]|] eqn:Hn;
      [|done].
    intros [= <- <- <-].
    destruct (sent_next_index _ _ _ _ _ _ _ _ _ _ Hk Hn) as [(d & ? & ? & ?) ?].
    split; [|done]. by exists d.
  - destruct g; [|done]. simpl. unfold alloc. intros [= <- <- <-].
    split; [|done]. by eexists.
Qed.

Lemma counts_start c : counts 0 (chunk c).
Proof. by destruct c. Qed.

(** The store after any run: one new dict per chunk, in order. *)
Lemma chunk_list_store c txt md fuel h cs h' fin :
  chunk_list c txt md fuel h = (cs, h', fin) →
  ∃ ds : list dict, h' = h ++ (ODict <$> ds) ∧ length ds = length cs
    ∧ ∀ j ch, cs !! j = Some ch →
        metadata ch = (length h + j)%nat
        ∧ ∃ d, ds !! j = Some d
            ∧ (c ≠ NoChunker →
               d !! str "chunk_index" = Some (VInt (Z.of_nat j))).
Proof.
  intros Hrun. unfold chunk_list in Hrun.
  destruct (run_invariant (chunk_next c txt md)
              (λ k s _, counts k s)
              (λ k _ d, c ≠ NoChunker →
                        d !! str "chunk_index" = Some (VInt (Z.of_nat k))))
    with (fuel := fuel) (k := 0%nat) (s := chunk c) (h := h)
         (cs := cs) (h' := h') (fin := fin)
    as (ds & -> & Hlen & Hcs & _); [|apply counts_start|done|].
  - intros k s h0 ch s' h1 Hk Hn.
    destruct (chunk_next_step _ _ _ _ _ _ _ _ _ Hk Hn) as [(d & ? & ? & ?) ?].
    by exists d.
  - exists ds. split; [done|]. split; [done|]. intros j ch Hj.
    destruct (Hcs _ _ Hj) as (? & d & ? & ?). split; [done|]. by exists d.
Qed.

(** C6, as the code has it.  For the character, token and sentence
    strategies and every input, the [i]-th chunk emitted by one call of
    [chunk] carries [chunk_index = i]: the indices are 0, 1, 2, ... in the
    order of emission. *)
Theorem windowing_indices_contiguous c txt md fuel h cs h' fin :
  c ≠ NoChunker →
  chunk_list c txt md fuel h = (cs, h', fin) →
  indices_contiguous h' cs.
Proof.
  intros Hc Hrun. destruct (chunk_list_store _ _ _ _ _ _ _ _ Hrun)
    as (ds & -> & Hlen & Hcs).
  intros i ch Hi. destruct (Hcs _ _ Hi) as (Hloc & d & Hd & Hidx).
  unfold meta_int. rewrite Hloc, (deref_app_r _ _ _ _ Hd).
  by rewrite (Hidx Hc).
Qed.

Lemma windowing_indices_contiguous_witness :
  indices_contiguous
    (chunk_list (SentenceChunker 8 4) (str "One. Two. Three. Four.") 0%nat 10
       [ODict test_metadata]).1.2
    (chunk_list (SentenceChunker 8 4) (str "One. Two. Three. Four.") 0%nat 10
       [ODict test_metadata]).1.1.
Proof.
  apply (windowing_indices_contiguous (SentenceChunker 8 4)
           (str "One. Two. Three. Four.") 0%nat 10 [ODict test_metadata] _ _
           (chunk_list (SentenceChunker 8 4) (str "One. Two. Three. Four.")
              0%nat 10 [ODict test_metadata]).2); [discriminate|].
  by destruct (chunk_list _ _ _ _ _) as [[cs h'] fin].
Defined.

(** C6 as stated, for every strategy, fails for the pass-through chunker.
    For "abc" with the metadata [{"source_id": "test"}] the only chunk
    carries no [chunk_index]; with
    [{"source_id": "test", "chunk_index": 5}] it carries the index 5 of the
    base metadata, not 0. *)
Lemma no_chunker_breaks_index_sequence :
  ¬ indices_contiguous
      (chunk_list NoChunker (str "abc") 0%nat 2 [ODict test_metadata]).1.2
      (chunk_list NoChunker (str "abc") 0%nat 2 [ODict test_metadata]).1.1
  ∧ ¬ indices_contiguous
        (chunk_list NoChunker (str "abc") 0%nat 2 [ODict indexed_metadata]).1.2
        (chunk_list NoChunker (str "abc") 0%nat 2 [ODict indexed_metadata]).1.1.
Proof.
  split; intros Hidx.
  - specialize (Hidx 0%nat (mkChunk (str "abc") 1%nat (VStr (str "test")))
                  eq_refl).
    vm_compute in Hidx. discriminate.
  - specialize (Hidx 0%nat (mkChunk (str "abc") 1%nat (VStr (str "test")))
                  eq_refl).
    vm_compute in Hidx. discriminate.
Qed.

(** What the pass-through chunk carries in the two cases. *)
Example no_chunker_index_values :
  (∃ c h',
     chunk_list NoChunker (str "abc") 0%nat 2 [ODict test_metadata]
     = ([c], h', true)
     ∧ deref h' (metadata c) !! str "chunk_index" = None)
  ∧ (∃ c h',
       chunk_list NoChunker (str "abc") 0%nat 2 [ODict indexed_metadata]
       = ([c], h', true)
       ∧ deref h' (metadata c) !! str "chunk_index" = Some (VInt 5)).
Proof.
  split; (eexists _, _; split; [reflexivity|]); by vm_compute.
Qed.

(** ** Metadata isolation *)

Lemma same_step_map {G G'} (f : G → G') h1 h2
    (r1 r2 : option (Chunk * G * heap)) :
  same_step h1 h2 r1 r2 →
  same_step h1 h2
    (match r1 with Some (c, g, h) => Some (c, f g, h) | None => None end)
    (match r2 with Some (c, g, h) => Some (c, f g, h) | None => None end).
Proof.
  destruct r1 as [[[c1 g1] h1']|], r2 as [[[c2 g2] h2']|]; simpl; try done.
  intros (-> & -> & Hm & Hd). done.
Qed.

Lemma char_loop_frame size txt md start chunk_idx h1 h2 :
  same_view md h1 h2 →
  same_step h1 h2 (char_loop size txt md start chunk_idx h1)
    (char_loop size txt md start chunk_idx h2).
Proof.
  intros (Hlen & Hd & Hl). unfold char_loop, alloc.
  rewrite Hlen, Hd, (indexed_chunk_id_ext h1 h2 _ _ Hl).
  destruct (start <? py_len txt); simpl; [|done].
  split; [done|]. split; [done|]. split; [done|]. by eexists.
Qed.

Lemma char_next_frame size overlap txt md g h1 h2 :
  same_view md h1 h2 →
  same_step h1 h2 (char_next size overlap txt md g h1)
    (char_next size overlap txt md g h2).
Proof.
  intros Hv. destruct g as [|start chunk_idx]; simpl.
  - destruct txt; [done|]. by apply char_loop_frame.
  - destruct (_ >=? _); [done|]. by apply char_loop_frame.
Qed.

Lemma tok_loop_frame size md tk tokens start chunk_idx h1 h2 :
  same_view md h1 h2 →
  same_step h1 h2 (tok_loop size md tk tokens start chunk_idx h1)
    (tok_loop size md tk tokens start chunk_idx h2).
Proof.
  intros (Hlen & Hd & Hl). unfold tok_loop, alloc.
  rewrite Hlen, Hd, (indexed_chunk_id_ext h1 h2 _ _ Hl).
  destruct (start <? py_len tokens); simpl; [|done].
  split; [done|]. split; [done|]. split; [done|]. by eexists.
Qed.

Lemma tok_next_frame size overlap tokenizer txt md g h1 h2 :
  same_view md h1 h2 →
  same_step h1 h2 (tok_next size overlap tokenizer txt md g h1)
    (tok_next size overlap tokenizer txt md g h2).
Proof.
  intros Hv.
  assert (∀ g0, same_step h1 h2 (tok_delegate size overlap txt md g0 h1)
                  (tok_delegate size overlap txt md g0 h2)) as Hdel.
  { intros g0. unfold tok_delegate.
    by apply (same_step_map TokFallback), char_next_frame. }
  destruct g as [|g|tokens start chunk_idx]; simpl.
  - destruct txt as [|c0 t], tokenizer as [tk|];
      try (by apply (Hdel CharStart)).
    destruct (encode tk (c0 :: t)) as [|t0 ts]; [done|].
    by apply tok_loop_frame.
  - apply Hdel.
  - destruct tokenizer as [tk|]; [|done].
    destruct (_ >=? _); [done|]. by apply tok_loop_frame.
Qed.

Lemma sent_emit_frame md current_chunk chunk_idx (s' : sent_gen) h1 h2 :
  same_view md h1 h2 →
  same_step h1 h2 (Some (sent_emit md current_chunk chunk_idx s' h1))
    (Some (sent_emit md current_chunk chunk_idx s' h2)).
Proof.
  intros (Hlen & Hd & Hl). unfold sent_emit, alloc.
  rewrite Hlen, Hd, (indexed_chunk_id_ext h1 h2 _ _ Hl). simpl.
  split; [done|]. split; [done|]. split; [done|]. by eexists.
Qed.

Lemma sent_loop_frame size md sentences current_chunk current_size chunk_idx
    overlap_sentences h1 h2 :
  same_view md h1 h2 →
  same_step h1 h2
    (sent_loop size md sentences current_chunk current_size chunk_idx
       overlap_sentences h1)
    (sent_loop size md sentences current_chunk current_size chunk_idx
       overlap_sentences h2).
Proof.
  intros Hv. revert current_chunk current_size.
  induction sentences as [|sentence rest IH];
    intros current_chunk current_size; cbn [sent_loop].
  - destruct current_chunk; [done|]. by apply sent_emit_frame.
  - destruct (_ <=? _); [apply IH|].
    destruct current_chunk; [apply IH|]. by apply sent_emit_frame.
Qed.

Lemma sent_next_frame size overlap txt md g h1 h2 :
  same_view md h1 h2 →
  same_step h1 h2 (sent_next size overlap txt md g h1)
    (sent_next size overlap txt md g h2).
Proof.
  intros Hv.
  destruct g as [|g|sentence rest current_chunk chunk_idx|];
    cbn [sent_next]; [| | |done].
  - destruct txt as [|c0 t]; [done|]. cbv zeta.
    destruct (split_sentences (c0 :: t)).
    + by apply (same_step_map SentFallback), char_next_frame.
    + by apply sent_loop_frame.
  - by apply (same_step_map SentFallback), char_next_frame.
  - by apply sent_loop_frame.
Qed.

(** What a strategy does at one call of [next] depends on the store only
    through the base metadata and the lists. *)
Lemma chunk_next_frame c txt md s h1 h2 :
  same_view md h1 h2 →
  same_step h1 h2 (chunk_next c txt md s h1) (chunk_next c txt md s h2).
Proof.
  intros Hv. unfold chunk_next, lift_next.
  destruct c as [size overlap|size overlap tokenizer|size overlap|],
    s as [g|g|g|g]; try done.
  - by apply (same_step_map GChar), char_next_frame.
  - by apply (same_step_map GTok), tok_next_frame.
  - by apply (same_step_map GSent), sent_next_frame.
  - apply (same_step_map GNo). destruct Hv as (Hlen & Hd & Hl).
    destruct g; [|done]. simpl. unfold alloc. rewrite Hlen, Hd. simpl.
    split; [done|]. split; [done|]. split; [done|]. by eexists.
Qed.

Lemma list_at_mutate_None (h : heap) (a l : nat) d :
  list_at h l = None → list_at (mutate a d h) l = None.
Proof.
  unfold list_at, mutate. intros Hl.
  destruct (decide (a = l)) as [->|Hne].
  - destruct (decide (l < length h)%nat) as [Hlt|Hge].
    + by rewrite list_lookup_insert_eq.
    + by rewrite list_insert_ge by lia.
  - by rewrite list_lookup_insert_ne.
Qed.

(** The edits made after one chunk touch the dicts of the chunks they name
    and nothing else. *)
Lemma apply_edits_spec (seen : list Chunk) (es : list (nat * dict)) h :
  length (foldl (apply_edit seen) h es) = length h
  ∧ (∀ l, (∀ i d c, (i, d) ∈ es → seen !! i = Some c → metadata c ≠ l) →
       foldl (apply_edit seen) h es !! l = h !! l)
  ∧ (∀ l, list_at h l = None →
       list_at (foldl (apply_edit seen) h es) l = None).
Proof.
  revert h. induction es as [|[i d] es IH]; intros h; simpl; [done|].
  destruct (IH (apply_edit seen h (i, d))) as (Hlen & Hsame & Hlist).
  assert (length (apply_edit seen h (i, d)) = length h) as Hlen1.
  { unfold apply_edit. simpl. destruct (seen !! i); [|done].
    apply length_insert. }
  split; [by rewrite Hlen|]. split.
  - intros l Hl. rewrite Hsame.
    + unfold apply_edit. simpl. destruct (seen !! i) as [c|] eqn:Hc; [|done].
      unfold mutate. apply list_lookup_insert_ne.
      apply (Hl i d c); [by left|done].
    + intros i' d' c' Hin. apply (Hl i' d'). by right.
  - intros l Hl. apply Hlist. unfold apply_edit. simpl.
    destruct (seen !! i); [|done]. by apply list_at_mutate_None.
Qed.

Lemma edited_same_view edits n0 md seen hp he :
  (md < n0)%nat → edited_view edits n0 seen hp he → same_view md hp he.
Proof.
  intros Hmd (Hlp & Hle & Hseen & Hold & Hnew & _).
  split; [done|]. split.
  - unfold deref. by rewrite Hold.
  - intros r. destruct (decide (r < n0)%nat) as [Hr|Hr].
    + unfold list_at. by rewrite Hold.
    + destruct (Hnew r ltac:(lia)) as [-> ->]. done.
Qed.

(** A consumer that edits the chunks it has received gets the chunks of
    the plain run. *)
Lemma consume_run c txt md edits n0 fuel :
  (md < n0)%nat →
  ∀ seen s hp he cs hp' fin,
    edited_view edits n0 seen hp he →
    run (chunk_next c txt md) fuel s hp = (cs, hp', fin) →
    ∃ he', consume (chunk_next c txt md) edits fuel seen s he
           = (cs, he', fin)
           ∧ edited_view edits n0 (seen ++ cs) hp' he'.
Proof.
  intros Hmd. induction fuel as [|fuel IH];
    intros seen s hp he cs hp' fin Hv; simpl.
  - intros [= <- <- <-]. exists he. by rewrite app_nil_r.
  - pose proof (chunk_next_frame c txt md s hp he
                  (edited_same_view _ _ _ _ _ _ Hmd Hv)) as Hstep.
    destruct (chunk_next c txt md s hp) as [[[c1 s1] hp1]|] eqn:Hp,
      (chunk_next c txt md s he) as [[[c2 s2] he1]|] eqn:He;
      simpl in Hstep; try done.
    + destruct Hstep as (<- & <- & Hloc & d & -> & ->).
      destruct (run _ fuel s1 _) as [[cs1 hp2] fin1] eqn:Hrun.
      intros [= <- <- <-].
      destruct Hv as (Hlp & Hle & Hseen & Hold & Hnew & Hfree).
      set (seen' := seen ++ [c1]).
      destruct (apply_edits_spec seen' (edits (length seen))
                  (he ++ [ODict d])) as (Hlen & Hsame & Hlist).
      assert (∀ i c0, seen' !! i = Some c0 → metadata c0 = (n0 + i)%nat)
        as Hseen'.
      { intros i c0. unfold seen'.
        destruct (decide (i < length seen)%nat) as [Hi|Hi].
        - rewrite lookup_app_l by done. apply Hseen.
        - rewrite lookup_app_r by lia.
          destruct (i - length seen)%nat as [|n] eqn:Hn; [|done].
          simpl. intros [= <-]. lia. }
      destruct (IH seen' s1 (hp ++ [ODict d])
                  (foldl (apply_edit seen') (he ++ [ODict d])
                     (edits (length seen))) cs1 hp2 fin1) as (he' & -> & Hv');
        [|done|].
      * split; [unfold seen'; rewrite !length_app; simpl; lia|].
        split; [rewrite Hlen, !length_app; simpl; lia|].
        split; [done|]. split; [|split].
        -- intros l Hl. rewrite Hsame.
           ++ rewrite !lookup_app_l by lia. by apply Hold.
           ++ intros i d0 c0 _ Hc0. rewrite (Hseen' _ _ Hc0). lia.
        -- intros l Hl.
           assert (list_at (hp ++ [ODict d]) l = None
                   ∧ list_at (he ++ [ODict d]) l = None) as [H1 H2].
           { destruct (Hnew l Hl) as [Hp1 He1].
             by rewrite (list_at_app hp [d]), (list_at_app he [d]). }
           split; [done|]. by apply Hlist.
        -- intros i Hi. rewrite Hsame.
           ++ destruct (decide (n0 + i < length hp)%nat) as [Hlt|Hge].
              ** rewrite !lookup_app_l by lia. by apply Hfree.
              ** rewrite !lookup_app_r by lia. by rewrite Hle.
           ++ intros i' d0 c0 Hin Hc0. rewrite (Hseen' _ _ Hc0).
              intros Heq. apply (Hi (length seen) d0).
              by replace i with i' by lia.
      * exists he'. split; [done|]. unfold seen' in Hv'.
        by rewrite <- app_assoc in Hv'.
    + intros [= <- <- <-]. exists he. by rewrite app_nil_r.
Qed.

(** C7.  For every strategy, every emitted chunk has a metadata dict of its
    own.  Replacing the contents of the dict of one chunk of a finished
    run changes neither the dict of another chunk, nor the base metadata,
    nor any object that existed before the call.  A consumer that mutates
    the dicts of the chunks it has received while it iterates gets the
    same chunks as one that does not; the base metadata and every object
    that existed before the call stay as they were, and so does the dict
    of every chunk it did not mutate. *)
Theorem chunk_metadata_isolated c txt md fuel h cs h' fin :
  (md < length h)%nat →
  chunk_list c txt md fuel h = (cs, h', fin) →
  (∀ i ci d', cs !! i = Some ci →
     (∀ j cj, j ≠ i → cs !! j = Some cj →
        deref (mutate (metadata ci) d' h') (metadata cj)
        = deref h' (metadata cj))
     ∧ deref (mutate (metadata ci) d' h') md = deref h' md
     ∧ (∀ l, (l < length h)%nat →
          mutate (metadata ci) d' h' !! l = h !! l))
  ∧ ∀ edits, ∃ hm,
      chunk_list_edited c txt md edits fuel h = (cs, hm, fin)
      ∧ deref hm md = deref h md
      ∧ (∀ l, (l < length h)%nat → hm !! l = h !! l)
      ∧ (∀ j cj, cs !! j = Some cj → (∀ k d, (j, d) ∉ edits k) →
           deref hm (metadata cj) = deref h' (metadata cj)).
Proof.
  intros Hmd Hrun.
  destruct (chunk_list_store _ _ _ _ _ _ _ _ Hrun) as (ds & -> & Hlen & Hcs).
  split.
  - intros i ci d' Hi. destruct (Hcs _ _ Hi) as (Hli & _).
    split; [|split].
    + intros j cj Hne Hj. destruct (Hcs _ _ Hj) as (Hlj & _).
      apply deref_mutate_ne. lia.
    + apply deref_mutate_ne. lia.
    + intros l Hl. unfold mutate.
      rewrite list_lookup_insert_ne by lia. by apply lookup_app_l.
  - intros edits.
    destruct (consume_run c txt md edits (length h) fuel Hmd [] (chunk c) h h
                cs (h ++ (ODict <$> ds)) fin) as (hm & Hcons & Hv);
      [|exact Hrun|].
    { split; [simpl; lia|]. split; [done|]. split; [done|].
      split; [done|]. split; [|done].
      intros l Hl. unfold list_at. by rewrite lookup_ge_None_2 by lia. }
    simpl in Hv. destruct Hv as (_ & _ & Hseen & Hold & _ & Hfree).
    assert (∀ l, (l < length h)%nat → hm !! l = h !! l) as Hpre.
    { intros l Hl. rewrite Hold by done. by apply lookup_app_l. }
    exists hm. split; [done|]. split; [|split; [done|]].
    + unfold deref. by rewrite Hpre.
    + intros j cj Hj Hno. rewrite (Hseen _ _ Hj). unfold deref.
      by rewrite (Hfree j Hno).
Qed.

Lemma chunk_metadata_isolated_witness :
  (∀ i ci d', test_chunks.1.1 !! i = Some ci →
     (∀ j cj, j ≠ i → test_chunks.1.1 !! j = Some cj →
        deref (mutate (metadata ci) d' test_chunks.1.2) (metadata cj)
        = deref test_chunks.1.2 (metadata cj))
     ∧ deref (mutate (metadata ci) d' test_chunks.1.2) 0%nat
       = deref test_chunks.1.2 0%nat
     ∧ (∀ l, (l < length [ODict test_metadata])%nat →
          mutate (metadata ci) d' test_chunks.1.2 !! l
          = [ODict test_metadata] !! l))
  ∧ ∀ edits, ∃ hm,
      chunk_list_edited (CharacterChunker 10 2)
        (str "Test text for chunking") 0%nat edits 5 [ODict test_metadata]
      = (test_chunks.1.1, hm, test_chunks.2)
      ∧ deref hm 0%nat = deref [ODict test_metadata] 0%nat
      ∧ (∀ l, (l < length [ODict test_metadata])%nat →
           hm !! l = [ODict test_metadata] !! l)
      ∧ (∀ j cj, test_chunks.1.1 !! j = Some cj →
           (∀ k d, (j, d) ∉ edits k) →
           deref hm (metadata cj) = deref test_chunks.1.2 (metadata cj)).
Proof.
  apply (chunk_metadata_isolated (CharacterChunker 10 2)
           (str "Test text for chunking") 0%nat 5 [ODict test_metadata]
           test_chunks.1.1 test_chunks.1.2 test_chunks.2); [simpl; lia|].
  unfold test_chunks. by destruct (chunk_list _ _ _ _ _) as [[cs h'] fin].
Defined.

(** C7 as stated, without any shared mutable state, fails for a metadata
    value that is a list.  For the row of a CSV file,
    [CharacterChunker(size=10, overlap=2)] yields three chunks; they have
    different dicts, but [chunks[0].metadata["csv_columns"].append("x")]
    also changes the columns seen through the second chunk and through the
    base metadata: [metadata.copy()] copies the reference to the list. *)
Lemma shared_list_breaks_isolation :
  ∃ c0 c1 c2 h',
    chunk_list (CharacterChunker 10 2) csv_text 0%nat 5 csv_store
    = ([c0; c1; c2], h', true)
    ∧ metadata c0 ≠ metadata c1
    ∧ dict_list h' (deref h' (metadata c1)) (str "csv_columns")
      = Some [str "name"; str "city"]
    ∧ dict_list h' (deref h' 0%nat) (str "csv_columns")
      = Some [str "name"; str "city"]
    ∧ dict_list (append_under c0 (str "csv_columns") (str "x") h')
        (deref (append_under c0 (str "csv_columns") (str "x") h')
           (metadata c1))
        (str "csv_columns")
      = Some [str "name"; str "city"; str "x"]
    ∧ dict_list (append_under c0 (str "csv_columns") (str "x") h')
        (deref (append_under c0 (str "csv_columns") (str "x") h') 0%nat)
        (str "csv_columns")
      = Some [str "name"; str "city"; str "x"].
Proof.
  eexists _, _, _, _. split; [reflexivity|].
  split; [by vm_compute|]. repeat split; by vm_compute.
Qed.

(** ** The resolver *)

Lemma contains_app_l (s s' s1 : pystr) : contains s s1 → contains (s ++ s') s1.
Proof.
  intros (before & after & ->). exists before, (after ++ s').
  by rewrite <- !app_assoc.
Qed.

Lemma contains_app_r (s s' s1 : pystr) : contains s' s1 → contains (s ++ s') s1.
Proof.
  intros (before & after & ->). exists (s ++ before), after.
  by rewrite <- !app_assoc.
Qed.

Lemma split_on_nonempty sep cur s : split_on sep cur s ≠ [].
Proof.
  revert cur. induction s as [|c s IH]; intros cur; simpl; [done|].
  destruct (c =? sep)%N; [done|apply IH].
Qed.

(** [parts[-1]] never fails on the result of [split]. *)
Lemma py_getitem_last {A} (l : list A) :
  l ≠ [] → ∃ x, py_getitem l (-1) = Ok x ∧ last l = Some x.
Proof.
  intros Hne. destruct (last l) as [x|] eqn:Hlast;
    [|by apply last_None in Hlast].
  exists x. split; [|done]. unfold py_getitem.
  assert (0 < py_len l) as Hlen
    by (destruct l; [done|unfold py_len; simpl; lia]).
  destruct (Z.ltb_spec (-1) 0); [|lia].
  destruct (Z.leb_spec 0 (-1 + py_len l)); [|lia].
  destruct (Z.ltb_spec (-1 + py_len l) (py_len l)); [|lia]. simpl.
  rewrite last_lookup in Hlast.
  replace (Z.to_nat (-1 + py_len l)) with (Nat.pred (length l))
    by (unfold py_len; lia).
  by rewrite Hlast.
Qed.

Section ResolverFacts.
Variable py_lower : pystr → pystr.
Variable import_tiktoken : result unit.
Variable tiktoken_get_encoding : pystr → result Tokenizer.
Variables py_module py_class custom : Type.
Variable import_module : pystr → result py_module.
Variable getattr : py_module → pystr → result py_class.
Variable construct_kw : py_class → Z → Z → result custom.
Variable construct : py_class → result custom.

Lemma load_custom_fails strategy size overlap e :
  resolution_fails import_module getattr construct_kw construct
    strategy size overlap e →
  load_custom import_module getattr construct_kw construct
    strategy size overlap = Raise e.
Proof.
  unfold load_custom.
  destruct (py_getitem_last (py_split strategy 46)
              (split_on_nonempty _ _ _)) as (x & -> & Hlast).
  fold (custom_module_name strategy).
  intros [Hm He|m cn Hm Hcn Ha He|m cn k Hm Hcn Ha Hc Hty He
          |m cn k e1 Hm Hcn Ha Hc Hty Hc' He];
    cbn; rewrite Hm; cbn; try done;
    rewrite Hlast in Hcn; injection Hcn as ->; rewrite Ha; cbn; try done;
    rewrite Hc, Hty; done.
Qed.

Lemma TokenChunker_init_ok size overlap tokenizer tokenizer_name :
  (∀ e, import_tiktoken = Raise e → isinstance e Exception = true) →
  (∀ name e, tiktoken_get_encoding name = Raise e →
             isinstance e Exception = true) →
  ∃ tk, TokenChunker_init import_tiktoken tiktoken_get_encoding
          size overlap tokenizer tokenizer_name
        = Ok (TokenChunker size overlap tk).
Proof.
  intros Himp Henc. unfold TokenChunker_init.
  destruct tokenizer as [tk|]; [by eexists|].
  destruct tokenizer_name as [name|]; [|by eexists].
  destruct (get_tokenizer _ _ (Some name)) as [tk|e] eqn:Hget; [by eexists|].
  assert (backend_unavailable import_tiktoken tiktoken_get_encoding name)
    as Hun.
  { unfold get_tokenizer in Hget.
    destruct import_tiktoken as [[]|e0] eqn:Hi; cbn in Hget.
    - destruct (tiktoken_get_encoding name) as [enc|e1] eqn:He1;
        cbn in Hget; [done|].
      exists e1. split; [by eapply Henc|]. by right.
    - exists e0. split; [by apply Himp|]. by left. }
  destruct (get_tokenizer_unavailable _ _ _ Hun) as (e' & He' & Hcatch).
  rewrite Hget in He'. injection He' as <-. rewrite Hcatch. by eexists.
Qed.

(** C4.  A strategy whose lower-case form is one of the four built-in names
    resolves to that strategy with the given [size] and [overlap]; for any
    other strategy whose resolution as a dotted path fails, [get_chunker]
    raises a [ValueError] whose message names the strategy, lists the four
    built-in names and ends with the message of the cause. *)
Theorem get_chunker_resolves strategy size overlap tokenizer tokenizer_name :
  (py_lower strategy = str "character" →
     get_chunker py_lower import_tiktoken tiktoken_get_encoding
       import_module getattr construct_kw construct
       strategy size overlap tokenizer tokenizer_name
     = Ok (@Builtin custom (CharacterChunker size overlap)))
  ∧ (py_lower strategy = str "token" →
     (∀ e, import_tiktoken = Raise e → isinstance e Exception = true) →
     (∀ name e, tiktoken_get_encoding name = Raise e →
                isinstance e Exception = true) →
     ∃ tk, get_chunker py_lower import_tiktoken tiktoken_get_encoding
       import_module getattr construct_kw construct
       strategy size overlap tokenizer tokenizer_name
           = Ok (@Builtin custom (TokenChunker size overlap tk)))
  ∧ (py_lower strategy = str "sentence" →
     get_chunker py_lower import_tiktoken tiktoken_get_encoding
       import_module getattr construct_kw construct
       strategy size overlap tokenizer tokenizer_name
     = Ok (@Builtin custom (SentenceChunker size overlap)))
  ∧ (py_lower strategy = str "none" →
     get_chunker py_lower import_tiktoken tiktoken_get_encoding
       import_module getattr construct_kw construct
       strategy size overlap tokenizer tokenizer_name
     = Ok (@Builtin custom NoChunker))
  ∧ (py_lower strategy ∉ [str "character"; str "token"; str "sentence";
                          str "none"] →
     ∀ e, resolution_fails import_module getattr construct_kw construct
    strategy size overlap e →
       get_chunker py_lower import_tiktoken tiktoken_get_encoding
       import_module getattr construct_kw construct
       strategy size overlap tokenizer tokenizer_name
       = Raise (mkExn ValueError (unknown_strategy_message strategy e))
       ∧ contains (unknown_strategy_message strategy e) strategy
       ∧ contains (unknown_strategy_message strategy e) (str "'character'")
       ∧ contains (unknown_strategy_message strategy e) (str "'token'")
       ∧ contains (unknown_strategy_message strategy e) (str "'sentence'")
       ∧ contains (unknown_strategy_message strategy e) (str "'none'")
       ∧ contains (unknown_strategy_message strategy e) (exn_msg e)).
Proof.
  unfold get_chunker.
  split; [|split; [|split; [|split]]].
  - intros ->. by rewrite decide_True.
  - intros -> Himp Henc. cbn.
    destruct (TokenChunker_init_ok size overlap tokenizer tokenizer_name
                Himp Henc) as (tk & ->).
    by exists tk.
  - by intros ->.
  - by intros ->.
  - intros Hnot e Hfail.
    apply not_elem_of_cons in Hnot as [? Hnot].
    apply not_elem_of_cons in Hnot as [? Hnot].
    apply not_elem_of_cons in Hnot as [? Hnot].
    apply not_elem_of_cons in Hnot as [? _].
    rewrite !decide_False by done.
    rewrite (load_custom_fails _ _ _ _ Hfail).
    assert (isinstance e Exception = true) as ->
      by (by destruct Hfail).
    split; [done|]. unfold unknown_strategy_message.
    split; [|split; [|split; [|split; [|split]]]].
    + apply contains_app_r, contains_app_l. exists [], []. by rewrite app_nil_r.
    + do 3 apply contains_app_r. apply contains_app_l.
      by exists (str "Supported: "),
                (str ", 'token', 'sentence', 'none', ").
    + do 3 apply contains_app_r. apply contains_app_l.
      by exists (str "Supported: 'character', "),
                (str ", 'sentence', 'none', ").
    + do 3 apply contains_app_r. apply contains_app_l.
      by exists (str "Supported: 'character', 'token', "),
                (str ", 'none', ").
    + do 3 apply contains_app_r. apply contains_app_l.
      by exists (str "Supported: 'character', 'token', 'sentence', "),
                (str ", ").
    + do 5 apply contains_app_r. exists [], []. by rewrite app_nil_r.
Qed.
End ResolverFacts.

Lemma run_resume {S} (next : S → heap
                               → option (Chunk * S * heap))
    fuel s h :
  run next (Datatypes.S fuel) s h = resume next (next s h) fuel h.
Proof. done. Qed.

Lemma split_scan_nonempty in_sep after_term cur t :
  split_scan in_sep after_term cur t ≠ [].
Proof.
  revert in_sep after_term cur.
  induction t as [|c t IH]; intros in_sep after_term cur; simpl; [done|].
  destruct in_sep; [destruct (is_space c); apply IH|].
  destruct (after_term && is_space c); [done|apply IH].
Qed.

Lemma py_join_contains sep (parts : list pystr) s :
  s ∈ parts → contains (py_join sep parts) s.
Proof.
  induction parts as [|p ps IH]; [by intros ?%elem_of_nil|].
  intros [->|Hin]%elem_of_cons.
  - destruct ps as [|p' ps]; simpl.
    + exists [], []. by rewrite app_nil_r.
    + by exists [], (sep ++ py_join sep (p' :: ps)).
  - destruct ps as [|p' ps]; [by apply elem_of_nil in Hin|].
    change (py_join sep (p :: p' :: ps))
      with (p ++ sep ++ py_join sep (p' :: ps)).
    by apply contains_app_r, contains_app_r, IH.
Qed.

Lemma elem_of_snoc {A} (l : list A) (x y : A) :
  y ∈ l ++ [x] → y ∈ l ∨ y = x.
Proof. intros [?|?%list_elem_of_singleton]%elem_of_app; auto. Qed.

Section SentenceFacts.
Variables (size overlap : Z) (txt : pystr) (md : nat).

Lemma overlap_loop_subset reversed acc sz s :
  s ∈ overlap_loop overlap reversed acc sz → s ∈ reversed ∨ s ∈ acc.
Proof.
  revert acc sz. induction reversed as [|r rs IH]; intros acc sz; simpl.
  - by right.
  - destruct (_ <=? _); [|by right].
    intros [Hin|[->|Hin]%elem_of_cons]%IH.
    + left. by right.
    + left. by left.
    + by right.
Qed.

(** The generator yields one chunk per flushed buffer. *)
Lemma sent_loop_flushed sentences :
  ∀ current_chunk current_size chunk_idx overlap_sentences h fuel,
    (length sentences < fuel)%nat →
    ∃ cs h',
      resume (sent_next size overlap txt md)
        (sent_loop size md sentences current_chunk current_size chunk_idx
           overlap_sentences h) fuel h = (cs, h', true)
      ∧ map text cs
        = map (py_join (str " "))
            (flushed size overlap sentences current_chunk current_size
               overlap_sentences).
Proof.
  induction sentences as [|sentence rest IH];
    intros current_chunk current_size chunk_idx overlap_sentences h fuel
      Hfuel; cbn [sent_loop flushed].
  - destruct current_chunk as [|s0 cur]; [by eexists _, _|].
    destruct (sent_emit md (s0 :: cur) chunk_idx SentFinal h)
      as [[c g] h1] eqn:Hemit.
    apply sent_emit_index in Hemit as (_ & -> & Htext).
    destruct fuel as [|fuel]; [simpl in Hfuel; lia|].
    eexists _, _. split; [reflexivity|]. simpl. by rewrite Htext.
  - simpl in Hfuel.
    destruct (_ <=? _); [apply IH; lia|].
    destruct current_chunk as [|s0 cur]; [apply IH; lia|].
    destruct (sent_emit md (s0 :: cur) chunk_idx
                (SentFlushed sentence rest (s0 :: cur) chunk_idx) h)
      as [[c g] h1] eqn:Hemit.
    apply sent_emit_index in Hemit as (_ & -> & Htext).
    destruct fuel as [|fuel]; [lia|].
    unfold resume at 1. rewrite run_resume. cbn [sent_next].
    destruct (IH (overlap_loop overlap (reverse (s0 :: cur)) [] 0 ++ [sentence])
                (total_len (overlap_loop overlap (reverse (s0 :: cur)) [] 0
                            ++ [sentence]))
                (chunk_idx + 1)
                (overlap_loop overlap (reverse (s0 :: cur)) [] 0) h1 fuel
                ltac:(lia)) as (cs & h' & -> & Hcs).
    eexists _, _. split; [reflexivity|]. cbn [map]. by rewrite Htext, Hcs.
Qed.

(** Every buffer is made of sentences the loop has seen. *)
Lemma flushed_sound sentences :
  ∀ current_chunk current_size overlap_sentences buffer,
    buffer ∈ flushed size overlap sentences current_chunk current_size
               overlap_sentences →
    buffer ≠ []
    ∧ ∀ s, s ∈ buffer →
        s ∈ current_chunk ∨ s ∈ overlap_sentences ∨ s ∈ sentences.
Proof.
  induction sentences as [|sentence rest IH];
    intros current_chunk current_size overlap_sentences buffer;
    cbn [flushed].
  - destruct current_chunk as [|s0 cur]; [by intros ?%elem_of_nil|].
    intros ->%list_elem_of_singleton. split; [done|]. by left.
  - destruct (_ <=? _).
    { intros [Hne Hin]%IH. split; [done|]. intros s Hs.
      destruct (Hin s Hs)
        as [[?| ->]%elem_of_snoc|[?|?]];
        [by left|right; right; by left|by right; left
        |right; right; by right]. }
    destruct current_chunk as [|s0 cur].
    { intros [Hne Hin]%IH. split; [done|]. intros s Hs.
      destruct (Hin s Hs)
        as [[?| ->]%elem_of_snoc|[?|?]];
        [by right; left|right; right; by left|by right; left
        |right; right; by right]. }
    intros [->|[Hne Hin]%IH]%elem_of_cons; [split; [done|by left]|].
    split; [done|]. intros s Hs.
    assert (∀ s', s' ∈ overlap_loop overlap (reverse (s0 :: cur)) [] 0 →
              s' ∈ s0 :: cur) as Hsub.
    { intros s' [Hov|Hov]%overlap_loop_subset;
        [by apply elem_of_reverse|by apply elem_of_nil in Hov]. }
    destruct (Hin s Hs) as [[Hov| ->]%elem_of_snoc|[Hov|?]];
      [left; by apply Hsub|right; right; by left|left; by apply Hsub
      |right; right; by right].
Qed.

(** Every sentence of the buffer and of the input ends up in a flushed
    buffer. *)
Lemma flushed_complete sentences :
  ∀ current_chunk current_size overlap_sentences s,
    s ∈ current_chunk ∨ s ∈ sentences →
    ∃ buffer,
      buffer ∈ flushed size overlap sentences current_chunk current_size
                 overlap_sentences
      ∧ s ∈ buffer.
Proof.
  induction sentences as [|sentence rest IH];
    intros current_chunk current_size overlap_sentences s; cbn [flushed].
  - intros [Hs|Hs]; [|by apply elem_of_nil in Hs].
    destruct current_chunk as [|s0 cur]; [by apply elem_of_nil in Hs|].
    exists (s0 :: cur). split; [by left|done].
  - intros Hs.
    assert (∀ cur', (s ∈ current_chunk → s ∈ cur' ++ [sentence]) →
              s ∈ cur' ++ [sentence] ∨ s ∈ rest) as Hnext.
    { intros cur' Hcur.
      destruct Hs as [Hs|[->|Hs]%elem_of_cons];
        [left; by apply Hcur|left; apply elem_of_app; right; by left
        |by right]. }
    destruct (_ <=? _).
    { apply IH, Hnext. intros ?. apply elem_of_app. by left. }
    destruct current_chunk as [|s0 cur].
    { apply IH, Hnext. by intros ?%elem_of_nil. }
    destruct Hs as [Hs|[->|Hs]%elem_of_cons].
    + exists (s0 :: cur). split; [by left|done].
    + edestruct IH as (buffer & Hb & Hsb);
        [left; apply elem_of_app; right; by left|].
      exists buffer. split; [right; exact Hb|done].
    + edestruct IH as (buffer & Hb & Hsb); [by right|].
      exists buffer. split; [right; exact Hb|done].
Qed.
End SentenceFacts.

Lemma chunk_list_sentence size overlap txt md fuel h :
  chunk_list (SentenceChunker size overlap) txt md fuel h
  = run (sent_next size overlap txt md) fuel SentStart h.
Proof. unfold chunk_list. simpl. by apply (run_lift GSent). Qed.

(** C8.  For a non-empty text the sentence chunker terminates; every
    sentence of the split occurs whole in the text of some chunk; the text
    of every chunk is a non-empty buffer of sentences joined by one space;
    and a sentence longer than [size] is emitted whole, in a chunk longer
    than [size]. *)
Theorem sentence_chunker_keeps_sentences size overlap txt md h :
  txt ≠ [] →
  ∃ cs h',
    (∀ fuel, (length (split_sentences txt) + 1 < fuel)%nat →
       chunk_list (SentenceChunker size overlap) txt md fuel h
       = (cs, h', true))
    ∧ (∀ s, s ∈ split_sentences txt →
         ∃ c, c ∈ cs ∧ contains (text c) s)
    ∧ (∀ c, c ∈ cs →
         ∃ buffer, buffer ≠ []
           ∧ (∀ s, s ∈ buffer → s ∈ split_sentences txt)
           ∧ text c = py_join (str " ") buffer)
    ∧ (∀ s, s ∈ split_sentences txt → size < py_len s →
         ∃ c, c ∈ cs ∧ contains (text c) s ∧ size < py_len (text c)).
Proof.
  intros Hne.
  assert (∀ fuel,
            run (sent_next size overlap txt md) (Datatypes.S fuel) SentStart h
            = resume (sent_next size overlap txt md)
                (sent_loop size md (split_sentences txt) [] 0 0 [] h) fuel h)
    as Hstart.
  { intros fuel. rewrite run_resume. f_equal. cbn [sent_next].
    destruct txt as [|c0 t]; [done|].
    destruct (split_sentences (c0 :: t)) eqn:Hsplit; [|done].
    by apply split_scan_nonempty in Hsplit. }
  destruct (sent_loop_flushed size overlap txt md (split_sentences txt)
              [] 0 0 [] h (Datatypes.S (length (split_sentences txt)))
              ltac:(lia)) as (cs & h' & Hrun & Htexts).
  rewrite <- Hstart in Hrun.
  set (buffers := flushed size overlap (split_sentences txt) [] 0 []) in *.
  assert (∀ buffer, buffer ∈ buffers →
            ∃ c, c ∈ cs ∧ text c = py_join (str " ") buffer) as Hchunk.
  { intros buffer Hb.
    assert (py_join (str " ") buffer ∈ map text cs) as Hin
      by (rewrite Htexts; by apply list_elem_of_fmap_2).
    apply list_elem_of_fmap in Hin as (c & ? & ?). by exists c. }
  assert (∀ s, s ∈ split_sentences txt →
            ∃ c, c ∈ cs ∧ contains (text c) s) as Hwhole.
  { intros s Hs.
    destruct (flushed_complete size overlap (split_sentences txt) [] 0 [] s
                ltac:(by right)) as (buffer & Hb & Hsb).
    destruct (Hchunk _ Hb) as (c & Hc & Htext).
    exists c. split; [done|]. rewrite Htext. by apply py_join_contains. }
  exists cs, h'. split; [|split; [|split]].
  - intros fuel Hfuel. rewrite chunk_list_sentence.
    eapply run_fuel_mono; [exact Hrun|lia].
  - done.
  - intros c Hc.
    assert (text c ∈ map (py_join (str " ")) buffers) as Hin
      by (rewrite <- Htexts; by apply list_elem_of_fmap_2).
    apply list_elem_of_fmap in Hin as (buffer & Htext & Hb).
    destruct (flushed_sound _ _ _ _ _ _ _ Hb) as (Hnb & Hsub).
    exists buffer. split; [done|]. split; [|done].
    intros s Hs. destruct (Hsub s Hs) as [Hin|[Hin|Hin]];
      [by apply elem_of_nil in Hin|by apply elem_of_nil in Hin|done].
  - intros s Hs Hbig. destruct (Hwhole s Hs) as (c & Hc & Hcont).
    exists c. split; [done|]. split; [done|].
    destruct Hcont as (before & after & ->).
    unfold py_len in *. rewrite !length_app. lia.
Qed.

Lemma sentence_chunker_keeps_sentences_witness :
  ∃ cs h',
    (∀ fuel, (length (split_sentences (str "One. Two. Three.")) + 1 < fuel)%nat →
       chunk_list (SentenceChunker 100 10) (str "One. Two. Three.") 0%nat fuel
         [ODict test_metadata] = (cs, h', true))
    ∧ (∀ s, s ∈ split_sentences (str "One. Two. Three.") →
         ∃ c, c ∈ cs ∧ contains (text c) s)
    ∧ (∀ c, c ∈ cs →
         ∃ buffer, buffer ≠ []
           ∧ (∀ s, s ∈ buffer → s ∈ split_sentences (str "One. Two. Three."))
           ∧ text c = py_join (str " ") buffer)
    ∧ (∀ s, s ∈ split_sentences (str "One. Two. Three.") → 100 < py_len s →
         ∃ c, c ∈ cs ∧ contains (text c) s ∧ 100 < py_len (text c)).
Proof.
  apply (sentence_chunker_keeps_sentences 100 10 (str "One. Two. Three.")
           0%nat [ODict test_metadata]).
  done.
Defined.

Lemma get_chunker_resolves_witness :
  get_chunker ascii_lower (Ok ()) unknown_encoding no_modules
    (λ _ _, Ok ()) (λ _ _ _, Ok ()) (λ _, Ok ())
    (str "bogus_xyz") 1000 200 None (Some (str "cl100k_base"))
  = Raise (mkExn ValueError
             (unknown_strategy_message (str "bogus_xyz")
                (mkExn ValueError (str "Empty module name")))).
Proof.
  destruct (get_chunker_resolves ascii_lower (Ok ()) unknown_encoding
              unit unit unit no_modules
              (λ _ _, Ok ()) (λ _ _ _, Ok ()) (λ _, Ok ())
              (str "bogus_xyz") 1000 200 None (Some (str "cl100k_base")))
    as (_ & _ & _ & _ & Hfail).
  apply Hfail.
  - vm_compute. intros Hin. repeat (apply elem_of_cons in Hin as [Heq|Hin];
      [discriminate Heq|]). by apply elem_of_nil in Hin.
  - apply module_not_found; reflexivity.
Defined.

(** * Further properties *)

(** ** More on the character chunker *)

(** The complete output whenever the cursor advances, also for a negative
    overlap. *)
Lemma character_chunks_advancing size overlap txt md h :
  overlap < size → (md < length h)%nat →
  ∃ cs h',
    (∀ fuel, (length txt < fuel)%nat →
       chunk_list (CharacterChunker size overlap) txt md fuel h
       = (cs, h', true))
    ∧ py_len txt ≤ Z.of_nat (length cs) * (size - overlap)
    ∧ ∀ j c, cs !! j = Some c →
        Z.of_nat j * (size - overlap) < py_len txt
        ∧ text c = py_slice txt (Z.of_nat j * (size - overlap))
                     (Z.of_nat j * (size - overlap) + size)
        ∧ metadata c = (length h + j)%nat
        ∧ deref h' (metadata c)
          = char_dict size txt (deref h md)
              (Z.of_nat j * (size - overlap)) (Z.of_nat j).
Proof.
  intros Hov Hmd.
  destruct (run (char_next size overlap txt md) (Datatypes.S (length txt))
              CharStart h) as [[cs h'] fin] eqn:Hrun.
  pose proof (char_start_exhausts size overlap txt md
                (Datatypes.S (length txt)) h ltac:(lia) ltac:(lia)) as Hfin.
  rewrite Hrun in Hfin. simpl in Hfin. subst fin.
  assert (char_inv size overlap md (deref h md) 0 CharStart h) as Hinv
    by done.
  destruct (run_invariant _ _ _
              (char_step_ok size overlap txt md (deref h md))
              _ _ _ _ _ _ _ Hinv Hrun)
    as (ds & -> & Hlen & Hcs & Hend).
  exists cs, (h ++ (ODict <$> ds)). split; [|split].
  - intros fuel Hfuel. rewrite chunk_list_character.
    eapply run_fuel_mono; [exact Hrun|lia].
  - destruct (Hend eq_refl) as (s_end & HI & Hnone).
    by apply (char_end _ _ _ _ _ _ _ _ HI) in Hnone.
  - intros j c Hj. rewrite <- chunk_list_character in Hrun.
    by apply (character_prefix _ _ _ _ _ _ _ _ _ Hmd Hrun).
Qed.

(** X1.  Whenever [overlap < size], also for a negative overlap, the
    character chunker yields [ceil(len(text) / (size - overlap))] chunks. *)
Theorem character_chunk_count size overlap txt md h :
  overlap < size → (md < length h)%nat →
  ∃ cs h',
    (∀ fuel, (length txt < fuel)%nat →
       chunk_list (CharacterChunker size overlap) txt md fuel h
       = (cs, h', true))
    ∧ Z.of_nat (length cs)
      = (py_len txt + (size - overlap) - 1) / (size - overlap).
Proof.
  intros Hov Hmd.
  destruct (character_chunks_advancing size overlap txt md h Hov Hmd)
    as (cs & h' & Hrun & Hend & Hcs).
  exists cs, h'. split; [done|].
  set (step := size - overlap) in *. set (n := Z.of_nat (length cs)) in *.
  assert (n * step ≤ py_len txt + step - 1) as Hup.
  { destruct (decide (length cs = 0%nat)) as [H0|Hne].
    - pose proof (py_len_nonneg txt). unfold n. rewrite H0. simpl. lia.
    - destruct (lookup_lt_is_Some_2 cs (Nat.pred (length cs)) ltac:(lia))
        as [c Hc].
      destruct (Hcs _ _ Hc) as (Hlt & _). fold step in Hlt. unfold n. nia. }
  apply (Z.div_unique _ _ _ (py_len txt + step - 1 - step * n)); lia.
Qed.

Lemma character_chunk_count_witness :
  ∃ cs h',
    (∀ fuel, (length (str "Test text") < fuel)%nat →
       chunk_list (CharacterChunker 5 1) (str "Test text") 0%nat fuel
         [ODict test_metadata] = (cs, h', true))
    ∧ Z.of_nat (length cs) = (py_len (str "Test text") + (5 - 1) - 1) / (5 - 1).
Proof.
  apply (character_chunk_count 5 1 (str "Test text") 0%nat [ODict test_metadata]);
    [lia | simpl; lia].
Defined.

Lemma py_slice_to_slice {A} (l : list A) (a o b : Z) :
  0 ≤ a → 0 ≤ o → a + o ≤ b →
  py_slice_to (py_slice l a b) o = py_slice l a (a + o).
Proof.
  intros Ha Ho Hb. unfold py_slice_to.
  rewrite py_slice_length by lia. rewrite !py_slice_nonneg by lia.
  pose proof (py_len_nonneg l) as Hl. unfold adjust_index.
  destruct (Z.ltb_spec o 0); [lia|].
  rewrite take_take. f_equal. lia.
Qed.

Lemma py_slice_from_end {A} (l : list A) (a o b : Z) :
  0 ≤ a → 0 < o → a + o ≤ b → b ≤ py_len l →
  py_slice_from (py_slice l a b) (- o) = py_slice l (b - o) b.
Proof.
  intros Ha Ho Hb Hl. unfold py_slice_from.
  rewrite py_slice_length by lia. rewrite !py_slice_nonneg by lia.
  unfold adjust_index. destruct (Z.ltb_spec (- o) 0); [|lia].
  rewrite skipn_firstn_comm, drop_drop. f_equal; [lia|]. f_equal. lia.
Qed.

(** X2.  With [0 < overlap < size], when chunk [i] has its full [size]
    characters, its last [overlap] characters are the first [overlap]
    characters of chunk [i + 1]. *)
Theorem character_chunks_share_overlap size overlap txt md fuel h cs h' fin
    i ci cj :
  0 < overlap < size → (md < length h)%nat →
  chunk_list (CharacterChunker size overlap) txt md fuel h = (cs, h', fin) →
  cs !! i = Some ci → cs !! Datatypes.S i = Some cj →
  Z.of_nat i * (size - overlap) + size ≤ py_len txt →
  py_slice_from (text ci) (- overlap) = py_slice_to (text cj) overlap.
Proof.
  intros Hov Hmd Hrun Hi Hj Hfull.
  destruct (character_prefix _ _ _ _ _ _ _ _ _ Hmd Hrun _ _ Hi)
    as (_ & -> & _).
  destruct (character_prefix _ _ _ _ _ _ _ _ _ Hmd Hrun _ _ Hj)
    as (_ & -> & _).
  rewrite py_slice_from_end, py_slice_to_slice by nia.
  f_equal; lia.
Qed.

Lemma character_chunks_share_overlap_witness :
  ∃ ci cj,
    test_chunks.1.1 !! 0%nat = Some ci ∧ test_chunks.1.1 !! 1%nat = Some cj
    ∧ py_slice_from (text ci) (- 2) = py_slice_to (text cj) 2.
Proof.
  eexists _, _. split; [reflexivity|]. split; [reflexivity|].
  apply (character_chunks_share_overlap 10 2 (str "Test text for chunking")
           0%nat 5 [ODict test_metadata] test_chunks.1.1 test_chunks.1.2
           test_chunks.2 0%nat);
    [lia | simpl; lia | | reflexivity | reflexivity | by vm_compute].
  unfold test_chunks. by destruct (chunk_list _ _ _ _ _) as [[cs h'] fin].
Defined.

Lemma char_run_never_ends size overlap txt md fuel start chunk_idx h :
  size ≤ overlap → txt ≠ [] → start ≤ 0 →
  ∃ cs h',
    run (char_next size overlap txt md) fuel (CharYielded start chunk_idx) h
    = (cs, h', false)
    ∧ length cs = fuel.
Proof.
  intros Hov Hne. revert start chunk_idx h.
  assert (0 < py_len txt) as Hlen
    by (destruct txt; [done|unfold py_len; simpl; lia]).
  induction fuel as [|fuel IH]; intros start chunk_idx h Hstart;
    [by eexists _, _|].
  cbn [run char_next].
  destruct (Z.geb_spec (start + size - overlap) (py_len txt)); [lia|].
  unfold char_loop.
  destruct (Z.ltb_spec (start + size - overlap) (py_len txt)); [|lia].
  unfold alloc.
  edestruct (IH (start + size - overlap) (chunk_idx + 1)) as (cs & h' & -> & <-);
    [lia|].
  by eexists _, _.
Qed.

(** X3.  With [overlap >= size] and a non-empty text the character chunker
    never finishes: every call of [next] yields a chunk, and with
    [overlap = size] every chunk is [text[0:size]]. *)
Theorem character_chunker_never_ends size overlap txt md fuel h :
  size ≤ overlap → txt ≠ [] → (md < length h)%nat →
  ∃ cs h',
    chunk_list (CharacterChunker size overlap) txt md fuel h = (cs, h', false)
    ∧ length cs = fuel
    ∧ (overlap = size → ∀ c, c ∈ cs → text c = py_slice txt 0 size).
Proof.
  intros Hov Hne Hmd.
  assert (∃ cs h',
            chunk_list (CharacterChunker size overlap) txt md fuel h
            = (cs, h', false) ∧ length cs = fuel) as (cs & h' & Hrun & Hlen).
  { rewrite chunk_list_character. destruct fuel as [|fuel]; [by eexists _, _|].
    cbn [run char_next].
    destruct txt as [|c0 t] eqn:Htxt; [done|]. rewrite <- Htxt in *.
    unfold char_loop.
    destruct (Z.ltb_spec 0 (py_len txt));
      [|subst txt; unfold py_len in *; simpl in *; lia].
    unfold alloc.
    edestruct (char_run_never_ends size overlap txt md fuel 0 0)
      as (cs & h' & -> & <-); [done..|].
    by eexists _, _. }
  exists cs, h'. split; [done|]. split; [done|].
  intros -> c [j Hj]%list_elem_of_lookup_1.
  destruct (character_prefix _ _ _ _ _ _ _ _ _ Hmd Hrun _ _ Hj)
    as (_ & -> & _).
  f_equal; lia.
Qed.

Lemma character_chunker_never_ends_witness :
  ∃ cs h',
    chunk_list (CharacterChunker 5 5) (str "Test text") 0%nat 7
      [ODict test_metadata] = (cs, h', false)
    ∧ length cs = 7%nat
    ∧ (5 = 5 → ∀ c, c ∈ cs → text c = py_slice (str "Test text") 0 5).
Proof.
  apply (character_chunker_never_ends 5 5 (str "Test text") 0%nat 7
           [ODict test_metadata]); [lia | done | simpl; lia].
Defined.

(** X4.  With a negative overlap the character chunker skips text: a
    position [p] with [p mod (size - overlap) >= size] lies in the
    [[start_char, end_char)] interval of no chunk. *)
Theorem negative_overlap_leaves_gaps size overlap txt md fuel h cs h' fin p :
  0 < size → overlap < 0 → (md < length h)%nat →
  chunk_list (CharacterChunker size overlap) txt md fuel h = (cs, h', fin) →
  0 ≤ p → size ≤ p `mod` (size - overlap) →
  ¬ covered h' cs p.
Proof.
  intros Hsize Hov Hmd Hrun Hp Hgap (c & s & e & Hc & Hs & He & Hin).
  apply list_elem_of_lookup_1 in Hc as [j Hj].
  destruct (character_prefix _ _ _ _ _ _ _ _ _ Hmd Hrun _ _ Hj)
    as (_ & _ & _ & Hd).
  destruct (meta_int_char _ _ _ _ _ _ _ Hd) as (Hs' & He' & _).
  rewrite Hs in Hs'. rewrite He in He'.
  injection Hs' as ->. injection He' as ->.
  set (step := size - overlap) in *.
  assert (p `mod` step = p - Z.of_nat j * step) as Hmod
    by (symmetry; apply (Z.mod_unique _ _ (Z.of_nat j)); lia).
  lia.
Qed.

Lemma negative_overlap_leaves_gaps_witness :
  ¬ covered
      (chunk_list (CharacterChunker 10 (-5)) (str "Test content") 0%nat 5
         [ODict test_metadata]).1.2
      (chunk_list (CharacterChunker 10 (-5)) (str "Test content") 0%nat 5
         [ODict test_metadata]).1.1
      10.
Proof.
  apply (negative_overlap_leaves_gaps 10 (-5) (str "Test content") 0%nat 5
           [ODict test_metadata] _ _
           (chunk_list (CharacterChunker 10 (-5)) (str "Test content") 0%nat 5
              [ODict test_metadata]).2);
    [lia | lia | simpl; lia | | lia | by vm_compute].
  by destruct (chunk_list _ _ _ _ _) as [[cs h'] fin].
Defined.

(** ** The metadata and the ids of the chunks *)

Lemma str_inj (s1 s2 : string) : str s1 = str s2 → s1 = s2.
Proof.
  unfold str. intros Heq.
  assert (list_ascii_of_string s1 = list_ascii_of_string s2) as Hl.
  { revert Heq. generalize (list_ascii_of_string s1) (list_ascii_of_string s2).
    induction l as [|a l IH]; intros [|b l']; simpl; try done.
    intros [= Hab Hl]. f_equal; [|by apply IH].
    by rewrite <- (ascii_N_embedding a), <- (ascii_N_embedding b), Hab. }
  by rewrite <- (string_of_list_ascii_of_string s1),
             <- (string_of_list_ascii_of_string s2), Hl.
Qed.

Lemma indexed_chunk_id_inj h d0 (i j : Z) :
  indexed_chunk_id h d0 i = indexed_chunk_id h d0 j → i = j.
Proof.
  unfold indexed_chunk_id. intros Heq. injection Heq as Heq.
  apply app_inv_head in Heq. apply (app_inv_head (str "_chunk_")) in Heq.
  simpl in Heq. by apply str_inj, (inj pretty) in Heq.
Qed.

Lemma preserves_insert d0 d key v :
  key ∈ chunker_keys → preserves d0 d → preserves d0 (<[key := v]> d).
Proof.
  intros Hkey Hd key' Hkey'. rewrite lookup_insert_ne; [by apply Hd|].
  by intros ->.
Qed.

Lemma char_loop_copy size txt md start chunk_idx h c g' h' :
  char_loop size txt md start chunk_idx h = Some (c, g', h') →
  yields_copy md h h' c.
Proof.
  unfold char_loop. destruct (start <? py_len txt); [|done].
  unfold alloc. intros [= <- <- <-]. eexists _, chunk_idx.
  split; [done|]. split; [done|]. split; [|split; [|done]].
  - repeat apply preserves_insert; try done; unfold chunker_keys;
      set_solver.
  - rewrite !lookup_insert_ne by (by vm_compute). by rewrite lookup_insert_eq.
Qed.

Lemma char_next_copy size overlap txt md g h c g' h' :
  char_next size overlap txt md g h = Some (c, g', h') →
  yields_copy md h h' c.
Proof.
  destruct g as [|start chunk_idx]; simpl.
  - destruct txt; [done|]. apply char_loop_copy.
  - destruct (_ >=? _); [done|]. apply char_loop_copy.
Qed.

Lemma tok_loop_copy size md tk tokens start chunk_idx h c g' h' :
  tok_loop size md tk tokens start chunk_idx h = Some (c, g', h') →
  yields_copy md h h' c.
Proof.
  unfold tok_loop. destruct (start <? py_len tokens); [|done].
  unfold alloc. intros [= <- <- <-]. eexists _, chunk_idx.
  split; [done|]. split; [done|]. split; [|split; [|done]].
  - repeat apply preserves_insert; try done; unfold chunker_keys;
      set_solver.
  - rewrite !lookup_insert_ne by (by vm_compute). by rewrite lookup_insert_eq.
Qed.

Lemma tok_next_copy size overlap tokenizer txt md g h c g' h' :
  tok_next size overlap tokenizer txt md g h = Some (c, g', h') →
  yields_copy md h h' c.
Proof.
  assert (∀ g0, tok_delegate size overlap txt md g0 h = Some (c, g', h') →
                yields_copy md h h' c) as Hdel.
  { intros g0. unfold tok_delegate.
    destruct (char_next size overlap txt md g0 h) as [[[c1 g1] h1]|] eqn:Hn;
      [|done].
    intros [= -> <- ->]. by eapply char_next_copy. }
  destruct g as [|g|tokens start chunk_idx]; simpl.
  - destruct txt as [|c0 t], tokenizer as [tk|];
      try (by apply (Hdel CharStart)).
    destruct (encode tk (c0 :: t)) as [|t0 ts]; [done|]. apply tok_loop_copy.
  - apply Hdel.
  - destruct tokenizer as [tk|]; [|done].
    destruct (_ >=? _); [done|]. apply tok_loop_copy.
Qed.

Lemma sent_emit_copy md current_chunk chunk_idx s' h c g' h' :
  sent_emit md current_chunk chunk_idx s' h = (c, g', h') →
  yields_copy md h h' c.
Proof.
  unfold sent_emit, alloc. intros [= <- <- <-]. eexists _, chunk_idx.
  split; [done|]. split; [done|]. split; [|split; [|done]].
  - apply preserves_insert; [unfold chunker_keys; set_solver|done].
  - by rewrite lookup_insert_eq.
Qed.

Lemma sent_loop_copy size md sentences current_chunk current_size chunk_idx
    overlap_sentences h c g' h' :
  sent_loop size md sentences current_chunk current_size chunk_idx
    overlap_sentences h = Some (c, g', h') →
  yields_copy md h h' c.
Proof.
  revert current_chunk current_size.
  induction sentences as [|sentence rest IH];
    intros current_chunk current_size; cbn [sent_loop].
  - destruct current_chunk; [done|].
    by intros ?%(inj Some)%sent_emit_copy.
  - destruct (_ <=? _); [apply IH|].
    destruct current_chunk; [apply IH|].
    by intros ?%(inj Some)%sent_emit_copy.
Qed.

Lemma sent_next_copy size overlap txt md g h c g' h' :
  sent_next size overlap txt md g h = Some (c, g', h') →
  yields_copy md h h' c.
Proof.
  assert (∀ g0, match char_next size overlap txt md g0 h with
                | Some (c, g', h') => Some (c, SentFallback g', h')
                | None => None
                end = Some (c, g', h') → yields_copy md h h' c) as Hdel.
  { intros g0.
    destruct (char_next size overlap txt md g0 h) as [[[c1 g1] h1]|] eqn:Hn;
      [|done].
    intros [= -> <- ->]. by eapply char_next_copy. }
  destruct g as [|g|sentence rest current_chunk chunk_idx|]; simpl; [| | |done].
  - destruct txt as [|c0 t]; [done|].
    destruct (split_sentences (c0 :: t));
      [by apply (Hdel CharStart)|apply sent_loop_copy].
  - apply Hdel.
  - apply sent_loop_copy.
Qed.

(** One step of any strategy copies the base metadata. *)
Lemma chunk_next_copy c txt md s h ch s' h' :
  chunk_next c txt md s h = Some (ch, s', h') →
  ∃ d, h' = h ++ [ODict d] ∧ metadata ch = length h
    ∧ preserves (deref h md) d
    ∧ (c ≠ NoChunker →
       ∃ idx, d !! str "chunk_index" = Some (VInt idx)
              ∧ chunk_id ch = indexed_chunk_id h (deref h md) idx).
Proof.
  unfold chunk_next.
  destruct c as [size overlap|size overlap tokenizer|size overlap|],
    s as [g|g|g|g]; try done.
  - destruct (char_next size overlap txt md g h) as [[[c1 g1] h1]|] eqn:Hn;
      [|done].
    intros [= <- <- <-].
    destruct (char_next_copy _ _ _ _ _ _ _ _ _ Hn) as (d & idx & ? & ? & ? & ? & ?).
    exists d. split; [done|]. split; [done|]. split; [done|]. by exists idx.
  - destruct (tok_next size overlap tokenizer txt md g h)
      as [[[c1 g1] h1]|] eqn:Hn; [|done].
    intros [= <- <- <-].
    destruct (tok_next_copy _ _ _ _ _ _ _ _ _ _ Hn) as (d & idx & ? & ? & ? & ? & ?).
    exists d. split; [done|]. split; [done|]. split; [done|]. by exists idx.
  - destruct (sent_next size overlap txt md g h) as [[[c1 g1] h1]|] eqn:Hn;
      [|done].
    intros [= <- <- <-].
    destruct (sent_next_copy _ _ _ _ _ _ _ _ _ Hn) as (d & idx & ? & ? & ? & ? & ?).
    exists d. split; [done|]. split; [done|]. split; [done|]. by exists idx.
  - destruct g; [|done]. simpl. unfold alloc. intros [= <- <- <-].
    eexists. split; [done|]. split; [done|]. split; [|done]. by intros key _.
Qed.

(** The dicts and ids of the chunks of any run. *)
Lemma chunk_list_contents c txt md fuel h cs h' fin :
  (md < length h)%nat →
  chunk_list c txt md fuel h = (cs, h', fin) →
  ∀ j ch, cs !! j = Some ch →
    preserves (deref h md) (deref h' (metadata ch))
    ∧ (c ≠ NoChunker →
       deref h' (metadata ch) !! str "chunk_index" = Some (VInt (Z.of_nat j))
       ∧ chunk_id ch = indexed_chunk_id h (deref h md) (Z.of_nat j)).
Proof.
  intros Hmd Hrun.
  destruct (chunk_list_store _ _ _ _ _ _ _ _ Hrun) as (ds & -> & Hlen & Hst).
  unfold chunk_list in Hrun.
  destruct (run_invariant (chunk_next c txt md)
              (λ _ _ h0, (md < length h0)%nat ∧ deref h0 md = deref h md
                         ∧ ∀ r, list_at h0 r = list_at h r)
              (λ _ ch d, preserves (deref h md) d
                 ∧ (c ≠ NoChunker →
                    ∃ idx, d !! str "chunk_index" = Some (VInt idx)
                      ∧ chunk_id ch = indexed_chunk_id h (deref h md) idx)))
    with (fuel := fuel) (k := 0%nat) (s := chunk c) (h := h)
         (cs := cs) (h' := h ++ (ODict <$> ds)) (fin := fin)
    as (ds' & Heq & _ & Hcs & _); [|done|done|].
  - intros k s h0 ch s' h1 (Hlive & Hbase & Hlists) Hn.
    destruct (chunk_next_copy _ _ _ _ _ _ _ _ Hn)
      as (d & -> & Hloc & Hpres & Hid).
    exists d. rewrite Hbase in Hpres, Hid.
    split; [done|]. split; [done|]. split.
    { split; [done|]. intros Hc. destruct (Hid Hc) as (idx & Hi & Hcid).
      exists idx. split; [done|].
      by rewrite <- (indexed_chunk_id_ext h0 h). }
    split; [rewrite length_app; lia|]. split; [by rewrite deref_app_l|].
    intros r. rewrite <- Hlists. apply (list_at_app h0 [d]).
  - apply app_inv_head, ODict_fmap_inj in Heq as <-. intros j ch Hj.
    destruct (Hcs _ _ Hj) as (Hloc & d & Hd & Hpres & Hid).
    destruct (Hst _ _ Hj) as (_ & d' & Hd' & Hidx).
    rewrite Hd in Hd'. injection Hd' as <-.
    rewrite Hloc, (deref_app_r _ _ _ _ Hd). split; [done|].
    intros Hc. destruct (Hid Hc) as (idx & Hi & Hcid).
    rewrite (Hidx Hc) in Hi. injection Hi as <-. by rewrite (Hidx Hc).
Qed.

(** X5.  For every strategy, each chunk carries every key of the base
    metadata that is not one of the keys the chunkers set, with the value
    the base metadata has. *)
Theorem chunk_metadata_preserved c txt md fuel h cs h' fin :
  (md < length h)%nat →
  chunk_list c txt md fuel h = (cs, h', fin) →
  ∀ ch key, ch ∈ cs → key ∉ chunker_keys →
    deref h' (metadata ch) !! key = deref h md !! key.
Proof.
  intros Hmd Hrun ch key [j Hj]%list_elem_of_lookup_1 Hkey.
  destruct (chunk_list_contents _ _ _ _ _ _ _ _ Hmd Hrun _ _ Hj) as [Hpres _].
  by apply Hpres.
Qed.

Lemma chunk_metadata_preserved_witness :
  Forall (λ ch, deref test_chunks.1.2 (metadata ch) !! str "source_id"
                = deref [ODict test_metadata] 0%nat !! str "source_id")
    test_chunks.1.1.
Proof.
  apply Forall_forall. intros ch Hch.
  apply (chunk_metadata_preserved (CharacterChunker 10 2)
           (str "Test text for chunking") 0%nat 5 [ODict test_metadata]
           test_chunks.1.1 test_chunks.1.2 test_chunks.2);
    [simpl; lia | | done |].
  - unfold test_chunks. by destruct (chunk_list _ _ _ _ _) as [[cs h'] fin].
  - unfold chunker_keys. vm_compute. intros Hin.
    repeat (apply elem_of_cons in Hin as [Heq|Hin]; [discriminate Heq|]).
    by apply elem_of_nil in Hin.
Defined.

(** X6.  For the character, token and sentence strategies, chunk [j] of a
    call has the id [f"{source_id}_chunk_{j}"], so the ids of the chunks of
    one call are pairwise distinct. *)
Theorem windowing_chunk_ids_distinct c txt md fuel h cs h' fin :
  c ≠ NoChunker → (md < length h)%nat →
  chunk_list c txt md fuel h = (cs, h', fin) →
  (∀ j ch, cs !! j = Some ch →
     chunk_id ch = indexed_chunk_id h (deref h md) (Z.of_nat j))
  ∧ NoDup (map chunk_id cs).
Proof.
  intros Hc Hmd Hrun.
  assert (∀ j ch, cs !! j = Some ch →
            chunk_id ch = indexed_chunk_id h (deref h md) (Z.of_nat j)) as Hid.
  { intros j ch Hj.
    by destruct (chunk_list_contents _ _ _ _ _ _ _ _ Hmd Hrun _ _ Hj)
      as [_ [_ ?]]. }
  split; [done|]. apply NoDup_alt. intros i j v Hi Hj.
  apply list_lookup_fmap_Some in Hi as (ci & -> & Hi).
  apply list_lookup_fmap_Some in Hj as (cj & Heq & Hj).
  rewrite (Hid _ _ Hi), (Hid _ _ Hj) in Heq.
  apply indexed_chunk_id_inj in Heq. lia.
Qed.

Lemma windowing_chunk_ids_distinct_witness :
  (∀ j ch, test_chunks.1.1 !! j = Some ch →
     chunk_id ch = indexed_chunk_id [ODict test_metadata]
                     (deref [ODict test_metadata] 0%nat) (Z.of_nat j))
  ∧ NoDup (map chunk_id test_chunks.1.1).
Proof.
  apply (windowing_chunk_ids_distinct (CharacterChunker 10 2)
           (str "Test text for chunking") 0%nat 5 [ODict test_metadata]
           test_chunks.1.1 test_chunks.1.2 test_chunks.2);
    [done | simpl; lia |].
  unfold test_chunks. by destruct (chunk_list _ _ _ _ _) as [[cs h'] fin].
Defined.

(** ** The token chunker with a tokenizer *)

Section TokenFacts.
Variables (size overlap : Z) (tk : Tokenizer) (txt : pystr) (md : loc).
Variable d0 : dict.
Hypothesis Htxt : txt ≠ [].

Lemma tok_loop_step k start chunk_idx h c s' h' :
  (md < length h)%nat → deref h md = d0 →
  start = Z.of_nat k * (size - overlap) → chunk_idx = Z.of_nat k →
  tok_loop size md tk (encode tk txt) start chunk_idx h = Some (c, s', h') →
  ∃ d, h' = h ++ [ODict d] ∧ metadata c = length h
       ∧ tok_post size overlap tk (encode tk txt) d0 k c d
       ∧ tok_inv size overlap (encode tk txt) md d0 (Datatypes.S k) s' h'.
Proof.
  intros Hmd Hd0 -> ->. unfold tok_loop.
  destruct (Z.ltb_spec (Z.of_nat k * (size - overlap))
              (py_len (encode tk txt))); [|done].
  unfold alloc. intros [= <- <- <-]. eexists. split; [done|].
  split; [done|]. split.
  - rewrite Hd0. by repeat split.
  - split; [rewrite length_app; simpl; lia|].
    split; [by rewrite deref_app_l|].
    split; [done|]. split; [lia|]. split; f_equal; lia.
Qed.

Lemma tok_step_ok k s h c s' h' :
  tok_inv size overlap (encode tk txt) md d0 k s h →
  tok_next size overlap (Some tk) txt md s h = Some (c, s', h') →
  ∃ d, h' = h ++ [ODict d] ∧ metadata c = length h
       ∧ tok_post size overlap tk (encode tk txt) d0 k c d
       ∧ tok_inv size overlap (encode tk txt) md d0 (Datatypes.S k) s' h'.
Proof.
  intros (Hmd & Hd0 & Hs). destruct s as [|g|tokens start chunk_idx];
    [|done|]; cbn [tok_next].
  - subst k. destruct txt as [|c0 t] eqn:Heq; [done|]. rewrite <- Heq.
    destruct (encode tk txt) eqn:Henc; [done|]. rewrite <- Henc.
    by apply tok_loop_step.
  - destruct Hs as (-> & Hk & -> & ->).
    destruct (Z.geb_spec ((Z.of_nat k - 1) * (size - overlap) + size - overlap)
                (py_len (encode tk txt))); [done|].
    apply tok_loop_step; try done; lia.
Qed.

Lemma tok_end k s h :
  tok_inv size overlap (encode tk txt) md d0 k s h →
  tok_next size overlap (Some tk) txt md s h = None →
  py_len (encode tk txt) ≤ Z.of_nat k * (size - overlap).
Proof.
  intros (Hmd & Hd0 & Hs). destruct s as [|g|tokens start chunk_idx];
    [|done|]; cbn [tok_next].
  - subst k. destruct txt as [|c0 t] eqn:Heq; [done|]. rewrite <- Heq.
    destruct (encode tk txt) eqn:Henc; [done|]. rewrite <- Henc.
    unfold tok_loop.
    destruct (Z.ltb_spec 0 (py_len (encode tk txt))); [|lia].
    by destruct (alloc _ _).
  - destruct Hs as (-> & Hk & -> & ->).
    destruct (Z.geb_spec ((Z.of_nat k - 1) * (size - overlap) + size - overlap)
                (py_len (encode tk txt))); [lia|].
    unfold tok_loop.
    destruct (Z.ltb_spec ((Z.of_nat k - 1) * (size - overlap) + size - overlap)
                (py_len (encode tk txt))); [|lia].
    by destruct (alloc _ _).
Qed.

Lemma tok_run_exhausts fuel tokens start chunk_idx h :
  0 < size - overlap → py_len tokens - start ≤ Z.of_nat fuel →
  (1 ≤ fuel)%nat →
  (run (tok_next size overlap (Some tk) txt md) fuel
     (TokYielded tokens start chunk_idx) h).2 = true.
Proof.
  intros Hstep. revert start chunk_idx h.
  induction fuel as [|fuel IH]; intros start chunk_idx h Hfuel Hpos; [lia|].
  cbn [run tok_next].
  destruct (Z.geb_spec (start + size - overlap) (py_len tokens)); [done|].
  unfold tok_loop.
  destruct (Z.ltb_spec (start + size - overlap) (py_len tokens)); [|done].
  unfold alloc.
  match goal with
  | |- context [run _ fuel ?s ?h1] =>
      specialize (IH (start + size - overlap) (chunk_idx + 1) h1);
      destruct (run (tok_next size overlap (Some tk) txt md) fuel s h1)
        as [[cs h2] fin]
  end.
  simpl in *. apply IH; lia.
Qed.

Lemma tok_start_exhausts fuel h :
  0 < size - overlap → (length (encode tk txt) < fuel)%nat →
  (run (tok_next size overlap (Some tk) txt md) fuel TokStart h).2 = true.
Proof.
  intros Hstep Hfuel. destruct fuel as [|fuel]; [lia|]. cbn [run tok_next].
  destruct txt as [|c0 t] eqn:Heq; [done|]. rewrite <- Heq in Hfuel |- *.
  destruct (encode tk txt) as [|t0 ts] eqn:Henc; [done|].
  assert (1 ≤ fuel)%nat as Hpos by (simpl in Hfuel; lia).
  rewrite <- Henc in Hfuel |- *. unfold tok_loop.
  destruct (Z.ltb_spec 0 (py_len (encode tk txt))); [|done].
  unfold alloc.
  match goal with
  | |- context [run _ fuel ?s ?h1] =>
      pose proof (tok_run_exhausts fuel (encode tk txt) 0 0 h1 Hstep) as Hex;
      destruct (run (tok_next size overlap (Some tk) txt md) fuel s h1)
        as [[cs h2] fin]
  end.
  simpl in *. apply Hex; unfold py_len in *; lia.
Qed.
End TokenFacts.

Lemma tok_dict_lookups size tokens d0 start chunk_idx :
  tok_dict size tokens d0 start chunk_idx !! str "start_token"
  = Some (VInt start)
  ∧ tok_dict size tokens d0 start chunk_idx !! str "end_token"
    = Some (VInt (Z.min (start + size) (py_len tokens)))
  ∧ tok_dict size tokens d0 start chunk_idx !! str "chunk_index"
    = Some (VInt chunk_idx).
Proof.
  unfold tok_dict. split; [|split].
  - rewrite lookup_insert_ne by (by vm_compute). by rewrite lookup_insert_eq.
  - by rewrite lookup_insert_eq.
  - rewrite !lookup_insert_ne by (by vm_compute). by rewrite lookup_insert_eq.
Qed.

(** X7.  With a tokenizer, a non-empty text and [0 <= overlap < size], the
    token chunker terminates; chunk [i] is the decoding of
    [tokens[i*(size-overlap) : i*(size-overlap)+size]] and records the
    bounds of this window as [start_token] and [end_token]; there are
    [ceil(len(tokens) / (size - overlap))] chunks, and every token position
    lies in the window of some chunk. *)
Theorem token_chunker_windows size overlap tk txt md h :
  txt ≠ [] → 0 ≤ overlap < size → (md < length h)%nat →
  ∃ cs h',
    (∀ fuel, (length (encode tk txt) < fuel)%nat →
       chunk_list (TokenChunker size overlap (Some tk)) txt md fuel h
       = (cs, h', true))
    ∧ (∀ i c, cs !! i = Some c →
         text c = decode tk (py_slice (encode tk txt)
                               (Z.of_nat i * (size - overlap))
                               (Z.of_nat i * (size - overlap) + size))
         ∧ meta_int h' c (str "start_token")
           = Some (Z.of_nat i * (size - overlap))
         ∧ meta_int h' c (str "end_token")
           = Some (Z.min (Z.of_nat i * (size - overlap) + size)
                     (py_len (encode tk txt))))
    ∧ Z.of_nat (length cs)
      = (py_len (encode tk txt) + (size - overlap) - 1) / (size - overlap)
    ∧ (∀ p, 0 ≤ p < py_len (encode tk txt) → token_covered h' cs p).
Proof.
  intros Hne Hov Hmd. set (tokens := encode tk txt).
  destruct (run (tok_next size overlap (Some tk) txt md)
              (Datatypes.S (length tokens)) TokStart h)
    as [[cs h'] fin] eqn:Hrun.
  pose proof (tok_start_exhausts size overlap tk txt md Hne
                (Datatypes.S (length tokens)) h ltac:(lia)
                ltac:(unfold tokens; lia)) as Hfin.
  rewrite Hrun in Hfin. simpl in Hfin. subst fin.
  assert (tok_inv size overlap tokens md (deref h md) 0 TokStart h) as Hinv
    by done.
  destruct (run_invariant _ _ _
              (tok_step_ok size overlap tk txt md (deref h md) Hne)
              _ _ _ _ _ _ _ Hinv Hrun)
    as (ds & -> & Hlen & Hcs & Hend).
  assert (∀ j c, cs !! j = Some c →
            Z.of_nat j * (size - overlap) < py_len tokens
            ∧ text c = decode tk (py_slice tokens
                                    (Z.of_nat j * (size - overlap))
                                    (Z.of_nat j * (size - overlap) + size))
            ∧ deref (h ++ (ODict <$> ds)) (metadata c)
              = tok_dict size tokens (deref h md)
                  (Z.of_nat j * (size - overlap)) (Z.of_nat j)) as Hchunks.
  { intros j c Hj. destruct (Hcs _ _ Hj) as (Hloc & d & Hd & H1 & H2 & H3).
    simpl in *. split; [done|]. split; [done|].
    rewrite Hloc. subst d. by apply deref_app_r. }
  assert (py_len tokens ≤ Z.of_nat (length cs) * (size - overlap)) as Hreach.
  { destruct (Hend eq_refl) as (s_end & HI & Hnone).
    by apply (tok_end _ _ _ _ _ _ Hne _ _ _ HI) in Hnone. }
  exists cs, (h ++ (ODict <$> ds)). split; [|split; [|split]].
  - intros fuel Hfuel. rewrite chunk_list_token.
    eapply run_fuel_mono; [exact Hrun|lia].
  - intros i c Hi. destruct (Hchunks _ _ Hi) as (_ & Htext & Hd).
    split; [done|]. unfold meta_int. rewrite Hd.
    destruct (tok_dict_lookups size tokens (deref h md)
                (Z.of_nat i * (size - overlap)) (Z.of_nat i))
      as (-> & -> & _). done.
  - set (step := size - overlap) in *. set (n := Z.of_nat (length cs)) in *.
    assert (n * step ≤ py_len tokens + step - 1) as Hup.
    { destruct (decide (length cs = 0%nat)) as [H0|Hn0].
      - pose proof (py_len_nonneg tokens). unfold n. rewrite H0. simpl. lia.
      - destruct (lookup_lt_is_Some_2 cs (Nat.pred (length cs)) ltac:(lia))
          as [c Hc].
        destruct (Hchunks _ _ Hc) as (Hlt & _). unfold n. nia. }
    apply (Z.div_unique _ _ _ (py_len tokens + step - 1 - step * n)); lia.
  - intros p Hp. set (k := p / (size - overlap)).
    assert (0 < size - overlap) as Hstep by lia.
    pose proof (Z.mul_div_le p _ Hstep) as Hlo.
    pose proof (Z.mul_succ_div_gt p _ Hstep) as Hhi.
    assert (0 ≤ k) as Hk by (apply Z.div_pos; lia).
    assert (Z.to_nat k < length cs)%nat as Hlt by (fold k in Hlo; nia).
    destruct (lookup_lt_is_Some_2 _ _ Hlt) as [c Hc].
    destruct (Hchunks _ _ Hc) as (_ & _ & Hd).
    exists c, (Z.of_nat (Z.to_nat k) * (size - overlap)),
      (Z.min (Z.of_nat (Z.to_nat k) * (size - overlap) + size) (py_len tokens)).
    split; [by eapply list_elem_of_lookup_2|].
    unfold meta_int. rewrite Hd.
    destruct (tok_dict_lookups size tokens (deref h md)
                (Z.of_nat (Z.to_nat k) * (size - overlap))
                (Z.of_nat (Z.to_nat k))) as (-> & -> & _).
    split; [done|]. split; [done|].
    rewrite Z2Nat.id by done. fold k in Hlo, Hhi. lia.
Qed.

Lemma token_chunker_windows_witness :
  ∃ cs h',
    (∀ fuel, (length (encode char_tokenizer (str "Test text")) < fuel)%nat →
       chunk_list (TokenChunker 5 1 (Some char_tokenizer)) (str "Test text")
         0%nat fuel [ODict test_metadata] = (cs, h', true))
    ∧ (∀ i c, cs !! i = Some c →
         text c = decode char_tokenizer
                    (py_slice (encode char_tokenizer (str "Test text"))
                       (Z.of_nat i * (5 - 1)) (Z.of_nat i * (5 - 1) + 5))
         ∧ meta_int h' c (str "start_token") = Some (Z.of_nat i * (5 - 1))
         ∧ meta_int h' c (str "end_token")
           = Some (Z.min (Z.of_nat i * (5 - 1) + 5)
                     (py_len (encode char_tokenizer (str "Test text")))))
    ∧ Z.of_nat (length cs)
      = (py_len (encode char_tokenizer (str "Test text")) + (5 - 1) - 1)
        / (5 - 1)
    ∧ (∀ p, 0 ≤ p < py_len (encode char_tokenizer (str "Test text")) →
         token_covered h' cs p).
Proof.
  apply (token_chunker_windows 5 1 char_tokenizer (str "Test text") 0%nat
           [ODict test_metadata]); [done | lia | simpl; lia].
Defined.

(** ** More on the sentence chunker *)

Lemma total_len_nonneg l : 0 ≤ total_len l.
Proof.
  induction l as [|s l IH]; simpl; [done|].
  pose proof (py_len_nonneg s). unfold total_len in *. simpl. lia.
Qed.

Lemma total_len_cons s l : total_len (s :: l) = py_len s + total_len l.
Proof. done. Qed.

Lemma total_len_app l1 l2 : total_len (l1 ++ l2) = total_len l1 + total_len l2.
Proof.
  induction l1 as [|s l1 IH]; [unfold total_len; simpl; lia|].
  unfold total_len in *. simpl. rewrite IH. lia.
Qed.

Lemma total_len_reverse l : total_len (reverse l) = total_len l.
Proof.
  induction l as [|s l IH]; [done|].
  rewrite reverse_cons, total_len_app, IH. unfold total_len. simpl. lia.
Qed.

Lemma py_join_len sep (parts : list pystr) :
  parts ≠ [] →
  py_len (py_join sep parts)
  = total_len parts + (Z.of_nat (length parts) - 1) * py_len sep.
Proof.
  induction parts as [|p ps IH]; [done|]. intros _.
  destruct ps as [|p' ps].
  - unfold total_len. simpl. lia.
  - change (py_join sep (p :: p' :: ps))
      with (p ++ sep ++ py_join sep (p' :: ps)).
    rewrite total_len_cons. unfold py_len in *. rewrite !length_app.
    specialize (IH ltac:(done)). simpl length in *. lia.
Qed.

(** The start of the generator, once the text is known not to be empty. *)
Lemma sent_start_run size overlap txt md fuel h :
  txt ≠ [] →
  run (sent_next size overlap txt md) (Datatypes.S fuel) SentStart h
  = resume (sent_next size overlap txt md)
      (sent_loop size md (split_sentences txt) [] 0 0 [] h) fuel h.
Proof.
  intros Hne. rewrite run_resume. f_equal. cbn [sent_next].
  destruct txt as [|c0 t]; [done|].
  destruct (split_sentences (c0 :: t)) eqn:Hsplit; [|done].
  by apply split_scan_nonempty in Hsplit.
Qed.

(** The chunks of a run are the flushed buffers, joined. *)
Lemma sentence_chunks size overlap txt md h :
  txt ≠ [] →
  ∃ cs h',
    (∀ fuel, (length (split_sentences txt) + 1 < fuel)%nat →
       chunk_list (SentenceChunker size overlap) txt md fuel h
       = (cs, h', true))
    ∧ map text cs
      = map (py_join (str " "))
          (flushed size overlap (split_sentences txt) [] 0 []).
Proof.
  intros Hne.
  destruct (sent_loop_flushed size overlap txt md (split_sentences txt)
              [] 0 0 [] h (Datatypes.S (length (split_sentences txt)))
              ltac:(lia)) as (cs & h' & Hrun & Htexts).
  rewrite <- sent_start_run in Hrun by done.
  exists cs, h'. split; [|done].
  intros fuel Hfuel. rewrite chunk_list_sentence.
  eapply run_fuel_mono; [exact Hrun|lia].
Qed.

Section SentenceMore.
Variables (size overlap : Z).

(** Sentences that fit together are flushed together. *)
Lemma flushed_fits sentences :
  ∀ current_chunk overlap_sentences,
    total_len current_chunk + total_len sentences ≤ size →
    current_chunk ++ sentences ≠ [] →
    flushed size overlap sentences current_chunk (total_len current_chunk)
      overlap_sentences
    = [current_chunk ++ sentences].
Proof.
  induction sentences as [|s rest IH];
    intros current_chunk overlap_sentences Hfit Hne; cbn [flushed].
  - rewrite app_nil_r in *. by destruct current_chunk.
  - rewrite total_len_cons in Hfit. pose proof (total_len_nonneg rest).
    destruct (Z.leb_spec (total_len current_chunk + py_len s) size); [|lia].
    replace (total_len current_chunk + py_len s)
      with (total_len (current_chunk ++ [s]))
      by (rewrite total_len_app, total_len_cons; unfold total_len; simpl; lia).
    rewrite IH.
    + by rewrite <- app_assoc.
    + rewrite total_len_app, total_len_cons. unfold total_len at 2. simpl. lia.
    + by destruct current_chunk.
Qed.

(** The loop that prepares the overlap takes the longest run of trailing
    sentences that fits. *)
Lemma overlap_loop_spec reversed :
  ∀ acc, ∃ taken remaining,
    reversed = taken ++ remaining
    ∧ overlap_loop overlap reversed acc (total_len acc) = reverse taken ++ acc
    ∧ (taken ≠ [] → total_len (reverse taken ++ acc) ≤ overlap)
    ∧ (remaining = []
       ∨ ∃ x remaining', remaining = x :: remaining'
           ∧ overlap < total_len (reverse taken ++ acc) + py_len x).
Proof.
  induction reversed as [|s reversed IH]; intros acc; cbn [overlap_loop].
  - exists [], []. split; [done|]. split; [done|]. split; [done|]. by left.
  - destruct (Z.leb_spec (total_len acc + py_len s) overlap) as [Hle|Hgt].
    + replace (total_len acc + py_len s) with (total_len (s :: acc))
        by (rewrite total_len_cons; lia).
      destruct (IH (s :: acc)) as (taken & remaining & -> & -> & Htot & Hmax).
      exists (s :: taken), remaining. rewrite reverse_cons, <- !app_assoc.
      split; [done|]. split; [done|]. split; [|done].
      intros _. destruct taken as [|t taken].
      * change (total_len (s :: acc) ≤ overlap). rewrite total_len_cons. lia.
      * by apply Htot.
    + exists [], (s :: reversed). split; [done|]. split; [done|].
      split; [done|]. right. exists s, reversed. split; [done|]. simpl. lia.
Qed.

Lemma overlap_of_buffer (b : list pystr) :
  let ov := overlap_loop overlap (reverse b) [] 0 in
  total_len ov ≤ Z.max 0 overlap
  ∧ (ov = b
     ∨ ∃ before x, b = before ++ x :: ov ∧ overlap < total_len ov + py_len x).
Proof.
  destruct (overlap_loop_spec (reverse b) [])
    as (taken & remaining & Hrev & Hov & Htot & Hmax).
  change (total_len []) with 0 in Hov. simpl. rewrite Hov, app_nil_r in *.
  assert (b = reverse remaining ++ reverse taken) as Hb.
  { rewrite <- reverse_app, <- Hrev. by rewrite reverse_involutive. }
  split.
  - destruct taken as [|t taken]; [simpl; lia|].
    specialize (Htot ltac:(done)). lia.
  - destruct Hmax as [->|(x & remaining' & -> & Hx)].
    + left. by rewrite Hb.
    + right. exists (reverse remaining'), x. split; [|done].
      rewrite Hb, reverse_cons, <- app_assoc. done.
Qed.

(** A buffer that is not empty is a prefix of the next buffer flushed. *)
Lemma flushed_head sentences :
  ∀ current_chunk current_size overlap_sentences b bs,
    current_chunk ≠ [] →
    flushed size overlap sentences current_chunk current_size
      overlap_sentences = b :: bs →
    ∃ more, b = current_chunk ++ more.
Proof.
  induction sentences as [|s rest IH];
    intros current_chunk current_size overlap_sentences b bs Hne;
    cbn [flushed].
  - destruct current_chunk; [done|]. intros [= <- _]. exists [].
    by rewrite app_nil_r.
  - destruct (_ <=? _).
    + intros (more & ->)%IH; [|by destruct current_chunk].
      exists (s :: more). by rewrite <- app_assoc.
    + destruct current_chunk; [done|]. intros [= <- _]. exists [].
      by rewrite app_nil_r.
Qed.

(** Consecutive buffers: the overlap is carried over. *)
Lemma flushed_carries sentences :
  ∀ current_chunk current_size overlap_sentences i b b',
    flushed size overlap sentences current_chunk current_size
      overlap_sentences !! i = Some b →
    flushed size overlap sentences current_chunk current_size
      overlap_sentences !! Datatypes.S i = Some b' →
    carries_overlap overlap b b'.
Proof.
  induction sentences as [|s rest IH];
    intros current_chunk current_size overlap_sentences i b b';
    cbn [flushed].
  - by destruct current_chunk.
  - destruct (_ <=? _); [apply IH|].
    destruct current_chunk as [|s0 cur]; [apply IH|].
    destruct i as [|i]; [|apply IH]. simpl. intros [= <-] Hnext.
    destruct (flushed size overlap rest _ _ _) as [|b1 bs] eqn:Hfl; [done|].
    simpl in Hnext. injection Hnext as ->.
    apply flushed_head in Hfl as (more & ->);
      [|by destruct (overlap_loop _ _ _ _)].
    destruct (overlap_of_buffer (s0 :: cur)) as [Htot Hmax].
    exists (overlap_loop overlap (reverse (s0 :: cur)) [] 0), (s :: more).
    rewrite <- app_assoc. done.
Qed.

(** Every buffer fits the size or is an overlap with one sentence. *)
Lemma flushed_within_bound sentences :
  ∀ current_chunk overlap_sentences b,
    (current_chunk = [] ∨ within_bound size overlap current_chunk) →
    total_len overlap_sentences ≤ Z.max 0 overlap →
    b ∈ flushed size overlap sentences current_chunk (total_len current_chunk)
          overlap_sentences →
    within_bound size overlap b.
Proof.
  induction sentences as [|s rest IH];
    intros current_chunk overlap_sentences b Hcur Hov; cbn [flushed].
  - destruct current_chunk as [|s0 cur]; [by intros ?%elem_of_nil|].
    intros ->%list_elem_of_singleton. by destruct Hcur.
  - destruct (Z.leb_spec (total_len current_chunk + py_len s) size) as [Hle|Hgt].
    + replace (total_len current_chunk + py_len s)
        with (total_len (current_chunk ++ [s]))
        by (rewrite total_len_app, total_len_cons; unfold total_len; simpl;
            lia).
      apply IH; [|done]. right. left.
      rewrite total_len_app, total_len_cons. unfold total_len at 2. simpl.
      lia.
    + destruct current_chunk as [|s0 cur].
      * apply IH; [|done]. right. right. by exists overlap_sentences, s.
      * destruct (overlap_of_buffer (s0 :: cur)) as [Htot _].
        intros [->|Hin]%elem_of_cons; [by destruct Hcur|].
        revert Hin. apply IH; [|done]. right. right. by eexists _, s.
Qed.
End SentenceMore.

(** X8.  When the sentences of a non-empty text have at most [size]
    characters in total, the sentence chunker yields one chunk, the
    sentences joined by one space. *)
Theorem sentence_single_chunk size overlap txt md h :
  txt ≠ [] → total_len (split_sentences txt) ≤ size →
  ∃ c h',
    (∀ fuel, (length (split_sentences txt) + 1 < fuel)%nat →
       chunk_list (SentenceChunker size overlap) txt md fuel h
       = ([c], h', true))
    ∧ text c = py_join (str " ") (split_sentences txt).
Proof.
  intros Hne Hfit.
  destruct (sentence_chunks size overlap txt md h Hne)
    as (cs & h' & Hrun & Htexts).
  change (flushed size overlap (split_sentences txt) [] 0 [])
    with (flushed size overlap (split_sentences txt) [] (total_len []) [])
    in Htexts.
  rewrite flushed_fits in Htexts;
    [|done|apply split_scan_nonempty].
  destruct cs as [|c [|c' cs]]; try done.
  injection Htexts as Htext. by exists c, h'.
Qed.

Lemma sentence_single_chunk_witness :
  ∃ c h',
    (∀ fuel, (length (split_sentences (str "One. Two. Three.")) + 1 < fuel)%nat →
       chunk_list (SentenceChunker 100 10) (str "One. Two. Three.") 0%nat
         fuel [ODict test_metadata] = ([c], h', true))
    ∧ text c = py_join (str " ") (split_sentences (str "One. Two. Three.")).
Proof.
  apply (sentence_single_chunk 100 10 (str "One. Two. Three.") 0%nat
           [ODict test_metadata]); [done | by vm_compute].
Defined.

(** X9.  The chunks of the sentence chunker are the buffers of whole
    sentences of the split, joined by one space, chunk by chunk.  The
    sentences of each buffer have at most [size] characters in total, unless
    the buffer is an overlap of at most [max(0, overlap)] characters
    followed by one sentence; the text of the chunk has one more character
    per sentence after the first. *)
Theorem sentence_chunk_bound size overlap txt md h :
  txt ≠ [] →
  ∃ cs h' buffers,
    (∀ fuel, (length (split_sentences txt) + 1 < fuel)%nat →
       chunk_list (SentenceChunker size overlap) txt md fuel h
       = (cs, h', true))
    ∧ map text cs = map (py_join (str " ")) buffers
    ∧ (∀ b s, b ∈ buffers → s ∈ b → s ∈ split_sentences txt)
    ∧ ∀ i c b, cs !! i = Some c → buffers !! i = Some b →
        b ≠ [] ∧ text c = py_join (str " ") b
        ∧ within_bound size overlap b
        ∧ py_len (text c) = total_len b + Z.of_nat (length b) - 1.
Proof.
  intros Hne.
  destruct (sentence_chunks size overlap txt md h Hne)
    as (cs & h' & Hrun & Htexts).
  exists cs, h', (flushed size overlap (split_sentences txt) [] 0 []).
  split; [done|]. split; [done|]. split.
  - intros b s Hb Hs. destruct (flushed_sound _ _ _ _ _ _ _ Hb) as (_ & Hsub).
    destruct (Hsub s Hs) as [Hin|[Hin|Hin]];
      [by apply elem_of_nil in Hin|by apply elem_of_nil in Hin|done].
  - intros i c b Hc Hi.
    assert (text c = py_join (str " ") b) as Htext.
    { assert (map text cs !! i = Some (text c)) as Hl
        by (by rewrite list_lookup_fmap, Hc).
      rewrite Htexts, list_lookup_fmap, Hi in Hl. by injection Hl. }
    assert (b ∈ flushed size overlap (split_sentences txt) [] 0 []) as Hb
      by (by eapply list_elem_of_lookup_2).
    destruct (flushed_sound _ _ _ _ _ _ _ Hb) as (Hnb & _).
    split; [done|]. split; [done|]. split.
    + apply (flushed_within_bound size overlap (split_sentences txt) [] []);
        [by left|unfold total_len; simpl; lia|done].
    + rewrite Htext, py_join_len by done.
      change (py_len (str " ")) with 1. lia.
Qed.

Lemma sentence_chunk_bound_witness :
  ∃ cs h' buffers,
    (∀ fuel,
       (length (split_sentences (str "One. Two. Three. Four.")) + 1 < fuel)%nat →
       chunk_list (SentenceChunker 8 4) (str "One. Two. Three. Four.") 0%nat
         fuel [ODict test_metadata] = (cs, h', true))
    ∧ map text cs = map (py_join (str " ")) buffers
    ∧ (∀ b s, b ∈ buffers → s ∈ b →
         s ∈ split_sentences (str "One. Two. Three. Four."))
    ∧ ∀ i c b, cs !! i = Some c → buffers !! i = Some b →
        b ≠ [] ∧ text c = py_join (str " ") b
        ∧ within_bound 8 4 b
        ∧ py_len (text c) = total_len b + Z.of_nat (length b) - 1.
Proof.
  apply (sentence_chunk_bound 8 4 (str "One. Two. Three. Four.") 0%nat
           [ODict test_metadata]).
  done.
Defined.

(** X10.  Consecutive chunks of the sentence chunker overlap by whole
    sentences: the next buffer starts with the longest run of trailing
    sentences of the flushed buffer that has at most [overlap] characters,
    followed by at least one new sentence. *)
Theorem sentence_overlap_carried size overlap txt md h :
  txt ≠ [] →
  ∃ cs h' buffers,
    (∀ fuel, (length (split_sentences txt) + 1 < fuel)%nat →
       chunk_list (SentenceChunker size overlap) txt md fuel h
       = (cs, h', true))
    ∧ map text cs = map (py_join (str " ")) buffers
    ∧ (∀ b s, b ∈ buffers → s ∈ b → s ∈ split_sentences txt)
    ∧ ∀ i b b', buffers !! i = Some b → buffers !! Datatypes.S i = Some b' →
        carries_overlap overlap b b'.
Proof.
  intros Hne.
  destruct (sentence_chunks size overlap txt md h Hne)
    as (cs & h' & Hrun & Htexts).
  exists cs, h', (flushed size overlap (split_sentences txt) [] 0 []).
  split; [done|]. split; [done|]. split.
  - intros b s Hb Hs. destruct (flushed_sound _ _ _ _ _ _ _ Hb) as (_ & Hsub).
    destruct (Hsub s Hs) as [Hin|[Hin|Hin]];
      [by apply elem_of_nil in Hin|by apply elem_of_nil in Hin|done].
  - apply flushed_carries.
Qed.

Lemma sentence_overlap_carried_witness :
  ∃ cs h' buffers,
    (∀ fuel,
       (length (split_sentences (str "One. Two. Three. Four.")) + 1 < fuel)%nat →
       chunk_list (SentenceChunker 8 4) (str "One. Two. Three. Four.") 0%nat
         fuel [ODict test_metadata] = (cs, h', true))
    ∧ map text cs = map (py_join (str " ")) buffers
    ∧ (∀ b s, b ∈ buffers → s ∈ b →
         s ∈ split_sentences (str "One. Two. Three. Four."))
    ∧ ∀ i b b', buffers !! i = Some b → buffers !! Datatypes.S i = Some b' →
        carries_overlap 4 b b'.
Proof.
  apply (sentence_overlap_carried 8 4 (str "One. Two. Three. Four.") 0%nat
           [ODict test_metadata]).
  done.
Defined.

(** ** Dotted paths *)

Lemma split_on_join sep cur s :
  py_join [sep] (split_on sep cur s) = reverse cur ++ s.
Proof.
  revert cur. induction s as [|c s IH]; intros cur; cbn [split_on].
  - simpl. by rewrite app_nil_r.
  - destruct (N.eqb_spec c sep) as [->|Hne].
    + pose proof (split_on_nonempty sep [] s) as Hnil.
      destruct (split_on sep [] s) as [|p ps] eqn:Hsplit; [done|].
      change (py_join [sep] (reverse cur :: p :: ps))
        with (reverse cur ++ [sep] ++ py_join [sep] (p :: ps)).
      by rewrite <- Hsplit, IH.
    + rewrite IH, reverse_cons, <- app_assoc. done.
Qed.

Lemma split_on_pieces sep cur s p :
  sep ∉ cur → p ∈ split_on sep cur s → sep ∉ p.
Proof.
  revert cur. induction s as [|c s IH]; intros cur Hcur; cbn [split_on].
  - intros ->%list_elem_of_singleton. by rewrite elem_of_reverse.
  - destruct (N.eqb_spec c sep) as [->|Hne].
    + intros [->|Hin]%elem_of_cons; [by rewrite elem_of_reverse|].
      revert Hin. apply IH. by intros ?%elem_of_nil.
    + apply IH. intros [?|?]%elem_of_cons; [done|by apply Hcur].
Qed.

Lemma split_on_single sep cur s :
  sep ∉ s → split_on sep cur s = [reverse cur ++ s].
Proof.
  revert cur. induction s as [|c s IH]; intros cur Hs; cbn [split_on].
  - by rewrite app_nil_r.
  - destruct (N.eqb_spec c sep) as [->|Hne]; [by destruct Hs; left|].
    rewrite IH by (intros ?; apply Hs; by right).
    by rewrite reverse_cons, <- app_assoc.
Qed.

Lemma split_on_several sep cur s :
  sep ∈ s → (2 ≤ length (split_on sep cur s))%nat.
Proof.
  revert cur. induction s as [|c s IH]; intros cur Hs; cbn [split_on].
  - by apply elem_of_nil in Hs.
  - destruct (N.eqb_spec c sep) as [->|Hne].
    + pose proof (split_on_nonempty sep [] s).
      destruct (split_on sep [] s); [done|simpl; lia].
    + apply IH. by apply elem_of_cons in Hs as [->|?].
Qed.

Lemma py_join_snoc sep (parts : list pystr) p :
  parts ≠ [] → py_join sep (parts ++ [p]) = py_join sep parts ++ sep ++ p.
Proof.
  induction parts as [|q qs IH]; [done|]. intros _.
  destruct qs as [|q' qs]; [done|].
  change (py_join sep ((q :: q' :: qs) ++ [p]))
    with (q ++ sep ++ py_join sep ((q' :: qs) ++ [p])).
  rewrite IH by done.
  change (py_join sep (q :: q' :: qs))
    with (q ++ sep ++ py_join sep (q' :: qs)).
  by rewrite <- !app_assoc.
Qed.

Lemma py_slice_to_init {A} (l : list A) x :
  py_slice_to (l ++ [x]) (-1) = l.
Proof.
  unfold py_slice_to, adjust_index, py_len. rewrite length_app. simpl.
  destruct (Z.ltb_spec (-1) 0); [|lia].
  rewrite take_app_length'; [done|lia].
Qed.

(** X11.  Joining the pieces of [strategy.split(".")] with "." gives the
    strategy back; the class name [parts[-1]] always exists and has no dot;
    with a dot in the strategy the module name, a dot and the class name
    make up the strategy, and without one the module name is empty and the
    class name is the strategy. *)
Theorem custom_path_decomposes (strategy : pystr) :
  py_join (str ".") (py_split strategy 46) = strategy
  ∧ ∃ class_name,
      py_getitem (py_split strategy 46) (-1) = Ok class_name
      ∧ (46%N ∉ class_name)
      ∧ (((46%N ∈ strategy)
          ∧ custom_module_name strategy ++ str "." ++ class_name = strategy)
         ∨ ((46%N ∉ strategy)
            ∧ custom_module_name strategy = [] ∧ class_name = strategy)).
Proof.
  assert (py_join (str ".") (py_split strategy 46) = strategy) as Hjoin
    by apply (split_on_join 46 []).
  split; [done|].
  destruct (py_getitem_last (py_split strategy 46) (split_on_nonempty _ _ _))
    as (class_name & Hget & Hlast).
  exists class_name. split; [done|].
  apply last_Some in Hlast as (parts & Hparts).
  assert (class_name ∈ py_split strategy 46) as Hin
    by (rewrite Hparts; apply elem_of_app; right; by left).
  split; [by eapply (split_on_pieces 46 []); [intros ?%elem_of_nil|]|].
  unfold custom_module_name. rewrite Hparts, py_slice_to_init.
  destruct (decide (46%N ∈ strategy)) as [Hdot|Hdot].
  - left. split; [done|].
    pose proof (split_on_several 46 [] strategy Hdot) as Hlen.
    fold (py_split strategy 46) in Hlen. rewrite Hparts in Hlen, Hjoin.
    rewrite length_app in Hlen. simpl in Hlen.
    rewrite py_join_snoc in Hjoin by (destruct parts; [simpl in Hlen; lia|done]).
    done.
  - right. split; [done|].
    unfold py_split in Hparts. rewrite split_on_single in Hparts by done.
    destruct parts as [|p [|p' parts]]; simplify_eq/=; done.
Qed.

(** ** Custom chunkers *)

Section CustomFacts.
Variable py_lower : pystr → pystr.
Variable import_tiktoken : result unit.
Variable tiktoken_get_encoding : pystr → result Tokenizer.
Variables py_module py_class custom : Type.
Variable import_module : pystr → result py_module.
Variable getattr : py_module → pystr → result py_class.
Variable construct_kw : py_class → Z → Z → result custom.
Variable construct : py_class → result custom.

(** X12.  For a strategy that is not a built-in name, [get_chunker] never
    returns a built-in chunker; it returns a custom chunker exactly from a
    module and class that were found, built with [size] and [overlap] or,
    after a [TypeError], without arguments; and what it raises is the
    [ValueError] that wraps an ordinary exception, or an exception that is
    not an [Exception]. *)
Theorem get_chunker_custom_outcomes strategy size overlap tokenizer
    tokenizer_name :
  py_lower strategy ∉ [str "character"; str "token"; str "sentence";
                       str "none"] →
  match get_chunker py_lower import_tiktoken tiktoken_get_encoding
          import_module getattr construct_kw construct
          strategy size overlap tokenizer tokenizer_name with
  | Ok (Builtin _) => False
  | Ok (Custom c) =>
      ∃ module class_name chunker_class,
        import_module (custom_module_name strategy) = Ok module
        ∧ last (py_split strategy 46) = Some class_name
        ∧ getattr module class_name = Ok chunker_class
        ∧ (construct_kw chunker_class size overlap = Ok c
           ∨ ∃ e1, construct_kw chunker_class size overlap = Raise e1
               ∧ isinstance e1 TypeError = true
               ∧ construct chunker_class = Ok c)
  | Raise e =>
      (∃ e0, isinstance e0 Exception = true
         ∧ e = mkExn ValueError (unknown_strategy_message strategy e0))
      ∨ isinstance e Exception = false
  end.
Proof.
  intros Hnot. unfold get_chunker.
  apply not_elem_of_cons in Hnot as [? Hnot].
  apply not_elem_of_cons in Hnot as [? Hnot].
  apply not_elem_of_cons in Hnot as [? Hnot].
  apply not_elem_of_cons in Hnot as [? _].
  rewrite !decide_False by done. unfold load_custom.
  destruct (py_getitem_last (py_split strategy 46)
              (split_on_nonempty _ _ _)) as (class_name & -> & Hlast).
  fold (custom_module_name strategy). simpl.
  assert (∀ e : exn,
            match (if isinstance e Exception
                   then Raise (mkExn ValueError
                                 (unknown_strategy_message strategy e))
                   else Raise e) : result (chunker custom) with
            | Ok (Builtin _) => False
            | Ok (Custom c) => False
            | Raise e' =>
                (∃ e0, isinstance e0 Exception = true
                   ∧ e' = mkExn ValueError
                            (unknown_strategy_message strategy e0))
                ∨ isinstance e' Exception = false
            end) as Hraise.
  { intros e. destruct (isinstance e Exception) eqn:He; [|by right].
    left. by exists e. }
  destruct (import_module (custom_module_name strategy)) as [module|e] eqn:Hm;
    simpl; [|by specialize (Hraise e); destruct (isinstance e Exception)].
  destruct (getattr module class_name) as [chunker_class|e] eqn:Ha;
    simpl; [|by specialize (Hraise e); destruct (isinstance e Exception)].
  destruct (construct_kw chunker_class size overlap) as [c|e1] eqn:Hc; simpl.
  { exists module, class_name, chunker_class. repeat (split; [done|]). by left. }
  destruct (isinstance e1 TypeError) eqn:Hty;
    [|by specialize (Hraise e1); destruct (isinstance e1 Exception)].
  destruct (construct chunker_class) as [c|e] eqn:Hc'; simpl;
    [|by specialize (Hraise e); destruct (isinstance e Exception)].
  exists module, class_name, chunker_class. repeat (split; [done|]).
  right. by exists e1.
Qed.

End CustomFacts.

Lemma get_chunker_custom_outcomes_witness :
  match get_chunker ascii_lower (Ok ()) unknown_encoding no_modules
          (λ _ _, Ok ()) (λ _ _ _, Ok ()) (λ _, Ok ())
          (str "mypackage.CustomChunker") 1000 200 None None with
  | Ok (Builtin _) => False
  | Ok (Custom c) =>
      ∃ module class_name chunker_class,
        no_modules (custom_module_name (str "mypackage.CustomChunker"))
        = Ok module
        ∧ last (py_split (str "mypackage.CustomChunker") 46) = Some class_name
        ∧ (λ _ _, Ok ()) module class_name = Ok chunker_class
        ∧ ((λ _ _ _, Ok ()) chunker_class 1000 200 = Ok c
           ∨ ∃ e1, (λ _ _ _, Ok ()) chunker_class 1000 200 = Raise e1
               ∧ isinstance e1 TypeError = true
               ∧ (λ _, Ok ()) chunker_class = Ok c)
  | Raise e =>
      (∃ e0, isinstance e0 Exception = true
         ∧ e = mkExn ValueError
                 (unknown_strategy_message (str "mypackage.CustomChunker") e0))
      ∨ isinstance e Exception = false
  end.
Proof.
  apply (get_chunker_custom_outcomes ascii_lower (Ok ()) unknown_encoding
           unit unit unit no_modules (λ _ _, Ok ()) (λ _ _ _, Ok ())
           (λ _, Ok ()) (str "mypackage.CustomChunker") 1000 200 None None).
  vm_compute. intros Hin.
  repeat (apply elem_of_cons in Hin as [Heq|Hin]; [discriminate Heq|]).
  by apply elem_of_nil in Hin.
Defined.

(** ** Loading a tokenizer *)

(** X13.  For a name that is not [None], [get_tokenizer] returns a
    tokenizer that encodes and decodes as the encoding of the backend does;
    an [ImportError] of the backend becomes the [ImportError] that asks to
    install tiktoken, any other ordinary exception a [ValueError] naming
    the tokenizer and the cause, and an exception that is not an
    [Exception] passes through. *)
Theorem get_tokenizer_outcomes import_tiktoken tiktoken_get_encoding name :
  match get_tokenizer import_tiktoken tiktoken_get_encoding (Some name) with
  | Ok None => False
  | Ok (Some tk) =>
      import_tiktoken = Ok ()
      ∧ ∃ encoding, tiktoken_get_encoding name = Ok encoding
          ∧ (∀ text, encode tk text = encode encoding text)
          ∧ (∀ tokens, decode tk tokens = decode encoding tokens)
  | Raise e =>
      ∃ e0, (import_tiktoken = Raise e0
             ∨ (import_tiktoken = Ok ()
                ∧ tiktoken_get_encoding name = Raise e0))
        ∧ ((isinstance e0 ImportError = true
            ∧ e = mkExn ImportError tiktoken_required)
           ∨ (isinstance e0 ImportError = false
              ∧ isinstance e0 Exception = true
              ∧ e = mkExn ValueError
                      (str "Failed to load tokenizer '" ++ name ++ str "': "
                       ++ exn_msg e0))
           ∨ (isinstance e0 Exception = false ∧ e = e0))
  end.
Proof.
  unfold get_tokenizer.
  destruct import_tiktoken as [[]|e0] eqn:Himp; simpl.
  - destruct (tiktoken_get_encoding name) as [encoding|e0] eqn:Henc; simpl.
    + split; [done|]. by exists encoding.
    + destruct (isinstance e0 ImportError) eqn:Hi;
        [|destruct (isinstance e0 Exception) eqn:He];
        exists e0; (split; [by right|]);
        [by left|right; by left|right; by right].
  - destruct (isinstance e0 ImportError) eqn:Hi;
      [|destruct (isinstance e0 Exception) eqn:He];
      exists e0; (split; [by left|]);
      [by left|right; by left|right; by right].
Qed.

(** ** Chunks as dicts *)

(** X14.  [Chunk.from_dict(chunk.to_dict())] has the text, the metadata
    object and the id of the chunk; the dict of [to_dict] has the three
    keys "text", "metadata" and "chunk_id". *)
Theorem chunk_dict_roundtrip (c : Chunk) (h : heap) :
  from_dict (to_dict c) h = Ok (of_chunk c, h ++ [ODict ∅])
  ∧ dom (to_dict c) = {[str "text"; str "metadata"; str "chunk_id"]}.
Proof.
  split.
  - unfold from_dict, to_dict, alloc.
    rewrite lookup_insert_eq.
    rewrite (lookup_insert_ne _ (str "text") (str "metadata")) by (by vm_compute).
    rewrite lookup_insert_eq.
    rewrite (lookup_insert_ne _ (str "text") (str "chunk_id")) by (by vm_compute).
    rewrite (lookup_insert_ne _ (str "metadata") (str "chunk_id"))
      by (by vm_compute).
    by rewrite lookup_insert_eq.
  - unfold to_dict. rewrite !dom_insert_L, dom_empty_L. set_solver.
Qed.

(** X15.  [Chunk.from_dict] raises [KeyError] exactly when "text" is
    missing; a missing "metadata" gives a new empty dict, a missing
    "chunk_id" gives [None], and the values present are taken as they
    are. *)
Theorem from_dict_defaults (data : gmap pystr field) (h : heap) :
  match from_dict data h with
  | Raise e =>
      data !! str "text" = None
      ∧ e = mkExn (UserError (str "KeyError")) (str "'text'")
  | Ok (c, h') =>
      data !! str "text" = Some (raw_text c)
      ∧ h' = h ++ [ODict ∅]
      ∧ (data !! str "metadata" = None →
         raw_metadata c = FDict (length h) ∧ deref h' (length h) = ∅)
      ∧ (data !! str "chunk_id" = None → raw_chunk_id c = FVal VNone)
      ∧ (∀ m, data !! str "metadata" = Some m → raw_metadata c = m)
      ∧ (∀ v, data !! str "chunk_id" = Some v → raw_chunk_id c = v)
  end.
Proof.
  unfold from_dict, alloc.
  destruct (data !! str "text") as [t|]; [|done]. simpl.
  split; [done|]. split; [done|].
  assert (deref (h ++ [ODict ∅]) (length h) = ∅) as Hnew.
  { replace (length h) with (length h + 0)%nat by lia.
    by apply (deref_app_r h [∅] 0). }
  destruct (data !! str "metadata") as [m|], (data !! str "chunk_id") as [v|];
    repeat split; intros; simplify_eq/=; done.
Qed.

(** ** The pipeline *)

Lemma token_without_tokenizer size overlap txt md fuel h :
  chunk_list (TokenChunker size overlap None) txt md fuel h
  = chunk_list (CharacterChunker size overlap) txt md fuel h.
Proof. by rewrite chunk_list_token, chunk_list_character, tok_start_run. Qed.

Section PipelineFacts.
Variable py_lower : pystr → pystr.
Variable import_tiktoken : result unit.
Variable tiktoken_get_encoding : pystr → result Tokenizer.
Variables py_module py_class custom : Type.
Variable import_module : pystr → result py_module.
Variable getattr : py_module → pystr → result py_class.
Variable construct_kw : py_class → Z → Z → result custom.
Variable construct : py_class → result custom.

(** X16.  With [--tokenizer none] in any case and the token strategy, the
    pipeline builds a token chunker without tokenizer, whatever the backend
    does, and prints nothing; its chunks are those of the character
    chunker. *)
Theorem cli_tokenizer_none_disables (args : Args) :
  py_lower (arg_tokenizer args) = str "none" →
  py_lower (arg_chunk_strategy args) = str "token" →
  prepare_docs_chunker py_lower import_tiktoken tiktoken_get_encoding
    import_module getattr construct_kw construct
    (cli_config py_lower args) None None
  = Ok (@Builtin custom
          (TokenChunker (arg_chunk_size args) (arg_chunk_overlap args) None),
        [])
  ∧ ∀ txt md fuel h,
      chunk_list
        (TokenChunker (arg_chunk_size args) (arg_chunk_overlap args) None)
        txt md fuel h
      = chunk_list
          (CharacterChunker (arg_chunk_size args) (arg_chunk_overlap args))
          txt md fuel h.
Proof.
  intros Hnone Htoken. split; [|intros; apply token_without_tokenizer].
  unfold prepare_docs_chunker, prepare_docs_tokenizer, cli_config,
    Config_init, get_chunker. simpl.
  rewrite decide_True by done. simpl. rewrite Htoken.
  rewrite decide_False by (by vm_compute). rewrite decide_True by done.
  done.
Qed.

(** X17.  With the token strategy and a tokenizer name the backend cannot
    load, the pipeline builds a token chunker without tokenizer; it prints
    one warning when [verbose] is set and the name is not empty. *)
Theorem pipeline_token_without_backend (config : Config) name :
  py_lower (chunk_strategy config) = str "token" →
  tokenizer_name config = Some name →
  backend_unavailable import_tiktoken tiktoken_get_encoding name →
  prepare_docs_chunker py_lower import_tiktoken tiktoken_get_encoding
    import_module getattr construct_kw construct config None None
  = Ok (@Builtin custom
          (TokenChunker (chunk_size config) (chunk_overlap config) None),
        if verbose config && bool_decide (name ≠ []) then
          [str "Warning: Could not load tokenizer '" ++ name
           ++ str "', proceeding without tokenization"]
        else []).
Proof.
  intros Htoken Hname Hun.
  destruct (get_tokenizer_unavailable _ _ _ Hun) as (e & Hget & Hcatch).
  assert (get_chunker py_lower import_tiktoken tiktoken_get_encoding
            import_module getattr construct_kw construct
            (chunk_strategy config) (chunk_size config)
            (chunk_overlap config) None (Some name)
          = Ok (@Builtin custom
                  (TokenChunker (chunk_size config) (chunk_overlap config)
                     None))) as Hchunker.
  { unfold get_chunker. rewrite Htoken.
    rewrite decide_False by (by vm_compute). rewrite decide_True by done.
    unfold TokenChunker_init. by rewrite Hget, Hcatch. }
  unfold prepare_docs_chunker, prepare_docs_tokenizer. rewrite Hname.
  destruct name as [|c name'].
  - simpl. rewrite Hchunker. simpl. by rewrite andb_false_r.
  - rewrite Hget, Hcatch. simpl. rewrite Hchunker. simpl.
    by rewrite andb_true_r.
Qed.
End PipelineFacts.

Lemma cli_tokenizer_none_disables_witness :
  prepare_docs_chunker ascii_lower interrupted_import unknown_encoding
    no_modules (λ _ _, Ok ()) (λ _ _ _, Ok ()) (λ _, Ok ())
    (cli_config ascii_lower token_none_args) None None
  = Ok (@Builtin unit (TokenChunker 1000 200 None), [])
  ∧ ∀ txt md fuel h,
      chunk_list (TokenChunker 1000 200 None) txt md fuel h
      = chunk_list (CharacterChunker 1000 200) txt md fuel h.
Proof.
  apply (cli_tokenizer_none_disables ascii_lower interrupted_import
           unknown_encoding unit unit unit no_modules (λ _ _, Ok ())
           (λ _ _ _, Ok ()) (λ _, Ok ()) token_none_args); reflexivity.
Defined.

Lemma pipeline_token_without_backend_witness :
  prepare_docs_chunker ascii_lower (Ok ()) unknown_encoding
    no_modules (λ _ _, Ok ()) (λ _ _ _, Ok ()) (λ _, Ok ())
    (Config_init (str "token") 5 1 (Some (str "invalid_tokenizer_name_xyz"))
       None None None true)
    None None
  = Ok (@Builtin unit (TokenChunker 5 1 None),
        if true && bool_decide (str "invalid_tokenizer_name_xyz" ≠ []) then
          [str "Warning: Could not load tokenizer '"
           ++ str "invalid_tokenizer_name_xyz"
           ++ str "', proceeding without tokenization"]
        else []).
Proof.
  apply (pipeline_token_without_backend ascii_lower (Ok ()) unknown_encoding
           unit unit unit no_modules (λ _ _, Ok ()) (λ _ _ _, Ok ())
           (λ _, Ok ())
           (Config_init (str "token") 5 1
              (Some (str "invalid_tokenizer_name_xyz")) None None None true)
           (str "invalid_tokenizer_name_xyz")); [reflexivity..|].
  exists (mkExn ValueError
            (str "Unknown encoding " ++ str "invalid_tokenizer_name_xyz")).
  split; [reflexivity|]. right. split; reflexivity.
Defined.

(** ** Directory loading *)

Section ShouldLoadFacts.
Variable fnmatch : pystr → pystr → bool.

Lemma exclude_loop_spec patterns path_str name :
  exclude_loop fnmatch patterns path_str name = false
  ↔ ∀ p, p ∈ patterns →
      fnmatch path_str p = false ∧ fnmatch name p = false.
Proof.
  induction patterns as [|q qs IH]; simpl.
  - split; [by intros _ p ?%elem_of_nil|done].
  - destruct (fnmatch path_str q) eqn:H1, (fnmatch name q) eqn:H2; simpl;
      try (split; [done|intros Hall; destruct (Hall q) as [? ?];
                         [by left|congruence]]).
    rewrite IH. split.
    + intros Hall p [->|?]%elem_of_cons; [done|by apply Hall].
    + intros Hall p Hp. apply Hall. by right.
Qed.

Lemma include_loop_spec patterns path_str name :
  include_loop fnmatch patterns path_str name = true
  ↔ ∃ p, p ∈ patterns
      ∧ (fnmatch path_str p = true ∨ fnmatch name p = true).
Proof.
  induction patterns as [|q qs IH]; simpl.
  - split; [done|by intros (p & ?%elem_of_nil & _)].
  - destruct (fnmatch path_str q) eqn:H1; simpl.
    { split; [|done]. intros _. exists q. split; [by left|by left]. }
    destruct (fnmatch name q) eqn:H2; simpl.
    { split; [|done]. intros _. exists q. split; [by left|by right]. }
    rewrite IH. split.
    + intros (p & Hp & Hm). exists p. split; [by right|done].
    + intros (p & [->|Hp]%elem_of_cons & Hm); [|by exists p].
      destruct Hm; congruence.
Qed.

(** X18.  [DirectoryLoader._should_load] accepts a path exactly when no
    exclude pattern matches the path or its name and, if there are include
    patterns, one of them matches the path or its name. *)
Theorem should_load_spec include_patterns exclude_patterns path_str name :
  should_load fnmatch include_patterns exclude_patterns path_str name = true
  ↔ (∀ p, p ∈ default [] exclude_patterns →
       fnmatch path_str p = false ∧ fnmatch name p = false)
    ∧ (default [] include_patterns = []
       ∨ ∃ p, p ∈ default [] include_patterns
           ∧ (fnmatch path_str p = true ∨ fnmatch name p = true)).
Proof.
  unfold should_load. rewrite <- exclude_loop_spec.
  destruct (exclude_loop fnmatch (default [] exclude_patterns) path_str name).
  - split; [done|by intros [? _]].
  - destruct include_patterns as [[|p ps]|]; cbn [default from_option].
    + split; [by intros _; split; [|left]|done].
    + rewrite (include_loop_spec (p :: ps)). split.
      * intros Hex. split; [done|by right].
      * by intros [_ [?|?]].
    + split; [by intros _; split; [|left]|done].
Qed.
End ShouldLoadFacts.
